(** * Flowify workflow engine: a shallow embedding of the engine core

    The development follows the TypeScript sources of the engine:
    the event bus ([events/index.ts]), the scheduler ([scheduler/index.ts]),
    the executor ([executor/index.ts]), the wait manager ([async/index.ts])
    and the tool invoker ([tools/index.ts]).

    Conventions.
    - A JavaScript [Map] whose iteration order is observed is an association
      list in insertion order; a [Map] or [Set] that is only looked up is a
      [gmap] or [gset].
    - JavaScript numbers that count things or measure milliseconds are [Z].
      The one product of the sources, the delay of a retry with backoff,
      is computed by the host ([times_pow]), and so is the time a sleep
      really takes.
    - Subscribers of the event bus are functions of the event that return or
      throw. No caller of [emit] guards it, so what a subscriber throws
      comes out of the method that emitted.
    - User supplied callbacks (step bodies, hooks, skip conditions, tool
      executors) are functions on the part of the heap they can reach; they
      either return or throw.
    - Loops are written with fuel and each comes with a lemma showing that
      the fuel passed by the caller is never exhausted. *)

From Stdlib Require Import ZArith Lia.
From stdpp Require Import base option list gmap sets strings pretty relations.

Set Warnings "-register-all".

Open Scope string_scope.
Open Scope list_scope.
Open Scope Z_scope.

(** ** Values and errors *)

(** Opaque [unknown] data of the sources: JSON-like values. An object is the
    list of its own properties in insertion order. *)
Inductive Value : Type :=
  | VUndefined
  | VNull
  | VBool (b : bool)
  | VNumber (n : Z)
  | VString (s : string)
  | VArray (items : list Value)
  | VObject (props : list (string * Value)).

(** [core/errors.ts]: the error hierarchy; [JsError] is a plain [Error]. *)
Inductive Error : Type :=
  | JsError (message : string)
  | ValidationError (message : string) (details : list string)
  | CyclicDependencyError (cycle : list string)
  | StepExecutionError (message stepId : string) (originalError : option Error)
  | ToolNotFoundError (toolId : string)
  | UIComponentNotFoundError (componentId : string)
  | TimeoutError (message stepId : string) (timeoutMs : Z)
  | HookExecutionError (hookId hookType stepId : string) (originalError : option Error)
  | SchemaValidationError (message : string) (schemaErrors : list string)
  | ToolExecutionError (toolId message : string) (stepId : option string)
      (originalError : option Error).

(** [Array.prototype.join]. *)
Fixpoint join (sep : string) (l : list string) : string :=
  match l with
  | [] => ""
  | [x] => x
  | x :: rest => x +:+ sep +:+ join sep rest
  end.

(** [error.message]. *)
Definition error_message (e : Error) : string :=
  match e with
  | JsError m => m
  | ValidationError m _ => m
  | CyclicDependencyError cycle => "检测到循环依赖: " +:+ join " -> " cycle
  | StepExecutionError m _ _ => m
  | ToolNotFoundError t => "工具未注册: " +:+ t
  | UIComponentNotFoundError c => "UI 组件未注册: " +:+ c
  | TimeoutError m _ _ => m
  | HookExecutionError h _ _ _ => "Hook 执行失败: " +:+ h
  | SchemaValidationError m _ => m
  | ToolExecutionError _ m _ _ => m
  end.

(** What a [throw] carries: an [Error], or any other value, of which the
    sources only ever use the [String(...)] rendering. *)
Inductive Thrown : Type :=
  | ThrownError (e : Error)
  | ThrownOther (rendering : string).

(** ** Event bus ([events/index.ts]) *)

Module Events.

Inductive EventType : Type :=
  | WORKFLOW_START | WORKFLOW_COMPLETE | WORKFLOW_FAILED
  | STEP_START | STEP_COMPLETE | STEP_FAILED | STEP_RETRY | STEP_SKIP
  | PROGRESS_UPDATE | STEP_BAR_UPDATE
  | UI_RENDER | UI_RESPONSE
  | TOOL_INVOKE | TOOL_COMPLETE | TOOL_FAILED
  | WAIT_START | WAIT_TIMEOUT | WAIT_RESUME | WAIT_CANCEL.

(** The string value of each member of the enum. *)
Definition event_type_value (t : EventType) : string :=
  match t with
  | WORKFLOW_START => "workflow:start"
  | WORKFLOW_COMPLETE => "workflow:complete"
  | WORKFLOW_FAILED => "workflow:failed"
  | STEP_START => "step:start"
  | STEP_COMPLETE => "step:complete"
  | STEP_FAILED => "step:failed"
  | STEP_RETRY => "step:retry"
  | STEP_SKIP => "step:skip"
  | PROGRESS_UPDATE => "progress:update"
  | STEP_BAR_UPDATE => "stepbar:update"
  | UI_RENDER => "ui:render"
  | UI_RESPONSE => "ui:response"
  | TOOL_INVOKE => "tool:invoke"
  | TOOL_COMPLETE => "tool:complete"
  | TOOL_FAILED => "tool:failed"
  | WAIT_START => "wait:start"
  | WAIT_TIMEOUT => "wait:timeout"
  | WAIT_RESUME => "wait:resume"
  | WAIT_CANCEL => "wait:cancel"
  end.

#[export] Instance EventType_eq_dec : EqDecision EventType.
Proof. solve_decision. Defined.

Definition event_type_code (t : EventType) : nat :=
  match t with
  | WORKFLOW_START => 0 | WORKFLOW_COMPLETE => 1 | WORKFLOW_FAILED => 2
  | STEP_START => 3 | STEP_COMPLETE => 4 | STEP_FAILED => 5
  | STEP_RETRY => 6 | STEP_SKIP => 7
  | PROGRESS_UPDATE => 8 | STEP_BAR_UPDATE => 9
  | UI_RENDER => 10 | UI_RESPONSE => 11
  | TOOL_INVOKE => 12 | TOOL_COMPLETE => 13 | TOOL_FAILED => 14
  | WAIT_START => 15 | WAIT_TIMEOUT => 16 | WAIT_RESUME => 17
  | WAIT_CANCEL => 18
  end%nat.

Definition event_type_of_code (n : nat) : option EventType :=
  match n with
  | 0 => Some WORKFLOW_START | 1 => Some WORKFLOW_COMPLETE
  | 2 => Some WORKFLOW_FAILED
  | 3 => Some STEP_START | 4 => Some STEP_COMPLETE | 5 => Some STEP_FAILED
  | 6 => Some STEP_RETRY | 7 => Some STEP_SKIP
  | 8 => Some PROGRESS_UPDATE | 9 => Some STEP_BAR_UPDATE
  | 10 => Some UI_RENDER | 11 => Some UI_RESPONSE
  | 12 => Some TOOL_INVOKE | 13 => Some TOOL_COMPLETE | 14 => Some TOOL_FAILED
  | 15 => Some WAIT_START | 16 => Some WAIT_TIMEOUT | 17 => Some WAIT_RESUME
  | 18 => Some WAIT_CANCEL
  | _ => None
  end%nat.

#[export] Instance EventType_countable : Countable EventType.
Proof.
  apply (inj_countable event_type_code event_type_of_code).
  intros []; reflexivity.
Defined.

(** [WorkflowEvent]: every event carries these fields. *)
Record WorkflowEvent : Type := mkEvent {
  type : EventType;
  timestamp : Z;
  workflowId : string;
  instanceId : string;
  stepId : option string;
  payload : Value;
}.

(** [createWorkflowEvent]; [now] is the value of [Date.now()]. *)
Definition createWorkflowEvent (ty : EventType) (wid iid : string)
    (pl : Value) (sid : option string) (now : Z) : WorkflowEvent :=
  {| type := ty; timestamp := now; workflowId := wid; instanceId := iid;
     stepId := sid; payload := pl |}.

(** A listener is a function object: its identity, and whether a call with
    a given event returns or throws. *)
Record EventListener : Type := mkListener {
  listener_id : nat;
  listener_run : WorkflowEvent -> option Thrown;
}.

(** [Map<EventType, Set<EventListener>>]; a [Set] keeps insertion order and
    holds a function object at most once. *)
Record EventEmitter : Type := mkEmitter {
  listeners : gmap EventType (list EventListener);
}.

Definition set_has (l : EventListener) (s : list EventListener) : bool :=
  bool_decide (listener_id l ∈ map listener_id s).

Definition set_add (l : EventListener) (s : list EventListener)
    : list EventListener :=
  if set_has l s then s else s ++ [l].

Definition set_delete (l : EventListener) (s : list EventListener)
    : bool * list EventListener :=
  (set_has l s,
   filter (fun l' => listener_id l' ≠ listener_id l) s).

Definition on (em : EventEmitter) (ty : EventType) (l : EventListener)
    : EventEmitter :=
  let current := default [] (listeners em !! ty) in
  {| listeners := <[ty := set_add l current]> (listeners em) |}.

Definition off (em : EventEmitter) (ty : EventType) (l : EventListener)
    : bool * EventEmitter :=
  match listeners em !! ty with
  | None => (false, em)
  | Some s =>
      let '(removed, s') := set_delete l s in
      (removed, {| listeners := <[ty := s']> (listeners em) |})
  end.

(** What a call of [emit] does: the listeners it called, in order, and
    whether it returned or let an exception out. *)
Record Dispatch : Type := mkDispatch {
  called : list nat;
  raised : option Thrown;
}.

(** The [for (const listener of eventListeners) listener(event)] loop: a
    throwing listener ends the loop, since nothing catches the exception. *)
Fixpoint dispatch (ls : list EventListener) (ev : WorkflowEvent) : Dispatch :=
  match ls with
  | [] => {| called := []; raised := None |}
  | l :: rest =>
      match listener_run l ev with
      | Some t => {| called := [listener_id l]; raised := Some t |}
      | None =>
          let d := dispatch rest ev in
          {| called := listener_id l :: called d; raised := raised d |}
      end
  end.

Definition emit (em : EventEmitter) (ev : WorkflowEvent) : Dispatch :=
  match listeners em !! type ev with
  | None => {| called := []; raised := None |}
  | Some ls => dispatch ls ev
  end.

Definition listenerCount (em : EventEmitter) (ty : EventType) : nat :=
  match listeners em !! ty with
  | Some s => length s
  | None => 0%nat
  end.

Definition removeAllListeners (em : EventEmitter) (ty : option EventType)
    : EventEmitter :=
  match ty with
  | Some t => {| listeners := delete t (listeners em) |}
  | None => {| listeners := ∅ |}
  end.

Definition hasListeners (em : EventEmitter) (ty : EventType) : bool :=
  match listeners em !! ty with
  | Some s => bool_decide (0 < length s)%nat
  | None => false
  end.

(** The subscribers of the type of [ev]. *)
Definition subscribers (em : EventEmitter) (ev : WorkflowEvent)
    : list EventListener :=
  default [] (listeners em !! type ev).

(** The contract of the bus as the specification words it: whatever the
    subscribers do, each of them is called and [emit] returns. *)
Definition isolates_subscribers (em : EventEmitter) (ev : WorkflowEvent)
    : Prop :=
  (∀ l, l ∈ subscribers em ev → listener_id l ∈ called (emit em ev))
  ∧ raised (emit em ev) = None.

(** The first subscriber that throws on [ev], with those before it. *)
Fixpoint first_thrower (ls : list EventListener) (ev : WorkflowEvent)
    : option (list EventListener * EventListener * Thrown) :=
  match ls with
  | [] => None
  | l :: rest =>
      match listener_run l ev with
      | Some t => Some ([], l, t)
      | None =>
          match first_thrower rest ev with
          | Some (before, l', t) => Some (l :: before, l', t)
          | None => None
          end
      end
  end.

(** *** Facts about [emit] *)

Lemma dispatch_all_return (ls : list EventListener) (ev : WorkflowEvent) :
  (∀ l, l ∈ ls → listener_run l ev = None) →
  dispatch ls ev = {| called := map listener_id ls; raised := None |}.
Proof.
  induction ls as [|l rest IH]; intros Hall; simpl; [done|].
  rewrite (Hall l) by left.
  rewrite IH by (intros l' Hl'; apply Hall; by right).
  done.
Qed.

Lemma dispatch_first_throw (before after : list EventListener)
    (l : EventListener) (t : Thrown) (ev : WorkflowEvent) :
  (∀ l', l' ∈ before → listener_run l' ev = None) →
  listener_run l ev = Some t →
  dispatch (before ++ l :: after) ev
  = {| called := map listener_id (before ++ [l]); raised := Some t |}.
Proof.
  induction before as [|b before IH]; intros Hbefore Hl; simpl.
  - by rewrite Hl.
  - rewrite (Hbefore b) by left.
    rewrite IH; [done| |done].
    intros l' Hl'. apply Hbefore. by right.
Qed.

Lemma emit_subscribers (em : EventEmitter) (ev : WorkflowEvent) :
  emit em ev = dispatch (subscribers em ev) ev.
Proof.
  unfold emit, subscribers. by destruct (listeners em !! type ev).
Qed.

(** A bus with two subscribers of [STEP_START]: the first throws, the second
    only listens. *)
Definition failing_listener : EventListener :=
  {| listener_id := 1; listener_run := fun _ => Some (ThrownError (JsError "boom")) |}.

Definition quiet_listener : EventListener :=
  {| listener_id := 2; listener_run := fun _ => None |}.

Definition two_subscribers : EventEmitter :=
  on (on {| listeners := ∅ |} STEP_START failing_listener)
     STEP_START quiet_listener.

Definition step_start_event : WorkflowEvent :=
  createWorkflowEvent STEP_START "wf" "inst"
    (VObject [("attempt", VNumber 1)]) (Some "s1") 0.

(** C1, as the specification states it, fails: with a throwing subscriber
    registered before a second one, [emit] lets the exception out and the
    second subscriber is never called. *)
Lemma emit_exception_escapes : ¬ isolates_subscribers two_subscribers step_start_event.
Proof.
  intros [_ Hraised]. vm_compute in Hraised. discriminate.
Qed.

(** C1, amended: [emit] calls the subscribers of the event type in
    subscription order. When none of them throws, every subscriber is called
    once and [emit] returns. When one throws, the subscribers before it and
    the thrower itself have been called, no later subscriber is, and [emit]
    propagates that exception to its caller. *)
Theorem emit_delivers_until_first_throw (em : EventEmitter) (ev : WorkflowEvent) :
  ((∀ l, l ∈ subscribers em ev → listener_run l ev = None) →
     called (emit em ev) = map listener_id (subscribers em ev)
     ∧ raised (emit em ev) = None)
  ∧ (∀ before l after t,
       subscribers em ev = before ++ l :: after →
       (∀ l', l' ∈ before → listener_run l' ev = None) →
       listener_run l ev = Some t →
       called (emit em ev) = map listener_id (before ++ [l])
       ∧ raised (emit em ev) = Some t).
Proof.
  rewrite emit_subscribers. split.
  - intros Hall. by rewrite dispatch_all_return.
  - intros before l after t -> Hbefore Hl.
    by rewrite (dispatch_first_throw before after l t).
Qed.

Lemma emit_delivers_until_first_throw_witness :
  called (emit two_subscribers step_start_event) = [1%nat]
  ∧ raised (emit two_subscribers step_start_event)
    = Some (ThrownError (JsError "boom")).
Proof.
  apply (proj2 (emit_delivers_until_first_throw two_subscribers step_start_event)
           [] failing_listener [quiet_listener]).
  - vm_compute. reflexivity.
  - intros l' Hl'. inversion Hl'.
  - reflexivity.
Defined.

(** *** Subscribing and unsubscribing *)

(** The listener set of an event type, empty when the map has no entry. *)
Definition listeners_of (em : EventEmitter) (ty : EventType)
    : list EventListener :=
  default [] (listeners em !! ty).

Lemma set_has_add (l : EventListener) (s : list EventListener) :
  set_has l (set_add l s) = true.
Proof.
  unfold set_add. destruct (set_has l s) eqn:Hhas; [done|].
  unfold set_has. apply bool_decide_eq_true.
  rewrite map_app. apply elem_of_app. right. left.
Qed.

Lemma dispatch_called (ls : list EventListener) (ev : WorkflowEvent) (x : nat) :
  x ∈ called (dispatch ls ev) -> x ∈ map listener_id ls.
Proof.
  induction ls as [|l rest IH]; simpl; [done|].
  destruct (listener_run l ev); simpl.
  - intros Hx. apply list_elem_of_singleton in Hx as ->. left.
  - intros Hx. apply elem_of_cons in Hx as [->|Hx]; [left|right; by apply IH].
Qed.

(** X1: [on] adds the listener at the end of the set of its event type unless
    the set already holds it, so subscribing twice is subscribing once; the
    type then has listeners, and no other type is touched. *)
Theorem on_subscribes_once (em : EventEmitter) (ty : EventType)
    (l : EventListener) :
  listeners_of (on em ty l) ty
  = (if set_has l (listeners_of em ty) then listeners_of em ty
     else listeners_of em ty ++ [l])
  ∧ on (on em ty l) ty l = on em ty l
  ∧ listenerCount (on em ty l) ty
    = (if set_has l (listeners_of em ty) then listenerCount em ty
       else S (listenerCount em ty))
  ∧ hasListeners (on em ty l) ty = true
  ∧ ∀ other, other ≠ ty ->
      listeners (on em ty l) !! other = listeners em !! other.
Proof.
  assert (Hset : listeners (on em ty l) !! ty
                 = Some (set_add l (listeners_of em ty))).
  { unfold on. simpl. by rewrite lookup_insert_eq. }
  assert (Hcount : listenerCount em ty = length (listeners_of em ty)).
  { unfold listenerCount, listeners_of. by destruct (listeners em !! ty). }
  split; [|split; [|split; [|split]]].
  - unfold listeners_of at 1. by rewrite Hset.
  - unfold on at 1. rewrite Hset. simpl. unfold on. simpl. f_equal.
    rewrite insert_insert_eq. f_equal.
    unfold set_add at 1. by rewrite set_has_add.
  - unfold listenerCount at 1. rewrite Hset, Hcount. unfold set_add.
    destruct (set_has l (listeners_of em ty)); [done|].
    rewrite length_app. simpl. lia.
  - unfold hasListeners. rewrite Hset. apply bool_decide_eq_true.
    unfold set_add. destruct (set_has l (listeners_of em ty)) eqn:Hhas.
    + unfold set_has in Hhas. apply bool_decide_eq_true in Hhas.
      destruct (listeners_of em ty); [inversion Hhas|simpl; lia].
    + rewrite length_app. simpl. lia.
  - intros other Hother. unfold on. simpl. by rewrite lookup_insert_ne.
Qed.

(** X2: [off] reports whether the listener was subscribed to the type. After
    it the other listeners of the type are left in their order, an event of
    that type is never delivered to the listener, a second [off] reports
    [false], and the other types keep their listeners. *)
Theorem off_unsubscribes (em : EventEmitter) (ty : EventType)
    (l : EventListener) :
  (off em ty l).1 = set_has l (listeners_of em ty)
  ∧ listeners_of (off em ty l).2 ty
    = filter (fun l' => listener_id l' ≠ listener_id l) (listeners_of em ty)
  ∧ (∀ ev, type ev = ty -> listener_id l ∉ called (emit (off em ty l).2 ev))
  ∧ (off (off em ty l).2 ty l).1 = false
  ∧ ∀ other, other ≠ ty ->
      listeners_of (off em ty l).2 other = listeners_of em other.
Proof.
  assert (Hgone : ∀ s : list EventListener,
             listener_id l
             ∉ map listener_id
                 (filter (fun l' => listener_id l' ≠ listener_id l) s)).
  { intros s Hin. apply list_elem_of_fmap in Hin as (l' & Hid & Hl').
    apply list_elem_of_filter in Hl' as [Hne _]. by apply Hne. }
  assert (Hleft : listeners_of (off em ty l).2 ty
                  = filter (fun l' => listener_id l' ≠ listener_id l)
                      (listeners_of em ty)).
  { unfold off, listeners_of.
    destruct (listeners em !! ty) as [s|] eqn:Hs; simpl.
    - by rewrite lookup_insert_eq.
    - by rewrite Hs. }
  split; [|split; [done|split; [|split]]].
  - unfold off, listeners_of. by destruct (listeners em !! ty).
  - intros ev Hty Hcalled. rewrite emit_subscribers in Hcalled.
    apply dispatch_called in Hcalled. unfold subscribers in Hcalled.
    rewrite Hty in Hcalled. fold (listeners_of (off em ty l).2 ty) in Hcalled.
    rewrite Hleft in Hcalled. by apply (Hgone (listeners_of em ty)).
  - assert (Hagain : (off (off em ty l).2 ty l).1
                     = set_has l (listeners_of (off em ty l).2 ty)).
    { unfold off at 1, listeners_of.
      by destruct (listeners (off em ty l).2 !! ty). }
    rewrite Hagain, Hleft. unfold set_has. apply bool_decide_eq_false.
    apply Hgone.
  - intros other Hother. unfold off, listeners_of.
    destruct (listeners em !! ty) as [s|]; simpl; [|done].
    by rewrite lookup_insert_ne.
Qed.

(** X3: After [removeAllListeners] for a type, that type has no listener and an
    event of that type is delivered to nobody, while the other types keep
    theirs; without an argument every type is left without listeners. *)
Theorem removeAllListeners_silences (em : EventEmitter) (ty : EventType) :
  listenerCount (removeAllListeners em (Some ty)) ty = 0%nat
  ∧ hasListeners (removeAllListeners em (Some ty)) ty = false
  ∧ (∀ ev, type ev = ty ->
       emit (removeAllListeners em (Some ty)) ev
       = {| called := []; raised := None |})
  ∧ (∀ other, other ≠ ty ->
       listeners_of (removeAllListeners em (Some ty)) other
       = listeners_of em other)
  ∧ ∀ any ev,
      listenerCount (removeAllListeners em None) any = 0%nat
      ∧ emit (removeAllListeners em None) ev
        = {| called := []; raised := None |}.
Proof.
  split; [|split; [|split; [|split]]].
  - unfold listenerCount, removeAllListeners. simpl.
    by rewrite lookup_delete_eq.
  - unfold hasListeners, removeAllListeners. simpl.
    by rewrite lookup_delete_eq.
  - intros ev <-. unfold emit, removeAllListeners. simpl.
    by rewrite lookup_delete_eq.
  - intros other Hother. unfold listeners_of, removeAllListeners. simpl.
    by rewrite lookup_delete_ne.
  - intros any ev. unfold listenerCount, emit, removeAllListeners. simpl.
    by rewrite !lookup_empty.
Qed.

Lemma dispatch_snoc (s : list EventListener) (l : EventListener)
    (ev : WorkflowEvent) :
  dispatch (s ++ [l]) ev
  = match raised (dispatch s ev) with
    | Some _ => dispatch s ev
    | None => {| called := called (dispatch s ev) ++ [listener_id l];
                 raised := listener_run l ev |}
    end.
Proof.
  induction s as [|l' s IH]; simpl.
  - by destruct (listener_run l ev).
  - destruct (listener_run l' ev); simpl; [done|].
    rewrite IH. destruct (raised (dispatch s ev)) eqn:Hraised; simpl;
      [by rewrite Hraised|done].
Qed.

(** X4: A listener subscribed with [on] is served after the listeners that
    were there before it: an event of its type reaches it exactly when none
    of them throws, and what it does then is what [emit] does. Subscribing
    a listener the set already holds changes nothing of a delivery. *)
Theorem emit_after_on (em : EventEmitter) (l : EventListener)
    (ev : WorkflowEvent) :
  emit (on em (type ev) l) ev
  = if set_has l (subscribers em ev) then emit em ev
    else match raised (emit em ev) with
         | Some _ => emit em ev
         | None => {| called := called (emit em ev) ++ [listener_id l];
                      raised := listener_run l ev |}
         end.
Proof.
  rewrite !emit_subscribers.
  assert (Hnow : subscribers (on em (type ev) l) ev
                 = set_add l (subscribers em ev)).
  { unfold subscribers, on. simpl. by rewrite lookup_insert_eq. }
  rewrite Hnow. unfold set_add.
  destruct (set_has l (subscribers em ev)); [done|].
  apply dispatch_snoc.
Qed.

End Events.

(** ** Core types ([core/types.ts]) and the execution context
       ([context/index.ts]) *)

Module Core.

Inductive StepStatus : Type :=
  | PENDING | RUNNING | WAITING_INPUT | SUCCESS | FAILED | SKIPPED.

Inductive ToolMode : Type := SYNC | ASYNC.

Inductive WaitType : Type := WAIT_UI | WAIT_TOOL | WAIT_SIGNAL.

#[export] Instance StepStatus_eq_dec : EqDecision StepStatus.
Proof. solve_decision. Defined.

Record RetryPolicy : Type := mkRetryPolicy {
  maxRetries : Z;
  retryInterval : Z;
  exponentialBackoff : option bool;
  backoffMultiplier : option Z;
}.

(** [Context]: two maps, read and written through get/set/has. *)
Record Context : Type := mkContext {
  ctx_workflowId : string;
  ctx_instanceId : string;
  stepOutputs : gmap string Value;
  globals : gmap string Value;
}.

Definition getStepOutput (c : Context) (sid : string) : Value :=
  default VUndefined (stepOutputs c !! sid).

Definition hasStepOutput (c : Context) (sid : string) : bool :=
  bool_decide (is_Some (stepOutputs c !! sid)).

Definition setStepOutput (c : Context) (sid : string) (v : Value) : Context :=
  {| ctx_workflowId := ctx_workflowId c; ctx_instanceId := ctx_instanceId c;
     stepOutputs := <[sid := v]> (stepOutputs c); globals := globals c |}.

Definition getGlobal (c : Context) (k : string) : Value :=
  default VUndefined (globals c !! k).

Definition setGlobal (c : Context) (k : string) (v : Value) : Context :=
  {| ctx_workflowId := ctx_workflowId c; ctx_instanceId := ctx_instanceId c;
     stepOutputs := stepOutputs c; globals := <[k := v]> (globals c) |}.

(** [getDependencyOutputs]: the outputs of the listed steps that are not
    [undefined], as an object keyed by step id. *)
Definition getDependencyOutputs (c : Context) (ids : list string) : Value :=
  VObject
    (omap (fun sid =>
             match stepOutputs c !! sid with
             | Some VUndefined | None => None
             | Some v => Some (sid, v)
             end) ids).

(** The heap a user callback can reach: the context object it is handed
    and the variables its closure captured. *)
Record Store : Type := mkStore {
  context : Context;
  vars : gmap string Value;
}.

(** The public methods of the executor that change its cancellation set;
    any callback holding the executor may call them. *)
Inductive ExecutorCall : Type :=
  | CancelStep (sid : string)
  | ClearCancellation (sid : string).

Inductive Outcome (A : Type) : Type :=
  | Returned (a : A)
  | Threw (t : Thrown).
Arguments Returned {A} a.
Arguments Threw {A} t.

(** One run of a callback: how it ended, the heap it left, and the calls
    it made on the executor meanwhile. *)
Record Ran (A : Type) : Type := mkRan {
  outcome : Outcome A;
  store_after : Store;
  calls : list ExecutorCall;
}.
Arguments mkRan {A} _ _ _.
Arguments outcome {A} _.
Arguments store_after {A} _.
Arguments calls {A} _.

(** [SkipPolicy.condition]: a function of the context, or the source text
    of an expression. *)
Inductive SkipCondition : Type :=
  | ConditionFn (f : Store -> Ran bool)
  | ConditionExpr (expression : string).

Record SkipPolicy : Type := mkSkipPolicy {
  condition : SkipCondition;
  defaultOutput : Value;
}.

(** What a hook sees of its [HookContext]. *)
Record HookView : Type := mkHookView {
  hv_stepId : string;
  hv_stepInput : Value;
  hv_stepOutput : Value;
}.

(** A hook handler returns or throws; before that it may have called
    [modifyInput], of which the last argument counts. *)
Record HookHandler : Type := mkHookHandler {
  hook_id : string;
  hook_name : string;
  handler : HookView -> Store -> option Value * Ran unit;
}.

Record HookDefinition : Type := mkHookDefinition {
  beforeHooks : option (list HookHandler);
  afterHooks : option (list HookHandler);
}.

Record ToolInvocation : Type := mkToolInvocation {
  inv_toolId : string;
  inv_params : Value;
  inv_outputKey : option string;
}.

Record StepDefinition : Type := mkStep {
  step_id : string;
  step_name : string;
  step_type : string;
  step_dependencies : option (list string);
  step_retryPolicy : option RetryPolicy;
  step_skipPolicy : option SkipPolicy;
  step_hooks : option HookDefinition;
  step_tools : option (list ToolInvocation);
}.

Record WorkflowDefinition : Type := mkWorkflow {
  wf_id : string;
  wf_name : string;
  wf_steps : list StepDefinition;
  wf_globalHooks : option HookDefinition;
}.

(** A step that only has an id, a name, a type and dependencies. *)
Definition plain_step (sid : string) (deps : option (list string))
    : StepDefinition :=
  {| step_id := sid; step_name := sid; step_type := "task";
     step_dependencies := deps; step_retryPolicy := None;
     step_skipPolicy := None; step_hooks := None; step_tools := None |}.

(** *** Reading back what was written to the context *)

(** X5: A step output that was set is read back under its id and the step
    then has an output, even when the value set is [undefined]; the outputs
    of the other steps and the globals are untouched. The same holds for
    globals, which never show as step outputs. *)
Theorem context_round_trip (c : Context) (sid key : string) (v : Value) :
  (getStepOutput (setStepOutput c sid v) sid = v
   ∧ hasStepOutput (setStepOutput c sid v) sid = true
   ∧ (∀ other, other ≠ sid ->
        getStepOutput (setStepOutput c sid v) other = getStepOutput c other
        ∧ hasStepOutput (setStepOutput c sid v) other = hasStepOutput c other)
   ∧ ∀ k, getGlobal (setStepOutput c sid v) k = getGlobal c k)
  ∧ (getGlobal (setGlobal c key v) key = v
     ∧ (∀ other, other ≠ key ->
          getGlobal (setGlobal c key v) other = getGlobal c other)
     ∧ ∀ s, getStepOutput (setGlobal c key v) s = getStepOutput c s
            ∧ hasStepOutput (setGlobal c key v) s = hasStepOutput c s).
Proof.
  unfold getStepOutput, hasStepOutput, getGlobal, setStepOutput, setGlobal.
  simpl. rewrite !lookup_insert_eq. simpl.
  repeat (split || intros); rewrite ?lookup_insert_ne by done; done.
Qed.

End Core.

(** ** Insertion-ordered maps

    A JavaScript [Map] iterates in insertion order and [set] on a present
    key keeps the key's position. *)

Module OMap.

Section OrderedMap.
Context {V : Type}.

Fixpoint get (k : string) (m : list (string * V)) : option V :=
  match m with
  | [] => None
  | (k', v) :: rest => if decide (k' = k) then Some v else get k rest
  end.

Definition has (k : string) (m : list (string * V)) : bool :=
  bool_decide (is_Some (get k m)).

Fixpoint set (k : string) (v : V) (m : list (string * V))
    : list (string * V) :=
  match m with
  | [] => [(k, v)]
  | (k', v') :: rest =>
      if decide (k' = k) then (k, v) :: rest else (k', v') :: set k v rest
  end.

(** In-place change of the object stored under [k]. *)
Fixpoint alter (f : V -> V) (k : string) (m : list (string * V))
    : list (string * V) :=
  match m with
  | [] => []
  | (k', v') :: rest =>
      if decide (k' = k) then (k', f v') :: rest
      else (k', v') :: alter f k rest
  end.

Definition keys (m : list (string * V)) : list string := map fst m.

Lemma get_set_eq k v m : get k (set k v m) = Some v.
Proof.
  induction m as [|[k' v'] rest IH]; simpl.
  - by rewrite decide_True.
  - destruct (decide (k' = k)); simpl.
    + by rewrite decide_True.
    + by rewrite decide_False.
Qed.

Lemma get_set_ne k k' v m : k ≠ k' → get k' (set k v m) = get k' m.
Proof.
  intros Hne. induction m as [|[k0 v0] rest IH]; simpl.
  - by rewrite decide_False.
  - destruct (decide (k0 = k)) as [->|]; simpl.
    + by rewrite !decide_False.
    + destruct (decide (k0 = k')); [done|apply IH].
Qed.

Lemma get_Some_elem k v m : get k m = Some v → (k, v) ∈ m.
Proof.
  induction m as [|[k' v'] rest IH]; simpl; [done|].
  destruct (decide (k' = k)) as [->|].
  - intros [= ->]. left.
  - intros H. right. by apply IH.
Qed.

Lemma get_None_keys k m : get k m = None ↔ k ∉ keys m.
Proof.
  induction m as [|[k' v'] rest IH]; simpl.
  - split; [intros _ H; inversion H|done].
  - destruct (decide (k' = k)) as [->|Hne].
    + split; [done|]. intros H. exfalso. apply H. left.
    + rewrite IH, not_elem_of_cons.
      split; [intros H; split; [congruence|done]|by intros [_ H]].
Qed.

Lemma get_is_Some_keys k m : is_Some (get k m) ↔ k ∈ keys m.
Proof.
  destruct (get k m) eqn:E.
  - split; [|by eauto]. intros _.
    destruct (decide (k ∈ keys m)) as [|Hn]; [done|].
    apply get_None_keys in Hn. congruence.
  - split; [by intros [? ?]|]. intros Hin.
    apply get_None_keys in E. done.
Qed.

Lemma elem_get_NoDup k v m :
  NoDup (keys m) → (k, v) ∈ m → get k m = Some v.
Proof.
  induction m as [|[k' v'] rest IH]; simpl; intros Hnd Hin.
  - inversion Hin.
  - apply NoDup_cons in Hnd as [Hk' Hnd].
    apply elem_of_cons in Hin as [[= -> ->]|Hin].
    + by rewrite decide_True.
    + rewrite decide_False; [by apply IH|].
      intros ->. apply Hk'.
      apply list_elem_of_fmap. by exists (k, v).
Qed.

End OrderedMap.

End OMap.

(** ** Scheduler ([scheduler/index.ts]) *)

Module Scheduler.
Import Core.

Record DAGNode : Type := mkNode {
  step : StepDefinition;
  inDegree : Z;
  outDegree : Z;
}.

(** [nodes] and [edges] are [Map]s keyed by step id; [edges] maps a step to
    the ids it depends on. *)
Record DAG : Type := mkDAG {
  nodes : list (string * DAGNode);
  edges : list (string * list string);
}.

Record ValidationResult : Type := mkValidation {
  valid : bool;
  errors : option (list string);
}.

(** [step.dependencies || []]. *)
Definition deps_of (s : StepDefinition) : list string :=
  default [] (step_dependencies s).

(** *** [DAGBuilder.build] *)

(** First loop: one node and one edge entry per step. *)
Definition add_node
    (acc : list (string * DAGNode) * list (string * list string))
    (s : StepDefinition)
    : list (string * DAGNode) * list (string * list string) :=
  (OMap.set (step_id s) {| step := s; inDegree := 0; outDegree := 0 |} acc.1,
   OMap.set (step_id s) (deps_of s) acc.2).

(** [depNode.outDegree++] when the dependency names a node. *)
Definition bump_out (ns : list (string * DAGNode)) (depId : string)
    : list (string * DAGNode) :=
  OMap.alter
    (fun n => {| step := step n; inDegree := inDegree n;
                 outDegree := outDegree n + 1 |})
    depId ns.

(** Second loop: [node.inDegree = deps.length], then the out-degrees. *)
Definition count_degrees (ns : list (string * DAGNode)) (s : StepDefinition)
    : list (string * DAGNode) :=
  let ns1 :=
    OMap.alter
      (fun n => {| step := step n;
                   inDegree := Z.of_nat (length (deps_of s));
                   outDegree := outDegree n |})
      (step_id s) ns in
  fold_left bump_out (deps_of s) ns1.

Definition build (definition : WorkflowDefinition) : DAG :=
  let created := fold_left add_node (wf_steps definition) ([], []) in
  {| nodes := fold_left count_degrees (wf_steps definition) created.1;
     edges := created.2 |}.

(** *** Kahn's algorithm, as written twice in the sources
        ([detectCycle] and [topologicalSort]) *)

(** The initialisation loop: copy the in-degrees and queue the nodes whose
    in-degree is zero. *)
Definition init_step (acc : list (string * Z) * list string)
    (entry : string * DAGNode) : list (string * Z) * list string :=
  (OMap.set entry.1 (inDegree entry.2) acc.1,
   if decide (inDegree entry.2 = 0) then acc.2 ++ [entry.1] else acc.2).

Definition init_degrees (dag : DAG) : list (string * Z) * list string :=
  fold_left init_step (nodes dag) ([], []).

(** The body of [for (const [id, deps] of dag.edges)] for one entry. A key
    of [edges] without an in-degree gives [undefined - 1], which is [NaN]
    and never equals [0]: nothing is queued. *)
Definition relax (current : string) (acc : list (string * Z) * list string)
    (entry : string * list string) : list (string * Z) * list string :=
  if bool_decide (current ∈ entry.2) then
    match OMap.get entry.1 acc.1 with
    | Some d =>
        let newDegree := d - 1 in
        (OMap.set entry.1 newDegree acc.1,
         if decide (newDegree = 0) then acc.2 ++ [entry.1] else acc.2)
    | None => acc
    end
  else acc.

(** [while (queue.length > 0)]; [None] when the fuel runs out. *)
Fixpoint kahn_loop (fuel : nat) (es : list (string * list string))
    (deg : list (string * Z)) (queue sorted : list string)
    : option (list string) :=
  match queue with
  | [] => Some sorted
  | current :: rest =>
      match fuel with
      | O => None
      | S fuel' =>
          let acc := fold_left (relax current) es (deg, rest) in
          kahn_loop fuel' es acc.1 acc.2 (sorted ++ [current])
      end
  end.

(** The order Kahn's algorithm produces; every node is dequeued at most
    once, so one unit of fuel per node is enough ([kahn_build]). *)
Definition kahn (dag : DAG) : option (list string) :=
  let start := init_degrees dag in
  kahn_loop (length (nodes dag)) (edges dag) start.1 start.2 [].

(** *** [findCyclePath] and [findCycleFromNode] *)

(** JavaScript truthiness of the result of [Array.prototype.find] on
    strings: [undefined] and the empty string are falsy. *)
Definition truthy (found : option string) : option string :=
  match found with
  | Some s => if decide (s = "") then None else Some s
  | None => None
  end.

(** The [while (true)] loop of [findCycleFromNode]. *)
Fixpoint walk (fuel : nat) (es : list (string * list string))
    (start : string) (inCycle path visited : list string) (current : string)
    : option (list string) :=
  match fuel with
  | O => None
  | S fuel' =>
      let deps := default [] (OMap.get current es) in
      match truthy (find (fun d => bool_decide (d ∈ inCycle)
                                   && bool_decide (d ∉ visited)) deps) with
      | Some next =>
          walk fuel' es start inCycle (path ++ [next]) (visited ++ [next]) next
      | None =>
          match truthy (find (fun d => bool_decide (d = start)) deps) with
          | Some _ => Some (path ++ [start])
          | None =>
              match truthy (find (fun d => bool_decide (d ∈ visited)) deps) with
              | Some back => Some (path ++ [back])
              | None => Some path
              end
          end
      end
  end.

Definition findCycleFromNode (dag : DAG) (start : string)
    (inCycle : list string) : option (list string) :=
  walk (S (length inCycle)) (edges dag) start inCycle [start] [start] start.

(** The nodes Kahn's algorithm left out, in the order of [dag.nodes]. *)
Definition unsorted_nodes (dag : DAG) (sorted : list string) : list string :=
  filter (fun id => id ∉ sorted) (OMap.keys (nodes dag)).

Definition findCyclePath (dag : DAG) (sorted : list string)
    : option (list string) :=
  match unsorted_nodes dag sorted with
  | [] => Some []
  | start :: rest => findCycleFromNode dag start (start :: rest)
  end.

(** [detectCycle]: [Some None] is the source's [null]. *)
Definition detectCycle (dag : DAG) : option (option (list string)) :=
  sorted ← kahn dag;
  if decide (length sorted ≠ length (nodes dag))
  then path ← findCyclePath dag sorted; Some (Some path)
  else Some None.

(** *** [getReadySteps] *)

Definition ready (dag : DAG) (completedSteps : gset string)
    (entry : string * DAGNode) : bool :=
  bool_decide (entry.1 ∉ completedSteps)
  && forallb (fun depId => bool_decide (depId ∈ completedSteps))
       (default [] (OMap.get entry.1 (edges dag))).

Definition getReadySteps (dag : DAG) (completedSteps : gset string)
    : list StepDefinition :=
  map (fun entry => step entry.2)
    (filter (fun entry => ready dag completedSteps entry) (nodes dag)).

(** *** [Scheduler.validate] and [Scheduler.topologicalSort] *)

Definition dquote : string := String (Ascii.ascii_of_nat 34) EmptyString.

Definition missing_dependency (stepId depId : string) : string :=
  "步骤 " +:+ dquote +:+ stepId +:+ dquote +:+ " 依赖的步骤 "
  +:+ dquote +:+ depId +:+ dquote +:+ " 不存在".

Definition missing_dependencies (dag : DAG) : list string :=
  flat_map
    (fun entry =>
       flat_map
         (fun depId =>
            if OMap.has depId (nodes dag) then []
            else [missing_dependency entry.1 depId])
         entry.2)
    (edges dag).

Definition validate (dag : DAG) : option (Outcome ValidationResult) :=
  if decide (length (nodes dag) = 0%nat) then
    Some (Returned {| valid := false; errors := Some ["工作流定义不能为空"] |})
  else
    match missing_dependencies dag with
    | (_ :: _) as errs =>
        Some (Returned {| valid := false; errors := Some errs |})
    | [] =>
        cyclePath ← detectCycle dag;
        match cyclePath with
        | Some path => Some (Threw (ThrownError (CyclicDependencyError path)))
        | None => Some (Returned {| valid := true; errors := None |})
        end
    end.

Definition topologicalSort (dag : DAG) : option (Outcome (list string)) :=
  sorted ← kahn dag;
  if decide (length sorted ≠ length (nodes dag)) then
    cyclePath ← detectCycle dag;
    Some (Threw (ThrownError (CyclicDependencyError (default [] cyclePath))))
  else Some (Returned sorted).

(** *** The ready frontier *)

(** [deps(s)] of the specification: the entry of [edges], or nothing. *)
Definition deps (dag : DAG) (id : string) : list string :=
  default [] (OMap.get id (edges dag)).

(** C7: [getReadySteps] returns exactly the steps of the nodes that are not
    completed and all of whose dependencies are completed, in the order of
    the node map and once per node. *)
Theorem getReadySteps_exact (dag : DAG) (completedSteps : gset string) :
  (∀ s, s ∈ getReadySteps dag completedSteps ↔
        ∃ id node, (id, node) ∈ nodes dag ∧ step node = s
                   ∧ (id ∉ completedSteps)
                   ∧ ∀ depId, depId ∈ deps dag id → depId ∈ completedSteps)
  ∧ getReadySteps dag completedSteps
    = map (fun entry => step entry.2)
        (filter (fun entry => (entry.1 ∉ completedSteps)
                              ∧ Forall (fun d => d ∈ completedSteps)
                                  (deps dag entry.1))
           (nodes dag)).
Proof.
  assert (Hready : ∀ entry : string * DAGNode,
             ready dag completedSteps entry ↔
             (entry.1 ∉ completedSteps)
             ∧ Forall (fun d => d ∈ completedSteps) (deps dag entry.1)).
  { intros entry. unfold ready, deps.
    rewrite andb_True, bool_decide_spec.
    rewrite forallb_True.
    split; intros [H1 H2]; split; try done.
    - eapply Forall_impl; [exact H2|]. intros d Hd. by apply bool_decide_spec in Hd.
    - eapply Forall_impl; [exact H2|]. intros d Hd. by apply bool_decide_spec. }
  split.
  - intros s. unfold getReadySteps. rewrite list_elem_of_fmap. split.
    + intros [[id node] [-> Hin]].
      apply list_elem_of_filter in Hin as [Hr Hin].
      apply Hready in Hr as [Hnot Hall].
      exists id, node. repeat split; try done.
      intros depId Hdep. by eapply Forall_forall in Hall.
    + intros (id & node & Hin & <- & Hnot & Hall).
      exists (id, node). split; [done|].
      apply list_elem_of_filter. split; [|done].
      apply Hready. split; [done|]. by apply Forall_forall.
  - unfold getReadySteps. f_equal.
    apply list_filter_iff. intros entry. apply Hready.
Qed.

(** *** Correctness of the cycle check and of the sort *)

(** *** Insertion-ordered maps with distinct keys *)

Lemma omap_elem_get {V : Type} (k : string) (v : V) (m : list (string * V)) :
  NoDup (OMap.keys m) -> (k, v) ∈ m ↔ OMap.get k m = Some v.
Proof.
  intros Hnd. split; [by apply OMap.elem_get_NoDup|apply OMap.get_Some_elem].
Qed.

Lemma omap_set_fresh {V : Type} (k : string) (v : V) (m : list (string * V)) :
  k ∉ OMap.keys m -> OMap.set k v m = m ++ [(k, v)].
Proof.
  induction m as [|[k' v'] rest IH]; simpl; intros Hk; [done|].
  apply not_elem_of_cons in Hk as [Hne Hk].
  rewrite decide_False by congruence. by rewrite IH.
Qed.

Lemma omap_alter_keys {V : Type} (f : V -> V) (k : string)
    (m : list (string * V)) :
  OMap.keys (OMap.alter f k m) = OMap.keys m.
Proof.
  induction m as [|[k' v'] rest IH]; simpl; [done|].
  destruct (decide (k' = k)); simpl; [done|]. by rewrite IH.
Qed.

Lemma omap_alter_absent {V : Type} (f : V -> V) (k : string)
    (m : list (string * V)) :
  k ∉ OMap.keys m -> OMap.alter f k m = m.
Proof.
  induction m as [|[k' v'] rest IH]; simpl; intros Hk; [done|].
  apply not_elem_of_cons in Hk as [Hne Hk].
  rewrite decide_False by congruence. by rewrite IH.
Qed.

Lemma omap_alter_app_l {V : Type} (f : V -> V) (k : string)
    (m1 m2 : list (string * V)) :
  k ∈ OMap.keys m1 -> OMap.alter f k (m1 ++ m2) = OMap.alter f k m1 ++ m2.
Proof.
  induction m1 as [|[k' v'] rest IH]; simpl; intros Hk; [inversion Hk|].
  destruct (decide (k' = k)); [done|].
  apply elem_of_cons in Hk as [Hk|Hk]; [congruence|].
  by rewrite IH.
Qed.

Lemma omap_alter_app_r {V : Type} (f : V -> V) (k : string)
    (m1 m2 : list (string * V)) :
  k ∉ OMap.keys m1 -> OMap.alter f k (m1 ++ m2) = m1 ++ OMap.alter f k m2.
Proof.
  induction m1 as [|[k' v'] rest IH]; simpl; intros Hk; [done|].
  apply not_elem_of_cons in Hk as [Hne Hk].
  rewrite decide_False by congruence. by rewrite IH.
Qed.

(** *** What [build] makes of a definition with distinct step ids *)

Definition step_ids (definition : WorkflowDefinition) : list string :=
  map step_id (wf_steps definition).

(** [(id, inDegree)] for each node, in the order of the node map. *)
Definition degrees (ns : list (string * DAGNode)) : list (string * Z) :=
  map (fun entry => (entry.1, inDegree entry.2)) ns.

Lemma add_nodes_fresh (steps : list StepDefinition)
    (ns : list (string * DAGNode)) (es : list (string * list string)) :
  NoDup (OMap.keys ns ++ map step_id steps) ->
  OMap.keys es = OMap.keys ns ->
  fold_left add_node steps (ns, es)
  = (ns ++ map (fun s => (step_id s,
                          {| step := s; inDegree := 0; outDegree := 0 |})) steps,
     es ++ map (fun s => (step_id s, deps_of s)) steps).
Proof.
  revert ns es. induction steps as [|s steps IH]; intros ns es Hnd Hkeys; simpl.
  - by rewrite !app_nil_r.
  - assert (Hfresh : step_id s ∉ OMap.keys ns).
    { apply NoDup_app in Hnd as (_ & Hdisj & _).
      intros Hin. apply (Hdisj _ Hin). left. }
    unfold add_node at 2. simpl.
    rewrite !omap_set_fresh by (by rewrite ?Hkeys).
    rewrite IH.
    + by rewrite <- !app_assoc.
    + unfold OMap.keys. rewrite map_app. simpl.
      rewrite <- app_assoc. exact Hnd.
    + unfold OMap.keys in *. rewrite !map_app. by rewrite Hkeys.
Qed.

Lemma degrees_bump_out (ns : list (string * DAGNode)) (depId : string) :
  degrees (bump_out ns depId) = degrees ns.
Proof.
  unfold bump_out.
  induction ns as [|[k v] rest IH]; simpl; [done|].
  destruct (decide (k = depId)); simpl; [done|]. by rewrite IH.
Qed.

Lemma degrees_bump_all (ds : list string) (ns : list (string * DAGNode)) :
  degrees (fold_left bump_out ds ns) = degrees ns.
Proof.
  revert ns. induction ds as [|d ds IH]; intros ns; simpl; [done|].
  by rewrite IH, degrees_bump_out.
Qed.

Lemma degrees_count (ns : list (string * DAGNode)) (s : StepDefinition) :
  degrees (count_degrees ns s)
  = OMap.alter (fun _ => Z.of_nat (length (deps_of s))) (step_id s) (degrees ns).
Proof.
  unfold count_degrees. rewrite degrees_bump_all.
  induction ns as [|[k v] rest IH]; simpl; [done|].
  destruct (decide (k = step_id s)); simpl; [done|]. by rewrite IH.
Qed.

Lemma degrees_counted (todo finished : list StepDefinition)
    (ns : list (string * DAGNode)) :
  NoDup (map step_id (finished ++ todo)) ->
  degrees ns
  = map (fun s => (step_id s, Z.of_nat (length (deps_of s)))) finished
    ++ map (fun s => (step_id s, 0)) todo ->
  degrees (fold_left count_degrees todo ns)
  = map (fun s => (step_id s, Z.of_nat (length (deps_of s)))) (finished ++ todo).
Proof.
  revert finished ns.
  induction todo as [|s todo IH]; intros finished ns Hnd Hns; simpl.
  - by rewrite app_nil_r in *.
  - replace (finished ++ s :: todo) with ((finished ++ [s]) ++ todo) in *
      by (by rewrite <- app_assoc).
    apply IH; [done|].
    rewrite degrees_count, Hns.
    rewrite omap_alter_app_r.
    + simpl. rewrite decide_True by done.
      by rewrite map_app, <- app_assoc.
    + rewrite !map_app in Hnd. simpl in Hnd.
      apply NoDup_app in Hnd as (Hnd & _ & _).
      apply NoDup_app in Hnd as (_ & Hdisj & _).
      unfold OMap.keys. rewrite map_map. simpl.
      intros Hin. apply (Hdisj _ Hin). left.
Qed.

Lemma build_edges (definition : WorkflowDefinition) :
  NoDup (step_ids definition) ->
  edges (build definition)
  = map (fun s => (step_id s, deps_of s)) (wf_steps definition).
Proof.
  intros Hnd. unfold build. simpl.
  rewrite add_nodes_fresh; [done| |done].
  exact Hnd.
Qed.

Lemma build_degrees (definition : WorkflowDefinition) :
  NoDup (step_ids definition) ->
  degrees (nodes (build definition))
  = map (fun s => (step_id s, Z.of_nat (length (deps_of s))))
      (wf_steps definition).
Proof.
  intros Hnd. unfold build. simpl.
  rewrite add_nodes_fresh; [|exact Hnd|done]. simpl.
  apply (degrees_counted (wf_steps definition) []); [exact Hnd|].
  unfold degrees. by rewrite map_map.
Qed.

Lemma build_keys (definition : WorkflowDefinition) :
  NoDup (step_ids definition) ->
  OMap.keys (nodes (build definition)) = step_ids definition
  ∧ OMap.keys (edges (build definition)) = step_ids definition.
Proof.
  intros Hnd. split.
  - pose proof (build_degrees definition Hnd) as Hd.
    apply (f_equal (map fst)) in Hd. unfold degrees in Hd.
    rewrite !map_map in Hd. exact Hd.
  - rewrite build_edges by done. unfold OMap.keys.
    by rewrite map_map.
Qed.

(** *** One pass of Kahn's algorithm *)

Lemma filter_ext_elem {A : Type} (P Q : A -> Prop)
    `{!∀ x, Decision (P x), !∀ x, Decision (Q x)} (l : list A) :
  (∀ x, x ∈ l -> P x ↔ Q x) -> filter P l = filter Q l.
Proof.
  induction l as [|a l IH]; intros Hext; [done|].
  rewrite !filter_cons.
  destruct (decide (P a)) as [HP|HP], (decide (Q a)) as [HQ|HQ].
  - f_equal. apply IH. intros x Hx. apply Hext. by right.
  - exfalso. apply HQ. apply (Hext a); [left|done].
  - exfalso. apply HP. apply (Hext a); [left|done].
  - apply IH. intros x Hx. apply Hext. by right.
Qed.

Lemma init_degrees_from (ns : list (string * DAGNode))
    (deg : list (string * Z)) (queue : list string) :
  NoDup (OMap.keys deg ++ OMap.keys ns) ->
  fold_left init_step ns (deg, queue)
  = (deg ++ degrees ns,
     queue ++ map fst (filter (fun entry => inDegree entry.2 = 0) ns)).
Proof.
  revert deg queue.
  induction ns as [|[id node] ns IH]; intros deg queue Hnd; simpl.
  - by rewrite !app_nil_r.
  - assert (Hfresh : id ∉ OMap.keys deg).
    { apply NoDup_app in Hnd as (_ & Hdisj & _).
      intros Hin. apply (Hdisj _ Hin). left. }
    unfold init_step at 2. simpl.
    rewrite omap_set_fresh by done.
    rewrite IH.
    + rewrite filter_cons. simpl.
      destruct (decide (inDegree node = 0)); simpl;
        by rewrite <- !app_assoc.
    + unfold OMap.keys. rewrite map_app. simpl.
      by rewrite <- app_assoc.
Qed.

Lemma init_degrees_spec (dag : DAG) :
  NoDup (OMap.keys (nodes dag)) ->
  init_degrees dag
  = (degrees (nodes dag),
     map fst (filter (fun entry => inDegree entry.2 = 0) (nodes dag))).
Proof.
  intros Hnd. unfold init_degrees. by rewrite init_degrees_from.
Qed.

(** The in-degree of a node after the pass for [current]. *)
Definition relaxed (current : string) (ds : list string) (d : option Z)
    : option Z :=
  if decide (current ∈ ds) then (fun x => x - 1) <$> d else d.

(** The nodes the pass for [current] appends to the queue. *)
Definition pushed (current : string) (es : list (string * list string))
    (deg : list (string * Z)) : list string :=
  map fst (filter (fun entry => current ∈ entry.2
                                ∧ OMap.get entry.1 deg = Some 1) es).

Lemma relax_get (current id k : string) (ds : list string)
    (deg : list (string * Z)) (queue : list string) :
  OMap.get id (relax current (deg, queue) (k, ds)).1
  = if decide (k = id) then relaxed current ds (OMap.get k deg)
    else OMap.get id deg.
Proof.
  unfold relax, relaxed. simpl. case_bool_decide as Hin.
  - destruct (decide (current ∈ ds)) as [_|Hn]; [|done].
    destruct (OMap.get k deg) as [d|] eqn:Hk; simpl.
    + destruct (decide (k = id)) as [->|Hne].
      * by rewrite OMap.get_set_eq.
      * by rewrite OMap.get_set_ne.
    + destruct (decide (k = id)) as [->|Hne]; done.
  - destruct (decide (current ∈ ds)) as [Hy|_]; [done|].
    by destruct (decide (k = id)) as [->|].
Qed.

Lemma relax_queue (current k : string) (ds : list string)
    (deg : list (string * Z)) (queue : list string) :
  (relax current (deg, queue) (k, ds)).2
  = queue ++ (if decide (current ∈ ds ∧ OMap.get k deg = Some 1)
              then [k] else []).
Proof.
  unfold relax. simpl. case_bool_decide as Hin.
  - destruct (OMap.get k deg) as [d|] eqn:Hk; simpl.
    + destruct (decide (d - 1 = 0)).
      * rewrite decide_True; [done|]. split; [done|]. f_equal. lia.
      * rewrite decide_False; [by rewrite app_nil_r|].
        intros [_ [= ->]]. lia.
    + rewrite decide_False; [by rewrite app_nil_r|]. by intros [_ ?].
  - rewrite decide_False; [by rewrite app_nil_r|]. by intros [? _].
Qed.

Lemma relax_pass (current : string) (es : list (string * list string))
    (deg : list (string * Z)) (queue : list string) :
  NoDup (OMap.keys es) ->
  (∀ id,
     OMap.get id (fold_left (relax current) es (deg, queue)).1
     = match OMap.get id es with
       | Some ds => relaxed current ds (OMap.get id deg)
       | None => OMap.get id deg
       end)
  ∧ (fold_left (relax current) es (deg, queue)).2
    = queue ++ pushed current es deg.
Proof.
  revert deg queue.
  induction es as [|[k ds] es IH]; intros deg queue Hnd; simpl.
  - split; [done|]. by rewrite app_nil_r.
  - apply NoDup_cons in Hnd as [Hk Hnd]. simpl in Hk.
    destruct (relax current (deg, queue) (k, ds)) as [deg1 queue1] eqn:Hstep.
    pose proof (relax_get current) as Hget.
    pose proof (relax_queue current k ds deg queue) as Hq.
    rewrite Hstep in Hq. simpl in Hq.
    destruct (IH deg1 queue1 Hnd) as [IHget IHq]. split.
    + intros id. rewrite IHget.
      specialize (Hget id k ds deg queue). rewrite Hstep in Hget. simpl in Hget.
      destruct (decide (k = id)) as [->|Hne].
      * apply OMap.get_None_keys in Hk. by rewrite Hk, Hget.
      * destruct (OMap.get id es); by rewrite Hget.
    + rewrite IHq, Hq. unfold pushed. rewrite filter_cons. simpl.
      rewrite <- app_assoc. f_equal.
      assert (Hsame : filter (fun entry : string * list string =>
                                current ∈ entry.2
                                ∧ OMap.get entry.1 deg1 = Some 1) es
                      = filter (fun entry : string * list string =>
                                  current ∈ entry.2
                                  ∧ OMap.get entry.1 deg = Some 1) es).
      { apply filter_ext_elem. intros [k' ds'] Hin. simpl.
        specialize (Hget k' k ds deg queue).
        rewrite Hstep in Hget. simpl in Hget.
        rewrite decide_False in Hget; [by rewrite Hget|].
        intros ->. apply Hk. apply list_elem_of_fmap. by exists (k', ds'). }
      rewrite Hsame.
      by destruct (decide (current ∈ ds ∧ OMap.get k deg = Some 1)).
Qed.

(** *** The invariant of Kahn's loop *)

(** [edges.get(id) || []]. *)
Definition edge_deps (es : list (string * list string)) (id : string)
    : list string :=
  default [] (OMap.get id es).

(** How many of the sorted nodes are among [ds]. *)
Definition seen (ds sorted : list string) : Z :=
  Z.of_nat (length (filter (fun x => x ∈ ds) sorted)).

Lemma seen_snoc (ds sorted : list string) (current : string) :
  seen ds (sorted ++ [current])
  = seen ds sorted + (if decide (current ∈ ds) then 1 else 0).
Proof.
  unfold seen. rewrite filter_app, length_app, filter_cons, filter_nil.
  destruct (decide (current ∈ ds)); simpl; lia.
Qed.

(** When as many sorted nodes are among [ds] as [ds] is long, every member
    of [ds] is sorted. *)
Lemma seen_all (ds sorted : list string) :
  NoDup sorted ->
  Z.of_nat (length ds) - seen ds sorted = 0 ->
  ∀ d, d ∈ ds -> d ∈ sorted.
Proof.
  intros Hnd Hcount d Hd. unfold seen in Hcount.
  assert (Hin : In d (filter (fun x => x ∈ ds) sorted)).
  { apply (NoDup_length_incl (l := filter (fun x => x ∈ ds) sorted) (l' := ds)).
    - apply NoDup_ListNoDup. by apply NoDup_filter.
    - lia.
    - intros x Hx. apply list_elem_of_In in Hx.
      apply list_elem_of_filter in Hx as [Hx _]. by apply list_elem_of_In.
    - by apply list_elem_of_In. }
  apply list_elem_of_In in Hin. by apply list_elem_of_filter in Hin as [_ ?].
Qed.

(** Conversely, for [ds] without repetition. *)
Lemma all_seen (ds sorted : list string) :
  NoDup sorted -> NoDup ds ->
  (∀ d, d ∈ ds -> d ∈ sorted) ->
  Z.of_nat (length ds) - seen ds sorted = 0.
Proof.
  intros Hs Hds Hall. unfold seen.
  assert (Hperm : filter (fun x => x ∈ ds) sorted ≡ₚ ds).
  { apply NoDup_Permutation; [by apply NoDup_filter|done|].
    intros x. rewrite list_elem_of_filter. split; [by intros [? _]|].
    intros Hx. split; [done|by apply Hall]. }
  rewrite Hperm. lia.
Qed.

Lemma NoDup_keys_filter {V : Type} (P : string * V -> Prop)
    `{!∀ x, Decision (P x)} (m : list (string * V)) :
  NoDup (OMap.keys m) -> NoDup (map fst (filter P m)).
Proof.
  induction m as [|[k v] m IH]; intros Hnd; simpl; [constructor|].
  apply NoDup_cons in Hnd as [Hk Hnd]. rewrite filter_cons.
  destruct (decide (P (k, v))); [|by apply IH].
  simpl. apply NoDup_cons. split; [|by apply IH].
  intros Hin. apply Hk. apply list_elem_of_fmap in Hin as [[k' v'] [-> Hin]].
  apply list_elem_of_filter in Hin as [_ Hin].
  apply list_elem_of_fmap. by exists (k', v').
Qed.

Section kahn.
Variable es : list (string * list string).
Hypothesis es_keys : NoDup (OMap.keys es).

Record kahn_inv (deg : list (string * Z)) (queue sorted : list string)
    : Prop := mkKahnInv {
  inv_nodup : NoDup (sorted ++ queue);
  inv_keys : ∀ x, x ∈ sorted ++ queue -> x ∈ OMap.keys es;
  inv_deg : ∀ id ds,
    OMap.get id es = Some ds ->
    OMap.get id deg = Some (Z.of_nat (length ds) - seen ds sorted);
  inv_zero : ∀ id,
    id ∈ OMap.keys es -> OMap.get id deg = Some 0 -> id ∈ sorted ++ queue;
  inv_nonpos : ∀ id d,
    id ∈ sorted ++ queue -> OMap.get id deg = Some d -> d ≤ 0;
  inv_order : ∀ l1 x l2,
    sorted = l1 ++ x :: l2 -> ∀ d, d ∈ edge_deps es x -> d ∈ l1;
  inv_queue : ∀ x d, x ∈ queue -> d ∈ edge_deps es x -> d ∈ sorted;
}.

Lemma pushed_spec (current id : string) (deg : list (string * Z)) :
  id ∈ pushed current es deg ↔
  ∃ ds, OMap.get id es = Some ds ∧ current ∈ ds
        ∧ OMap.get id deg = Some 1.
Proof.
  unfold pushed. rewrite list_elem_of_fmap. split.
  - intros [[k ds] [-> Hin]]. apply list_elem_of_filter in Hin as [[Hc Hd] Hin].
    exists ds. split; [by apply OMap.elem_get_NoDup|done].
  - intros (ds & Hget & Hc & Hd). exists (id, ds). split; [done|].
    apply list_elem_of_filter. split; [done|]. by apply OMap.get_Some_elem.
Qed.

Lemma kahn_step (deg : list (string * Z)) (current : string)
    (rest sorted : list string) :
  kahn_inv deg (current :: rest) sorted ->
  kahn_inv (fold_left (relax current) es (deg, rest)).1
    (fold_left (relax current) es (deg, rest)).2 (sorted ++ [current]).
Proof.
  intros [Hnd Hkeys Hdeg Hzero Hnonpos Horder Hqueue].
  destruct (relax_pass current es deg rest es_keys) as [Hget ->].
  assert (Hnd' : NoDup (sorted ++ [current])).
  { apply NoDup_app in Hnd as (Hs & Hdisj & Hq).
    apply NoDup_app. split; [done|]. split.
    - intros x Hx Hx'. apply list_elem_of_singleton in Hx' as ->.
      apply (Hdisj _ Hx). left.
    - apply NoDup_singleton. }
  assert (Hfresh : ∀ id, id ∈ pushed current es deg ->
                         id ∉ sorted ++ current :: rest).
  { intros id Hp Hin. apply pushed_spec in Hp as (ds & _ & _ & Hd).
    specialize (Hnonpos id 1 Hin Hd). lia. }
  constructor.
  - rewrite <- app_assoc. simpl.
    replace (sorted ++ current :: rest ++ pushed current es deg)
      with ((sorted ++ current :: rest) ++ pushed current es deg)
      by (by rewrite <- app_assoc).
    apply NoDup_app. split; [done|]. split.
    + intros x Hx Hp. by apply (Hfresh x).
    + unfold pushed. by apply NoDup_keys_filter.
  - intros x Hx. rewrite <- app_assoc in Hx. simpl in Hx.
    rewrite !elem_of_app, elem_of_cons, elem_of_app in Hx.
    destruct Hx as [Hx|[->|[Hx|Hx]]].
    + apply Hkeys. apply elem_of_app. by left.
    + apply Hkeys. apply elem_of_app. right. left.
    + apply Hkeys. apply elem_of_app. right. by right.
    + apply pushed_spec in Hx as (ds & Hx & _).
      apply OMap.get_is_Some_keys. by eexists.
  - intros id ds Hid. rewrite Hget, Hid, (Hdeg id ds Hid), seen_snoc.
    unfold relaxed. destruct (decide (current ∈ ds)); simpl; f_equal; lia.
  - intros id Hid Hz. rewrite Hget in Hz.
    apply OMap.get_is_Some_keys in Hid as [ds Hds]. rewrite Hds in Hz.
    unfold relaxed in Hz. rewrite <- app_assoc. simpl.
    destruct (decide (current ∈ ds)).
    + destruct (OMap.get id deg) as [d|] eqn:Hd; [|done].
      injection Hz as Hz.
      rewrite !elem_of_app, elem_of_cons, elem_of_app. right. right. right.
      apply pushed_spec. exists ds. split; [done|]. split; [done|].
      rewrite Hd. f_equal. lia.
    + assert (Hin : id ∈ sorted ++ current :: rest).
      { apply Hzero; [|done]. apply OMap.get_is_Some_keys. by eexists. }
      rewrite elem_of_app, elem_of_cons in Hin.
      rewrite !elem_of_app, elem_of_cons, elem_of_app. tauto.
  - intros id d' Hin Hd'. rewrite Hget in Hd'.
    rewrite <- app_assoc in Hin. simpl in Hin.
    replace (sorted ++ current :: rest ++ pushed current es deg)
      with ((sorted ++ current :: rest) ++ pushed current es deg) in Hin
      by (by rewrite <- app_assoc).
    apply elem_of_app in Hin as [Hin|Hp].
    + destruct (OMap.get id es) as [ds|].
      * unfold relaxed in Hd'.
        destruct (OMap.get id deg) as [d|] eqn:Hd.
        -- specialize (Hnonpos id d Hin Hd).
           destruct (decide (current ∈ ds)); simpl in Hd';
             injection Hd' as <-; lia.
        -- by destruct (decide (current ∈ ds)).
      * by apply (Hnonpos id d' Hin).
    + apply pushed_spec in Hp as (ds & Hds & Hc & Hd).
      rewrite Hds in Hd'. unfold relaxed in Hd'.
      rewrite decide_True, Hd in Hd' by done. simpl in Hd'.
      injection Hd' as <-. lia.
  - intros l1 x l2 Hsplit d Hd.
    destruct l2 as [|y l2 _] using rev_ind.
    + apply app_inj_tail in Hsplit as [<- <-].
      apply (Hqueue current d); [left|done].
    + rewrite app_comm_cons, app_assoc in Hsplit.
      apply app_inj_tail in Hsplit as [-> _].
      by apply (Horder l1 x l2).
  - intros x d Hx Hd. apply elem_of_app in Hx as [Hx|Hp].
    + apply elem_of_app. left. apply (Hqueue x d); [by right|done].
    + apply pushed_spec in Hp as (ds & Hds & Hc & Hdeg1).
      unfold edge_deps in Hd. rewrite Hds in Hd. simpl in Hd.
      apply (seen_all ds); [done| |done].
      rewrite seen_snoc, decide_True by done.
      pose proof (Hdeg x ds Hds) as Hx. rewrite Hdeg1 in Hx.
      injection Hx as Hx. lia.
Qed.

Lemma kahn_loop_inv (fuel : nat) (deg : list (string * Z))
    (queue sorted : list string) :
  kahn_inv deg queue sorted ->
  (length (OMap.keys es) ≤ fuel + length sorted)%nat ->
  ∃ final deg',
    kahn_loop fuel es deg queue sorted = Some final
    ∧ kahn_inv deg' [] final.
Proof.
  revert deg queue sorted.
  induction fuel as [|fuel IH]; intros deg queue sorted Hinv Hfuel;
    destruct queue as [|current rest]; simpl.
  - exists sorted, deg. done.
  - exfalso. destruct Hinv as [Hnd Hkeys _ _ _ _ _].
    assert (Hlen : (length (sorted ++ current :: rest)
                    ≤ length (OMap.keys es))%nat).
    { apply submseteq_length. by apply NoDup_submseteq. }
    rewrite length_app in Hlen. simpl in *. lia.
  - exists sorted, deg. done.
  - apply IH; [by apply kahn_step|].
    rewrite length_app. simpl. lia.
Qed.

End kahn.

(** *** Cycles *)

(** [x] depends on [y] according to the edge map. *)
Definition edge (es : list (string * list string)) (x y : string) : Prop :=
  y ∈ edge_deps es x.

(** A list in which every node comes after the nodes it depends on. *)
Definition dependency_ordered (es : list (string * list string))
    (order : list string) : Prop :=
  ∀ l1 x l2, order = l1 ++ x :: l2 -> ∀ d, d ∈ edge_deps es x -> d ∈ l1.

Lemma ordered_prefix_closed es l1 x l2 y z :
  dependency_ordered es (l1 ++ x :: l2) ->
  y ∈ l1 -> rtc (edge es) y z -> z ∈ l1.
Proof.
  intros Hord Hy Hyz. induction Hyz as [y|y w z Hstep _ IH]; [done|].
  apply IH. apply list_elem_of_split in Hy as (a & b & ->).
  apply elem_of_app. left.
  apply (Hord a y (b ++ x :: l2)); [|exact Hstep].
  by rewrite <- app_assoc.
Qed.

(** No node of a dependency-ordered list without repetition is on a cycle. *)
Lemma ordered_acyclic es order x :
  dependency_ordered es order -> NoDup order ->
  x ∈ order -> ¬ tc (edge es) x x.
Proof.
  intros Hord Hnd Hx Hcycle.
  apply list_elem_of_split in Hx as (l1 & l2 & ->).
  assert (Hin : x ∈ l1).
  { inversion Hcycle as [? ? Hstep|? y ? Hstep Hrest]; subst.
    - by apply (Hord l1 x l2).
    - apply (ordered_prefix_closed es l1 x l2 y x Hord).
      + by apply (Hord l1 x l2).
      + by apply tc_rtc. }
  apply NoDup_app in Hnd as (_ & Hdisj & _).
  apply (Hdisj x Hin). left.
Qed.

(** In a finite set in which every member has a successor in the set,
    some member is on a cycle. *)
Lemma cycle_of_descent (R : relation string) (U : list string) :
  U ≠ [] ->
  (∀ x, x ∈ U -> ∃ y, y ∈ U ∧ R x y) ->
  ∃ z, tc R z z.
Proof.
  intros Hne Hsucc.
  assert (Hpath : ∀ (k : nat) (x : string) (p : list string),
             NoDup (x :: p) ->
             (∀ y, y ∈ x :: p -> y ∈ U) ->
             (∀ y, y ∈ p -> tc R y x) ->
             (length U ≤ length p + k)%nat ->
             ∃ z, tc R z z).
  { induction k as [|k IH]; intros x p Hnd Hsub Hreach Hlen.
    - exfalso.
      assert (Hle : (length (x :: p) ≤ length U)%nat).
      { apply submseteq_length. by apply NoDup_submseteq. }
      simpl in Hle. lia.
    - destruct (Hsucc x) as (y & Hy & Hxy); [apply Hsub; left|].
      destruct (decide (y ∈ x :: p)) as [Hin|Hout].
      + exists y. apply elem_of_cons in Hin as [->|Hin].
        * by apply tc_once.
        * eapply tc_r; [by apply Hreach|exact Hxy].
      + apply (IH y (x :: p)).
        * by apply NoDup_cons.
        * intros w Hw. apply elem_of_cons in Hw as [->|Hw]; [done|by apply Hsub].
        * intros w Hw. apply elem_of_cons in Hw as [->|Hw].
          -- by apply tc_once.
          -- eapply tc_r; [by apply Hreach|exact Hxy].
        * simpl. lia. }
  destruct U as [|x U']; [done|].
  apply (Hpath (length (x :: U')) x []).
  - apply NoDup_singleton.
  - intros y Hy. apply list_elem_of_singleton in Hy as ->. left.
  - intros y Hy. inversion Hy.
  - simpl. lia.
Qed.

(** *** The path [findCycleFromNode] returns *)

Lemma truthy_Some (found : option string) (s : string) :
  truthy found = Some s -> found = Some s.
Proof.
  destruct found as [s'|]; simpl; [|done].
  destruct (decide (s' = "")); [done|]. by intros [= ->].
Qed.

Lemma walk_in_cycle (fuel : nat) (es : list (string * list string))
    (start : string) (inCycle path visited : list string) (current : string) :
  (length (filter (fun x => x ∉ visited) inCycle) < fuel)%nat ->
  start ∈ inCycle ->
  (∀ x, x ∈ path -> x ∈ inCycle) ->
  (∀ x, x ∈ visited -> x ∈ inCycle) ->
  ∃ result,
    walk fuel es start inCycle path visited current = Some result
    ∧ ∀ x, x ∈ result -> x ∈ inCycle.
Proof.
  revert path visited current.
  induction fuel as [|fuel IH]; intros path visited current Hfuel Hstart Hpath Hvis;
    [lia|].
  simpl.
  destruct (truthy (find _ (default [] (OMap.get current es))))
    as [next|] eqn:Hnext.
  - apply truthy_Some in Hnext. apply find_some in Hnext as [_ Hnext].
    apply andb_prop in Hnext as [Hin Hnew].
    apply bool_decide_eq_true in Hin. apply bool_decide_eq_true in Hnew.
    apply IH; [|done| |].
    + assert (Hshrink :
        filter (fun x => x ∉ visited ++ [next]) inCycle
        = filter (fun x => x ≠ next) (filter (fun x => x ∉ visited) inCycle)).
      { rewrite list_filter_filter. apply list_filter_iff. intros x.
        rewrite elem_of_app, list_elem_of_singleton. tauto. }
      rewrite Hshrink.
      assert (Hlt : (length (filter (fun x => x ≠ next)
                               (filter (fun x => x ∉ visited) inCycle))
                     < length (filter (fun x => x ∉ visited) inCycle))%nat).
      { apply (length_filter_lt _ _ next).
        - by apply list_elem_of_filter.
        - intros Hne. by apply Hne. }
      lia.
    + intros x Hx. apply elem_of_app in Hx as [Hx|Hx]; [by apply Hpath|].
      by apply list_elem_of_singleton in Hx as ->.
    + intros x Hx. apply elem_of_app in Hx as [Hx|Hx]; [by apply Hvis|].
      by apply list_elem_of_singleton in Hx as ->.
  - destruct (truthy (find (fun d => bool_decide (d = start)) _))
      as [closing|] eqn:Hclosing.
    + eexists. split; [reflexivity|].
      intros x Hx. apply elem_of_app in Hx as [Hx|Hx]; [by apply Hpath|].
      by apply list_elem_of_singleton in Hx as ->.
    + destruct (truthy (find (fun d => bool_decide (d ∈ visited)) _))
        as [back|] eqn:Hback.
      * eexists. split; [reflexivity|].
        intros x Hx. apply elem_of_app in Hx as [Hx|Hx]; [by apply Hpath|].
        apply list_elem_of_singleton in Hx as ->.
        apply truthy_Some in Hback. apply find_some in Hback as [_ Hback].
        apply bool_decide_eq_true in Hback. by apply Hvis.
      * eexists. split; [reflexivity|]. exact Hpath.
Qed.

Lemma findCyclePath_unsorted (dag : DAG) (sorted : list string) :
  ∃ path,
    findCyclePath dag sorted = Some path
    ∧ ∀ x, x ∈ path -> (x ∉ sorted) ∧ x ∈ OMap.keys (nodes dag).
Proof.
  unfold findCyclePath.
  destruct (unsorted_nodes dag sorted) as [|start rest] eqn:Hun.
  - exists []. split; [done|]. intros x Hx. inversion Hx.
  - unfold findCycleFromNode.
    destruct (walk_in_cycle (S (length (start :: rest))) (edges dag) start
                (start :: rest) [start] [start] start)
      as (path & Hwalk & Hpath).
    + pose proof (length_filter (fun x => x ∉ [start]) (start :: rest)). lia.
    + left.
    + intros x Hx. by apply list_elem_of_singleton in Hx as ->; left.
    + intros x Hx. by apply list_elem_of_singleton in Hx as ->; left.
    + exists path. split; [done|]. intros x Hx.
      specialize (Hpath x Hx). rewrite <- Hun in Hpath.
      unfold unsorted_nodes in Hpath.
      by apply list_elem_of_filter in Hpath.
Qed.

(** *** Kahn's algorithm on the graph [build] makes *)

(** [x] depends on [y]: a step [x] of the definition lists [y]. *)
Definition depends_on (definition : WorkflowDefinition) (x y : string)
    : Prop :=
  ∃ s, s ∈ wf_steps definition ∧ step_id s = x ∧ y ∈ deps_of s.

(** The definition contains a cycle. *)
Definition cyclic (definition : WorkflowDefinition) : Prop :=
  ∃ x, tc (depends_on definition) x x.

(** Every dependency names a step of the definition. *)
Definition dependencies_exist (definition : WorkflowDefinition) : Prop :=
  ∀ s dep, s ∈ wf_steps definition -> dep ∈ deps_of s ->
           dep ∈ step_ids definition.

(** No dependency list names a step twice. *)
Definition dependencies_distinct (definition : WorkflowDefinition) : Prop :=
  ∀ s, s ∈ wf_steps definition -> NoDup (deps_of s).

Lemma tc_impl {A : Type} (R R' : relation A) (x y : A) :
  (∀ a b, R a b -> R' a b) -> tc R x y -> tc R' x y.
Proof.
  intros Himpl Hxy. induction Hxy as [x y Hstep|x y z Hstep _ IH].
  - apply tc_once. by apply Himpl.
  - eapply tc_l; [by apply Himpl|exact IH].
Qed.

Section built.
Variable definition : WorkflowDefinition.
Hypothesis unique_ids : NoDup (step_ids definition).

Lemma build_nodes_keys :
  OMap.keys (nodes (build definition)) = step_ids definition.
Proof. by destruct (build_keys definition unique_ids) as [-> _]. Qed.

Lemma build_edges_keys :
  OMap.keys (edges (build definition)) = step_ids definition.
Proof. by destruct (build_keys definition unique_ids) as [_ ->]. Qed.

Lemma build_nodes_length :
  length (nodes (build definition)) = length (step_ids definition).
Proof.
  rewrite <- build_nodes_keys. unfold OMap.keys. by rewrite length_map.
Qed.

Lemma build_get_edges (s : StepDefinition) :
  s ∈ wf_steps definition ->
  OMap.get (step_id s) (edges (build definition)) = Some (deps_of s).
Proof.
  intros Hs. apply OMap.elem_get_NoDup.
  - by rewrite build_edges_keys.
  - rewrite build_edges by done. apply list_elem_of_fmap. by exists s.
Qed.

Lemma build_edges_get (id : string) (ds : list string) :
  OMap.get id (edges (build definition)) = Some ds ->
  ∃ s, s ∈ wf_steps definition ∧ step_id s = id ∧ deps_of s = ds.
Proof.
  intros Hget. apply OMap.get_Some_elem in Hget.
  rewrite build_edges in Hget by done.
  apply list_elem_of_fmap in Hget as (s & [= -> ->] & Hs). by exists s.
Qed.

Lemma build_get_degree (s : StepDefinition) :
  s ∈ wf_steps definition ->
  OMap.get (step_id s) (degrees (nodes (build definition)))
  = Some (Z.of_nat (length (deps_of s))).
Proof.
  intros Hs. apply OMap.elem_get_NoDup.
  - rewrite build_degrees by done. unfold OMap.keys. rewrite map_map. simpl.
    exact unique_ids.
  - rewrite build_degrees by done. apply list_elem_of_fmap. by exists s.
Qed.

Lemma build_edge_deps (s : StepDefinition) :
  s ∈ wf_steps definition ->
  edge_deps (edges (build definition)) (step_id s) = deps_of s.
Proof. intros Hs. unfold edge_deps. by rewrite build_get_edges. Qed.

Lemma edge_depends_on (x y : string) :
  edge (edges (build definition)) x y ↔ depends_on definition x y.
Proof.
  unfold edge, depends_on, edge_deps. split.
  - destruct (OMap.get x (edges (build definition))) as [ds|] eqn:Hget;
      simpl; [|by intros Hy; inversion Hy].
    intros Hy. apply build_edges_get in Hget as (s & Hs & <- & <-).
    by exists s.
  - intros (s & Hs & <- & Hy). by rewrite build_get_edges.
Qed.

(** Membership of the initial queue. *)
Lemma initial_queue (id : string) :
  id ∈ map fst (filter (fun entry : string * DAGNode => inDegree entry.2 = 0)
                  (nodes (build definition)))
  ↔ OMap.get id (degrees (nodes (build definition))) = Some 0.
Proof.
  assert (Hnd : NoDup (OMap.keys (degrees (nodes (build definition))))).
  { rewrite build_degrees by done. unfold OMap.keys. rewrite map_map. simpl.
    exact unique_ids. }
  rewrite <- (omap_elem_get id 0 _ Hnd). unfold degrees.
  rewrite !list_elem_of_fmap. split.
  - intros ([k node] & -> & Hin). apply list_elem_of_filter in Hin as [Hz Hin].
    exists (k, node). simpl in *. by rewrite Hz.
  - intros ([k node] & [= -> Hz] & Hin). exists (k, node). split; [done|].
    apply list_elem_of_filter. by split.
Qed.

Lemma kahn_inv_init :
  kahn_inv (edges (build definition))
    (init_degrees (build definition)).1 (init_degrees (build definition)).2 [].
Proof.
  rewrite init_degrees_spec by (by rewrite build_nodes_keys). cbn [fst snd].
  assert (Hzero : ∀ id ds,
             id ∈ map fst (filter (fun entry : string * DAGNode =>
                                     inDegree entry.2 = 0)
                             (nodes (build definition))) ->
             OMap.get id (edges (build definition)) = Some ds -> ds = []).
  { intros id ds Hid Hget. apply initial_queue in Hid.
    apply build_edges_get in Hget as (s & Hs & <- & <-).
    rewrite build_get_degree in Hid by done.
    destruct (deps_of s); [done|]. by simplify_eq/=. }
  split.
  - rewrite app_nil_l. apply NoDup_keys_filter. by rewrite build_nodes_keys.
  - intros x Hx. rewrite app_nil_l in Hx.
    rewrite build_edges_keys, <- build_nodes_keys.
    apply list_elem_of_fmap in Hx as (entry & -> & Hin).
    apply list_elem_of_filter in Hin as [_ Hin].
    apply list_elem_of_fmap. by exists entry.
  - intros id ds Hget.
    apply build_edges_get in Hget as (s & Hs & <- & <-).
    rewrite build_get_degree by done. f_equal. unfold seen. simpl. lia.
  - intros id _ Hget. rewrite app_nil_l. by apply initial_queue.
  - intros id d Hid Hget. rewrite app_nil_l in Hid.
    apply initial_queue in Hid. simplify_eq. lia.
  - intros l1 x l2 Hnil. by destruct l1.
  - intros x d Hx Hd. exfalso. unfold edge_deps in Hd.
    destruct (OMap.get x (edges (build definition))) as [ds|] eqn:Hget;
      simpl in Hd; [|inversion Hd].
    rewrite (Hzero x ds Hx Hget) in Hd. inversion Hd.
Qed.

(** Kahn's algorithm returns on a built graph, with the loop invariant. *)
Lemma kahn_build :
  ∃ final deg',
    kahn (build definition) = Some final
    ∧ kahn_inv (edges (build definition)) deg' [] final.
Proof.
  unfold kahn. apply kahn_loop_inv.
  - by rewrite build_edges_keys.
  - exact kahn_inv_init.
  - rewrite build_edges_keys, build_nodes_length. simpl. lia.
Qed.

End built.

(** *** What the final state of Kahn's algorithm says about the definition *)

Section sorted.
Variable definition : WorkflowDefinition.
Hypothesis unique_ids : NoDup (step_ids definition).
Variable final : list string.
Variable degree : list (string * Z).
Hypothesis final_inv : kahn_inv (edges (build definition)) degree [] final.

Lemma final_NoDup : NoDup final.
Proof. destruct final_inv as [Hnd _ _ _ _ _ _]. by rewrite app_nil_r in Hnd. Qed.

Lemma final_ids (x : string) : x ∈ final -> x ∈ step_ids definition.
Proof.
  intros Hx. destruct final_inv as [_ Hkeys _ _ _ _ _].
  rewrite <- (build_edges_keys definition unique_ids). apply Hkeys.
  by rewrite app_nil_r.
Qed.

Lemma final_ordered : dependency_ordered (edges (build definition)) final.
Proof. destruct final_inv as [_ _ _ _ _ Horder _]. exact Horder. Qed.

Lemma final_length : (length final ≤ length (step_ids definition))%nat.
Proof.
  apply submseteq_length, NoDup_submseteq; [exact final_NoDup|].
  intros x. apply final_ids.
Qed.

(** A step that was not sorted depends on a step that was not sorted. *)
Lemma unsorted_dependency (x : string) :
  dependencies_exist definition -> dependencies_distinct definition ->
  x ∈ step_ids definition -> x ∉ final ->
  ∃ y, y ∈ filter (fun id => id ∉ final) (step_ids definition)
       ∧ depends_on definition x y.
Proof.
  intros Hexist Hdistinct Hx Hout.
  apply list_elem_of_fmap in Hx as (s & -> & Hs).
  destruct final_inv as [_ _ Hdeg Hzero _ _ _].
  destruct (decide (Forall (fun d => d ∈ final) (deps_of s))) as [Hall|Hsome].
  - exfalso. apply Hout.
    rewrite <- (app_nil_r final). apply Hzero.
    + rewrite build_edges_keys by done. apply list_elem_of_fmap. by exists s.
    + rewrite (Hdeg (step_id s) (deps_of s)) by (by apply build_get_edges).
      f_equal. apply all_seen; [exact final_NoDup|by apply Hdistinct|].
      by apply Forall_forall.
  - apply not_Forall_Exists in Hsome; [|apply _].
    apply Exists_exists in Hsome as (y & Hy & Hnot). simpl in Hnot.
    exists y. split.
    + apply list_elem_of_filter. split; [done|]. by apply (Hexist s).
    + by exists s.
Qed.

(** Without a cycle every step is sorted. *)
Lemma acyclic_complete :
  dependencies_exist definition -> dependencies_distinct definition ->
  ¬ cyclic definition ->
  final ≡ₚ step_ids definition.
Proof.
  intros Hexist Hdistinct Hacyclic.
  apply NoDup_Permutation; [exact final_NoDup|exact unique_ids|].
  intros x. split; [apply final_ids|]. intros Hx.
  destruct (decide (x ∈ final)) as [|Hout]; [done|]. exfalso.
  apply Hacyclic.
  apply (cycle_of_descent (depends_on definition)
           (filter (fun id => id ∉ final) (step_ids definition))).
  - intros Hnil.
    assert (Hin : x ∈ filter (fun id => id ∉ final) (step_ids definition))
      by (by apply list_elem_of_filter).
    rewrite Hnil in Hin. inversion Hin.
  - intros y Hy. apply list_elem_of_filter in Hy as [Hy1 Hy2].
    by apply unsorted_dependency.
Qed.

(** A step on a cycle is never sorted. *)
Lemma cycle_unsorted (x : string) :
  tc (depends_on definition) x x ->
  x ∈ step_ids definition ∧ (x ∉ final).
Proof.
  intros Hcycle. split.
  - assert (Hstep : ∃ y, depends_on definition x y).
    { inversion Hcycle; subst; eauto. }
    destruct Hstep as (y & s & Hs & <- & _).
    apply list_elem_of_fmap. by exists s.
  - intros Hx.
    apply (ordered_acyclic (edges (build definition)) final x);
      [exact final_ordered|exact final_NoDup|done|].
    eapply tc_impl; [|exact Hcycle].
    intros a b. by apply edge_depends_on.
Qed.

Lemma unsorted_shorter (x : string) :
  x ∈ step_ids definition -> x ∉ final ->
  length final ≠ length (nodes (build definition)).
Proof.
  intros Hx Hout. rewrite build_nodes_length by done.
  assert (Hle : (length final
                 ≤ length (filter (fun id => id ≠ x) (step_ids definition)))%nat).
  { apply submseteq_length, NoDup_submseteq; [exact final_NoDup|].
    intros y Hy. apply list_elem_of_filter. split; [|by apply final_ids].
    by intros ->. }
  assert (Hlt : (length (filter (fun id => id ≠ x) (step_ids definition))
                 < length (step_ids definition))%nat).
  { apply (length_filter_lt _ _ x); [done|]. intros Hne. by apply Hne. }
  lia.
Qed.

End sorted.

(** *** The checks of [validate] that come before cycle detection *)

Lemma flat_map_nil {A B : Type} (f : A -> list B) (l : list A) :
  (∀ x, x ∈ l -> f x = []) -> flat_map f l = [].
Proof.
  induction l as [|x l IH]; intros Hall; simpl; [done|].
  rewrite Hall by left. simpl. apply IH. intros y Hy. apply Hall. by right.
Qed.

Lemma no_missing_dependencies (definition : WorkflowDefinition) :
  NoDup (step_ids definition) ->
  dependencies_exist definition ->
  missing_dependencies (build definition) = [].
Proof.
  intros Hnd Hexist. unfold missing_dependencies.
  apply flat_map_nil. intros [id ds] Hentry. cbn [snd].
  apply flat_map_nil. intros depId Hdep.
  rewrite build_edges in Hentry by done.
  apply list_elem_of_fmap in Hentry as (s & [= -> ->] & Hs).
  unfold OMap.has. rewrite bool_decide_eq_true_2; [done|].
  apply OMap.get_is_Some_keys. rewrite build_nodes_keys by done.
  by apply (Hexist s).
Qed.

Lemma walk_nonempty (fuel : nat) (es : list (string * list string))
    (start : string) (inCycle path visited : list string) (current : string)
    (result : list string) :
  walk fuel es start inCycle path visited current = Some result ->
  path ≠ [] -> result ≠ [].
Proof.
  revert path visited current.
  induction fuel as [|fuel IH]; intros path visited current; simpl; [done|].
  destruct (truthy (find _ (default [] (OMap.get current es)))) as [next|].
  - intros Hwalk Hpath. apply IH in Hwalk; [done|]. by destruct path.
  - destruct (truthy (find (fun d => bool_decide (d = start)) _)).
    + intros [= <-] Hpath. by destruct path.
    + destruct (truthy (find (fun d => bool_decide (d ∈ visited)) _)).
      * intros [= <-] Hpath. by destruct path.
      * by intros [= <-].
Qed.

Lemma findCyclePath_nonempty (dag : DAG) (sorted path : list string) :
  findCyclePath dag sorted = Some path ->
  unsorted_nodes dag sorted ≠ [] -> path ≠ [].
Proof.
  unfold findCyclePath.
  destruct (unsorted_nodes dag sorted) as [|start rest]; [done|].
  intros Hwalk _. unfold findCycleFromNode in Hwalk.
  by apply walk_nonempty in Hwalk.
Qed.

(** *** Definitions to try the scheduler on *)

Definition workflow (steps : list StepDefinition) : WorkflowDefinition :=
  {| wf_id := "wf"; wf_name := "wf"; wf_steps := steps;
     wf_globalHooks := None |}.

(** No step at all. *)
Definition empty_definition : WorkflowDefinition := workflow [].

(** One step, depending on an id that is not a step. *)
Definition dangling : WorkflowDefinition :=
  workflow [plain_step "A" (Some ["X"])].

(** Two steps depending on each other, one of them also on an id that is
    not a step. *)
Definition entangled : WorkflowDefinition :=
  workflow [plain_step "A" (Some ["B"; "X"]); plain_step "B" (Some ["A"])].

(** [A], then [B] and [C] on [A], then [D] on [B] and [C]. *)
Definition diamond : WorkflowDefinition :=
  workflow [plain_step "A" None; plain_step "B" (Some ["A"]);
            plain_step "C" (Some ["A"]); plain_step "D" (Some ["B"; "C"])].

(** [S] first, then [A], [B] and [C] in a ring, [A] also on [S]. *)
Definition ring : WorkflowDefinition :=
  workflow [plain_step "S" None; plain_step "A" (Some ["S"; "C"]);
            plain_step "B" (Some ["A"]); plain_step "C" (Some ["B"])].

Lemma cycle_two_steps {A : Type} (R : relation A) (x : A) :
  tc R x x -> ∃ y z, R x y ∧ R y z.
Proof.
  intros Hcycle. inversion Hcycle as [? ? Hstep|? y ? Hstep Hrest]; subst.
  - by exists x, x.
  - exists y. inversion Hrest; subst; eauto.
Qed.

Lemma dependencies_exist_Forall (definition : WorkflowDefinition) :
  Forall (fun s => Forall (fun dep => dep ∈ step_ids definition) (deps_of s))
    (wf_steps definition) ->
  dependencies_exist definition.
Proof.
  intros Hall s dep Hs Hdep.
  rewrite Forall_forall in Hall. specialize (Hall s Hs).
  rewrite Forall_forall in Hall. by apply Hall.
Qed.

Lemma dependencies_distinct_Forall (definition : WorkflowDefinition) :
  Forall (fun s => NoDup (deps_of s)) (wf_steps definition) ->
  dependencies_distinct definition.
Proof. intros Hall s Hs. rewrite Forall_forall in Hall. by apply Hall. Qed.

(** When Kahn's algorithm sorts every step, the definition has no cycle. *)
Lemma sorted_all_acyclic (definition : WorkflowDefinition)
    (final : list string) :
  NoDup (step_ids definition) ->
  kahn (build definition) = Some final ->
  length final = length (step_ids definition) ->
  ¬ cyclic definition.
Proof.
  intros Hnd Hkahn Hlen [x Hcycle].
  destruct (kahn_build definition Hnd) as (final' & degree & Hkahn' & Hinv).
  rewrite Hkahn in Hkahn'. injection Hkahn' as <-.
  destruct (cycle_unsorted definition Hnd final degree Hinv x Hcycle)
    as [Hx Hout].
  apply (unsorted_shorter definition Hnd final degree Hinv x Hx Hout).
  by rewrite build_nodes_length.
Qed.

(** C6, as stated, fails on three definitions. [dangling] has no cycle, yet
    [validate] reports it invalid and [topologicalSort] raises
    [CyclicDependencyError]. [empty_definition] has no cycle and [validate]
    reports it invalid. [entangled] contains a cycle, yet [validate] returns
    a report and raises nothing. *)
Lemma validate_checks_before_cycles :
  (¬ cyclic dangling
   ∧ validate (build dangling)
     = Some (Returned {| valid := false;
                         errors := Some [missing_dependency "A" "X"] |})
   ∧ topologicalSort (build dangling)
     = Some (Threw (ThrownError (CyclicDependencyError ["A"]))))
  ∧ (¬ cyclic empty_definition
     ∧ validate (build empty_definition)
       = Some (Returned {| valid := false;
                           errors := Some ["工作流定义不能为空"] |}))
  ∧ (cyclic entangled
     ∧ validate (build entangled)
       = Some (Returned {| valid := false;
                           errors := Some [missing_dependency "A" "X"] |})).
Proof.
  split; [|split].
  - split; [|split; reflexivity].
    intros [x Hcycle].
    apply cycle_two_steps in Hcycle
      as (y & z & (s & Hs & <- & Hy) & (s' & Hs' & <- & _)).
    apply list_elem_of_singleton in Hs as ->.
    apply list_elem_of_singleton in Hs' as ->.
    simpl in Hy. by apply list_elem_of_singleton in Hy.
  - split; [|reflexivity].
    intros [x Hcycle].
    apply cycle_two_steps in Hcycle as (y & z & (s & Hs & _) & _).
    inversion Hs.
  - split; [|reflexivity].
    exists "A". apply (tc_l _ "A" "B" "A"); [|apply tc_once].
    + exists (plain_step "A" (Some ["B"; "X"])).
      split; [left|]. split; [done|]. left.
    + exists (plain_step "B" (Some ["A"])).
      split; [right; left|]. split; [done|]. left.
Qed.

(** C6 (amended): for a definition whose step ids are unique, (1) when every
    dependency names a step of the definition, no dependency list repeats
    an id and there is no cycle, [topologicalSort] returns an ordering of
    exactly the step ids in which every step comes after each of its
    dependencies, and [validate] reports the definition valid as soon as it
    has a step; (2) when the definition contains a cycle, Kahn's algorithm
    stops with a partial output, [topologicalSort] raises
    [CyclicDependencyError] with a non-empty path of step ids none of which
    is in that output, and [validate] raises the same error when every
    dependency names a step. *)
Theorem validate_topologicalSort_cycles (definition : WorkflowDefinition) :
  NoDup (step_ids definition) ->
  (dependencies_exist definition -> dependencies_distinct definition ->
   ¬ cyclic definition ->
   (wf_steps definition ≠ [] ->
    validate (build definition)
    = Some (Returned {| valid := true; errors := None |}))
   ∧ ∃ order,
       topologicalSort (build definition) = Some (Returned order)
       ∧ order ≡ₚ step_ids definition
       ∧ ∀ s dep, s ∈ wf_steps definition -> dep ∈ deps_of s ->
           ∃ before after, order = before ++ step_id s :: after
                           ∧ dep ∈ before)
  ∧ (cyclic definition ->
     ∃ sorted path,
       kahn (build definition) = Some sorted
       ∧ topologicalSort (build definition)
         = Some (Threw (ThrownError (CyclicDependencyError path)))
       ∧ (dependencies_exist definition ->
          validate (build definition)
          = Some (Threw (ThrownError (CyclicDependencyError path))))
       ∧ path ≠ []
       ∧ ∀ x, x ∈ path -> (x ∉ sorted) ∧ x ∈ step_ids definition).
Proof.
  intros Hnd.
  destruct (kahn_build definition Hnd) as (final & degree & Hkahn & Hinv).
  split.
  - intros Hexist Hdistinct Hacyclic.
    pose proof (acyclic_complete definition Hnd final degree Hinv
                  Hexist Hdistinct Hacyclic) as Hperm.
    assert (Hlen : length final = length (nodes (build definition))).
    { rewrite build_nodes_length by done. by rewrite Hperm. }
    split.
    + intros Hsteps. unfold validate.
      rewrite decide_False.
      2:{ rewrite build_nodes_length by done. unfold step_ids.
          rewrite length_map. by destruct (wf_steps definition). }
      rewrite no_missing_dependencies by done.
      unfold detectCycle. rewrite Hkahn. simpl.
      rewrite decide_False; [done|]. intros Hne. by apply Hne.
    + exists final. split; [|split; [done|]].
      * unfold topologicalSort. rewrite Hkahn. simpl.
        rewrite decide_False; [done|]. intros Hne. by apply Hne.
      * intros s dep Hs Hdep.
        assert (Hin : step_id s ∈ final).
        { rewrite Hperm. apply list_elem_of_fmap. by exists s. }
        apply list_elem_of_split in Hin as (before & after & Hsplit).
        exists before, after. split; [done|].
        apply (final_ordered definition final degree Hinv
                 before (step_id s) after Hsplit).
        by rewrite build_edge_deps.
  - intros [x Hcycle].
    destruct (cycle_unsorted definition Hnd final degree Hinv x Hcycle)
      as [Hx Hout].
    pose proof (unsorted_shorter definition Hnd final degree Hinv x Hx Hout)
      as Hshort.
    destruct (findCyclePath_unsorted (build definition) final)
      as (path & Hpath & Hmembers).
    assert (Hdetect : detectCycle (build definition) = Some (Some path)).
    { unfold detectCycle. rewrite Hkahn. simpl.
      rewrite decide_True by done. by rewrite Hpath. }
    exists final, path. split; [done|]. split; [|split; [|split]].
    + unfold topologicalSort. rewrite Hkahn. simpl.
      rewrite decide_True by done. by rewrite Hdetect.
    + intros Hexist. unfold validate.
      rewrite decide_False.
      2:{ rewrite build_nodes_length by done. intros Hzero.
          destruct (step_ids definition); [inversion Hx|done]. }
      rewrite no_missing_dependencies by done. by rewrite Hdetect.
    + apply (findCyclePath_nonempty (build definition) final); [done|].
      intros Hnil.
      assert (Hin : x ∈ unsorted_nodes (build definition) final).
      { unfold unsorted_nodes. apply list_elem_of_filter. split; [done|].
        by rewrite build_nodes_keys. }
      rewrite Hnil in Hin. inversion Hin.
    + intros y Hy. destruct (Hmembers y Hy) as [Hy1 Hy2]. split; [done|].
      by rewrite build_nodes_keys in Hy2.
Qed.

Lemma validate_topologicalSort_cycles_witness :
  (validate (build diamond)
   = Some (Returned {| valid := true; errors := None |})
   ∧ ∃ order,
       topologicalSort (build diamond) = Some (Returned order)
       ∧ order ≡ₚ step_ids diamond
       ∧ ∀ s dep, s ∈ wf_steps diamond -> dep ∈ deps_of s ->
           ∃ before after, order = before ++ step_id s :: after
                           ∧ dep ∈ before)
  ∧ ∃ sorted path,
      kahn (build ring) = Some sorted
      ∧ topologicalSort (build ring)
        = Some (Threw (ThrownError (CyclicDependencyError path)))
      ∧ validate (build ring)
        = Some (Threw (ThrownError (CyclicDependencyError path)))
      ∧ path ≠ []
      ∧ ∀ x, x ∈ path -> (x ∉ sorted) ∧ x ∈ step_ids ring.
Proof.
  assert (Hdiamond : NoDup (step_ids diamond))
    by (apply (bool_decide_unpack _); vm_compute; exact I).
  assert (Hring : NoDup (step_ids ring))
    by (apply (bool_decide_unpack _); vm_compute; exact I).
  split.
  - destruct (validate_topologicalSort_cycles diamond Hdiamond) as [Hsorted _].
    destruct Hsorted as [Hvalid Horder].
    + apply dependencies_exist_Forall, (bool_decide_unpack _).
      vm_compute. exact I.
    + apply dependencies_distinct_Forall, (bool_decide_unpack _).
      vm_compute. exact I.
    + apply (sorted_all_acyclic diamond ["A"; "B"; "C"; "D"] Hdiamond);
        reflexivity.
    + split; [|exact Horder]. apply Hvalid. discriminate.
  - destruct (validate_topologicalSort_cycles ring Hring) as [_ Hcyclic].
    destruct Hcyclic as (sorted & path & Hkahn & Hsort & Hvalid & Hpath & Hin).
    2:{ exists sorted, path. repeat split; try done; try apply Hin; try done.
        apply Hvalid, dependencies_exist_Forall, (bool_decide_unpack _).
        vm_compute. exact I. }
    exists "A". apply (tc_l _ "A" "C" "A"); [|apply (tc_l _ "C" "B" "A")];
      [| |apply tc_once].
    + exists (plain_step "A" (Some ["S"; "C"])).
      split; [right; left|]. split; [done|]. right; left.
    + exists (plain_step "C" (Some ["B"])).
      split; [do 3 right; left|]. split; [done|]. left.
    + exists (plain_step "B" (Some ["A"])).
      split; [do 2 right; left|]. split; [done|]. left.
Defined.

(** *** What [validate], [topologicalSort] and [getReadySteps] tell a caller *)

Lemma flat_map_nil_inv {A B : Type} (f : A -> list B) (l : list A) (x : A) :
  flat_map f l = [] -> x ∈ l -> f x = [].
Proof.
  induction l as [|y l IH]; simpl; intros Hnil Hx; [inversion Hx|].
  apply app_eq_nil in Hnil as [Hy Hl].
  apply elem_of_cons in Hx as [->|Hx]; [done|by apply IH].
Qed.

Lemma missing_dependencies_nil (definition : WorkflowDefinition) :
  NoDup (step_ids definition) ->
  missing_dependencies (build definition) = [] ->
  dependencies_exist definition.
Proof.
  intros Hnd Hnil s dep Hs Hdep.
  unfold missing_dependencies in Hnil.
  apply (flat_map_nil_inv _ _ (step_id s, deps_of s)) in Hnil.
  - cbn [snd] in Hnil.
    apply (flat_map_nil_inv _ _ dep) in Hnil; [|done].
    unfold OMap.has in Hnil. case_bool_decide as Hhas; [|done].
    apply OMap.get_is_Some_keys in Hhas.
    by rewrite build_nodes_keys in Hhas.
  - rewrite build_edges by done. apply list_elem_of_fmap. by exists s.
Qed.

Lemma returned_sorts_all (definition : WorkflowDefinition)
    (final : list string) (degree : list (string * Z)) :
  NoDup (step_ids definition) ->
  kahn_inv (edges (build definition)) degree [] final ->
  length final = length (nodes (build definition)) ->
  final ≡ₚ step_ids definition.
Proof.
  intros Hnd Hinv Hlen.
  apply submseteq_length_Permutation.
  - apply NoDup_submseteq; [by eapply final_NoDup|].
    intros x. by eapply final_ids.
  - rewrite Hlen, build_nodes_length by done. lia.
Qed.

(** X6: [validate] accepts only definitions that have a step, whose
    dependencies all name steps, and that contain no cycle. *)
Theorem validate_sound (definition : WorkflowDefinition) :
  NoDup (step_ids definition) ->
  validate (build definition)
  = Some (Returned {| valid := true; errors := None |}) ->
  wf_steps definition ≠ []
  ∧ dependencies_exist definition
  ∧ ¬ cyclic definition.
Proof.
  intros Hnd. unfold validate.
  case_decide as Hempty; [done|].
  destruct (missing_dependencies (build definition)) as [|e errs] eqn:Hmissing;
    [|done].
  destruct (kahn_build definition Hnd) as (final & degree & Hkahn & Hinv).
  unfold detectCycle. rewrite Hkahn. simpl.
  case_decide as Hlen.
  { destruct (findCyclePath_unsorted (build definition) final)
      as (path & -> & _). done. }
  intros _. split; [|split].
  - intros Hnil. apply Hempty.
    rewrite build_nodes_length by done. unfold step_ids. by rewrite Hnil.
  - by apply missing_dependencies_nil.
  - apply (sorted_all_acyclic definition final Hnd Hkahn).
    rewrite <- build_nodes_length by done. exact Hlen.
Qed.

Lemma validate_sound_witness :
  wf_steps diamond ≠ [] ∧ dependencies_exist diamond ∧ ¬ cyclic diamond.
Proof.
  apply validate_sound.
  - apply (bool_decide_unpack _). vm_compute. exact I.
  - reflexivity.
Defined.

(** X7: When [topologicalSort] returns, what it returns is an ordering of
    exactly the step ids in which every step comes after each of its
    dependencies; the dependencies then all name steps and the definition
    has no cycle. *)
Theorem topologicalSort_sound (definition : WorkflowDefinition)
    (order : list string) :
  NoDup (step_ids definition) ->
  topologicalSort (build definition) = Some (Returned order) ->
  order ≡ₚ step_ids definition
  ∧ (∀ s dep, s ∈ wf_steps definition -> dep ∈ deps_of s ->
       ∃ before after, order = before ++ step_id s :: after ∧ dep ∈ before)
  ∧ dependencies_exist definition
  ∧ ¬ cyclic definition.
Proof.
  intros Hnd.
  destruct (kahn_build definition Hnd) as (final & degree & Hkahn & Hinv).
  unfold topologicalSort. rewrite Hkahn. simpl.
  case_decide as Hlen.
  { destruct (detectCycle (build definition)); done. }
  intros [= <-].
  pose proof (returned_sorts_all definition final degree Hnd Hinv Hlen)
    as Hperm.
  assert (Hbefore : ∀ s dep, s ∈ wf_steps definition -> dep ∈ deps_of s ->
             ∃ before after,
               final = before ++ step_id s :: after ∧ dep ∈ before).
  { intros s dep Hs Hdep.
    assert (Hin : step_id s ∈ final).
    { rewrite Hperm. apply list_elem_of_fmap. by exists s. }
    apply list_elem_of_split in Hin as (before & after & Hsplit).
    exists before, after. split; [done|].
    apply (final_ordered definition final degree Hinv
             before (step_id s) after Hsplit).
    by rewrite build_edge_deps. }
  split; [done|]. split; [done|]. split.
  - intros s dep Hs Hdep.
    destruct (Hbefore s dep Hs Hdep) as (before & after & Hsplit & Hin).
    rewrite <- Hperm, Hsplit. apply elem_of_app. by left.
  - apply (sorted_all_acyclic definition final Hnd Hkahn).
    by rewrite Hperm.
Qed.

Lemma topologicalSort_sound_witness :
  ["A"; "B"; "C"; "D"] ≡ₚ step_ids diamond
  ∧ (∀ s dep, s ∈ wf_steps diamond -> dep ∈ deps_of s ->
       ∃ before after,
         ["A"; "B"; "C"; "D"] = before ++ step_id s :: after ∧ dep ∈ before)
  ∧ dependencies_exist diamond
  ∧ ¬ cyclic diamond.
Proof.
  apply topologicalSort_sound.
  - apply (bool_decide_unpack _). vm_compute. exact I.
  - reflexivity.
Defined.

(** X8: [validate] reports every dependency that names no step, and raises
    nothing then, whether or not the definition also contains a cycle. *)
Theorem validate_reports_missing (definition : WorkflowDefinition)
    (s : StepDefinition) (dep : string) :
  NoDup (step_ids definition) ->
  s ∈ wf_steps definition -> dep ∈ deps_of s ->
  dep ∉ step_ids definition ->
  ∃ errs,
    validate (build definition)
    = Some (Returned {| valid := false; errors := Some errs |})
    ∧ missing_dependency (step_id s) dep ∈ errs.
Proof.
  intros Hnd Hs Hdep Hmissing.
  assert (Hin : missing_dependency (step_id s) dep
                ∈ missing_dependencies (build definition)).
  { unfold missing_dependencies. apply list_elem_of_In, in_flat_map.
    exists (step_id s, deps_of s). split.
    - apply list_elem_of_In. rewrite build_edges by done.
      apply list_elem_of_fmap. by exists s.
    - cbn [fst snd]. apply in_flat_map. exists dep.
      split; [by apply list_elem_of_In|].
      unfold OMap.has. rewrite bool_decide_eq_false_2; [by left|].
      rewrite OMap.get_is_Some_keys, build_nodes_keys by done. done. }
  unfold validate. rewrite decide_False.
  2:{ rewrite build_nodes_length by done. unfold step_ids.
      rewrite length_map. destruct (wf_steps definition); [inversion Hs|done]. }
  destruct (missing_dependencies (build definition)) as [|e errs];
    [inversion Hin|].
  by exists (e :: errs).
Qed.

Lemma validate_reports_missing_witness :
  ∃ errs,
    validate (build entangled)
    = Some (Returned {| valid := false; errors := Some errs |})
    ∧ missing_dependency "A" "X" ∈ errs.
Proof.
  apply (validate_reports_missing entangled
           (plain_step "A" (Some ["B"; "X"])) "X").
  - apply (bool_decide_unpack _). vm_compute. exact I.
  - left.
  - right; left.
  - apply (bool_decide_unpack _). vm_compute. exact I.
Defined.
(** *** The nodes [build] makes *)

Lemma omap_get_alter {V : Type} (f : V -> V) (k id : string)
    (m : list (string * V)) :
  OMap.get id (OMap.alter f k m)
  = if decide (k = id) then f <$> OMap.get id m else OMap.get id m.
Proof.
  induction m as [|[k' v] rest IH]; simpl; [by case_decide|].
  destruct (decide (k' = k)) as [->|Hk]; simpl.
  - destruct (decide (k = id)) as [->|Hid]; simpl; [done|].
    by destruct (decide (k = id)).
  - destruct (decide (k' = id)) as [->|Hid]; simpl; [|exact IH].
    by destruct (decide (k = id)).
Qed.

Lemma omap_alter_project {V W : Type} (g : V -> W) (f : V -> V) (k : string)
    (m : list (string * V)) :
  (∀ v, g (f v) = g v) ->
  map (fun entry => (entry.1, g entry.2)) (OMap.alter f k m)
  = map (fun entry => (entry.1, g entry.2)) m.
Proof.
  intros Hsame. induction m as [|[k' v] rest IH]; simpl; [done|].
  destruct (decide (k' = k)); simpl; [by rewrite Hsame|by rewrite IH].
Qed.

(** How often [id] occurs in the dependency lists of [steps]. *)
Definition dependents (steps : list StepDefinition) (id : string) : Z :=
  Z.of_nat (length (filter (fun dep => dep = id) (concat (map deps_of steps)))).

Lemma get_bump_all (ds : list string) (ns : list (string * DAGNode))
    (id : string) :
  outDegree <$> OMap.get id (fold_left bump_out ds ns)
  = (fun out => out + Z.of_nat (length (filter (fun dep => dep = id) ds)))
    <$> (outDegree <$> OMap.get id ns).
Proof.
  revert ns. induction ds as [|d ds IH]; intros ns; simpl.
  - destruct (OMap.get id ns); simpl; [f_equal; lia|done].
  - rewrite IH. unfold bump_out at 1. rewrite omap_get_alter.
    rewrite filter_cons.
    destruct (decide (d = id)) as [->|Hne].
    + destruct (OMap.get id ns); simpl; [f_equal; lia|done].
    + done.
Qed.

Lemma get_count_out (ns : list (string * DAGNode)) (s : StepDefinition)
    (id : string) :
  outDegree <$> OMap.get id (count_degrees ns s)
  = (fun out => out
                + Z.of_nat (length (filter (fun dep => dep = id) (deps_of s))))
    <$> (outDegree <$> OMap.get id ns).
Proof.
  unfold count_degrees. rewrite get_bump_all. f_equal.
  rewrite omap_get_alter. case_decide; [|done].
  by destruct (OMap.get id ns).
Qed.

Lemma get_counted_out (steps : list StepDefinition)
    (ns : list (string * DAGNode)) (id : string) :
  outDegree <$> OMap.get id (fold_left count_degrees steps ns)
  = (fun out => out + dependents steps id) <$> (outDegree <$> OMap.get id ns).
Proof.
  unfold dependents. revert ns.
  induction steps as [|s steps IH]; intros ns; simpl.
  - destruct (OMap.get id ns); simpl; [f_equal; lia|done].
  - rewrite IH, get_count_out. rewrite filter_app, length_app.
    destruct (OMap.get id ns); simpl; [f_equal; lia|done].
Qed.

Lemma steps_counted (steps : list StepDefinition)
    (ns : list (string * DAGNode)) :
  map (fun entry => (entry.1, step entry.2)) (fold_left count_degrees steps ns)
  = map (fun entry => (entry.1, step entry.2)) ns.
Proof.
  revert ns. induction steps as [|s steps IH]; intros ns; simpl; [done|].
  rewrite IH. unfold count_degrees.
  assert (Hbump : ∀ ds ms,
             map (fun entry : string * DAGNode => (entry.1, step entry.2))
               (fold_left bump_out ds ms)
             = map (fun entry => (entry.1, step entry.2)) ms).
  { induction ds as [|d ds IHd]; intros ms; simpl; [done|].
    rewrite IHd. unfold bump_out. by apply omap_alter_project. }
  rewrite Hbump. by apply omap_alter_project.
Qed.

Lemma build_steps (definition : WorkflowDefinition) :
  NoDup (step_ids definition) ->
  map (fun entry => (entry.1, step entry.2)) (nodes (build definition))
  = map (fun s => (step_id s, s)) (wf_steps definition).
Proof.
  intros Hnd. unfold build. simpl.
  rewrite add_nodes_fresh; [|exact Hnd|done]. simpl.
  rewrite steps_counted. by rewrite map_map.
Qed.

Lemma build_node_step (definition : WorkflowDefinition) (id : string)
    (node : DAGNode) :
  NoDup (step_ids definition) ->
  (id, node) ∈ nodes (build definition) ->
  step node ∈ wf_steps definition ∧ step_id (step node) = id.
Proof.
  intros Hnd Hin.
  assert (Hstep : (id, step node)
                  ∈ map (fun entry : string * DAGNode =>
                           (entry.1, step entry.2))
                      (nodes (build definition))).
  { apply list_elem_of_fmap. by exists (id, node). }
  rewrite build_steps in Hstep by done.
  apply list_elem_of_fmap in Hstep as (s & [= -> ->] & Hs). done.
Qed.

(** X9: For a definition with distinct step ids, the node [build] stores under
    a step's id holds that step, its in-degree is the length of the step's
    dependency list, and its out-degree is the number of times the id occurs
    in the dependency lists of the definition. *)
Theorem build_counts_degrees (definition : WorkflowDefinition)
    (s : StepDefinition) :
  NoDup (step_ids definition) ->
  s ∈ wf_steps definition ->
  OMap.get (step_id s) (nodes (build definition))
  = Some {| step := s;
            inDegree := Z.of_nat (length (deps_of s));
            outDegree := dependents (wf_steps definition) (step_id s) |}.
Proof.
  intros Hnd Hs.
  assert (Hkey : is_Some (OMap.get (step_id s) (nodes (build definition)))).
  { apply OMap.get_is_Some_keys. rewrite build_nodes_keys by done.
    apply list_elem_of_fmap. by exists s. }
  destruct Hkey as [node Hnode]. rewrite Hnode. f_equal.
  pose proof (OMap.get_Some_elem _ _ _ Hnode) as Hin.
  destruct (build_node_step definition _ _ Hnd Hin) as [Hstep Hid].
  assert (Hsame : step node = s).
  { apply NoDup_ListNoDup in Hnd.
    destruct (list_elem_of_split _ _ Hs) as (l1 & l2 & Hsplit).
    clear Hnode Hin.
    unfold step_ids in Hnd. rewrite Hsplit in Hnd, Hstep.
    rewrite map_app in Hnd. simpl in Hnd.
    apply NoDup_ListNoDup in Hnd.
    apply NoDup_app in Hnd as (_ & Hdisj & Hnd2).
    apply NoDup_cons in Hnd2 as [Hnot _].
    apply elem_of_app in Hstep as [Hl1|Hl2].
    - exfalso. apply (Hdisj (step_id s)).
      + rewrite <- Hid. apply list_elem_of_fmap. by exists (step node).
      + left.
    - apply elem_of_cons in Hl2 as [Heq|Hl2]; [done|].
      exfalso. apply Hnot. rewrite <- Hid.
      apply list_elem_of_fmap. by exists (step node). }
  assert (Hin_degree : inDegree node = Z.of_nat (length (deps_of s))).
  { pose proof (build_get_degree definition Hnd s Hs) as Hdegree.
    apply OMap.get_Some_elem in Hdegree. unfold degrees in Hdegree.
    apply list_elem_of_fmap in Hdegree as ([k node'] & [= Hk Hd] & Hin').
    simpl in Hk, Hd. subst k.
    assert (Hget' : OMap.get (step_id s) (nodes (build definition))
                    = Some node').
    { apply OMap.elem_get_NoDup; [by rewrite build_nodes_keys|done]. }
    rewrite Hnode in Hget'. injection Hget' as <-. done. }
  assert (Hout : outDegree node = dependents (wf_steps definition) (step_id s)).
  { pose proof (get_counted_out (wf_steps definition)
                  (fold_left add_node (wf_steps definition) ([], [])).1
                  (step_id s)) as Hcount.
    change (fold_left count_degrees (wf_steps definition)
              (fold_left add_node (wf_steps definition) ([], [])).1)
      with (nodes (build definition)) in Hcount.
    rewrite Hnode in Hcount.
    rewrite add_nodes_fresh in Hcount; [|exact Hnd|done]. simpl in Hcount.
    rewrite (OMap.elem_get_NoDup (step_id s)
               {| step := s; inDegree := 0; outDegree := 0 |}) in Hcount.
    - simpl in Hcount. injection Hcount as ->. lia.
    - unfold OMap.keys. rewrite map_map. exact Hnd.
    - apply list_elem_of_fmap. by exists s. }
  destruct node as [st ind outd]. simpl in *. by subst.
Qed.

Lemma build_counts_degrees_witness :
  OMap.get "A" (nodes (build diamond))
  = Some {| step := plain_step "A" None; inDegree := 0; outDegree := 2 |}.
Proof.
  apply (build_counts_degrees diamond (plain_step "A" None)).
  - apply (bool_decide_unpack _). vm_compute. exact I.
  - left.
Defined.
(** *** The scheduler never stalls *)

Lemma not_ready_dependency (dag : DAG) (completedSteps : gset string)
    (entry : string * DAGNode) :
  ready dag completedSteps entry = false ->
  entry.1 ∉ completedSteps ->
  ∃ dep, dep ∈ edge_deps (edges dag) entry.1 ∧ dep ∉ completedSteps.
Proof.
  unfold ready, edge_deps. intros Hready Hnot.
  rewrite bool_decide_eq_true_2 in Hready by done. simpl in Hready.
  induction (default [] (OMap.get entry.1 (edges dag))) as [|d ds IH];
    simpl in Hready; [done|].
  apply andb_false_iff in Hready as [Hd|Hds].
  - exists d. split; [left|]. by apply bool_decide_eq_false in Hd.
  - destruct (IH Hds) as (dep & Hdep & Hout). exists dep. split; [by right|done].
Qed.

(** X10: As long as some step is not completed, [getReadySteps] offers at least
    one step to run, provided the step ids are distinct, every dependency
    names a step and there is no cycle; the step it offers is a step of the
    definition that is not completed. *)
Theorem getReadySteps_progress (definition : WorkflowDefinition)
    (completedSteps : gset string) (pending : StepDefinition) :
  NoDup (step_ids definition) ->
  dependencies_exist definition ->
  ¬ cyclic definition ->
  pending ∈ wf_steps definition ->
  step_id pending ∉ completedSteps ->
  ∃ s, s ∈ getReadySteps (build definition) completedSteps
       ∧ s ∈ wf_steps definition
       ∧ (step_id s ∉ completedSteps).
Proof.
  intros Hnd Hexist Hacyclic Hpending Hnot.
  destruct (filter (fun entry => ready (build definition) completedSteps entry)
              (nodes (build definition))) as [|[id node] more] eqn:Hready.
  - exfalso. apply Hacyclic.
    apply (cycle_of_descent (depends_on definition)
             (filter (fun id => id ∉ completedSteps) (step_ids definition))).
    + intros Hnil.
      assert (Hin : step_id pending
                    ∈ filter (fun id => id ∉ completedSteps)
                        (step_ids definition)).
      { apply list_elem_of_filter. split; [done|].
        apply list_elem_of_fmap. by exists pending. }
      rewrite Hnil in Hin. inversion Hin.
    + intros x Hx. apply list_elem_of_filter in Hx as [Hx Hid].
      apply list_elem_of_fmap in Hid as (s & -> & Hs).
      assert (Hnode : is_Some (OMap.get (step_id s) (nodes (build definition)))).
      { apply OMap.get_is_Some_keys. rewrite build_nodes_keys by done.
        apply list_elem_of_fmap. by exists s. }
      destruct Hnode as [node Hnode]. apply OMap.get_Some_elem in Hnode.
      destruct (not_ready_dependency (build definition) completedSteps
                  (step_id s, node)) as (dep & Hdep & Hout); [|done|].
      { destruct (ready (build definition) completedSteps (step_id s, node))
          eqn:Hr; [|done].
        assert (Hin : (step_id s, node)
                      ∈ filter (fun entry =>
                                  ready (build definition) completedSteps entry)
                          (nodes (build definition))).
        { apply list_elem_of_filter. split; [by rewrite Hr|done]. }
        rewrite Hready in Hin. inversion Hin. }
      cbn [fst] in Hdep. rewrite build_edge_deps in Hdep by done.
      exists dep. split.
      * apply list_elem_of_filter. split; [done|]. by apply (Hexist s).
      * by exists s.
  - assert (Hin : (id, node)
                  ∈ filter (fun entry =>
                              ready (build definition) completedSteps entry)
                      (nodes (build definition))).
    { rewrite Hready. left. }
    apply list_elem_of_filter in Hin as [Hr Hin].
    destruct (build_node_step definition id node Hnd Hin) as [Hstep Hid].
    exists (step node). split; [|split; [done|]].
    + unfold getReadySteps. rewrite Hready. left.
    + rewrite Hid. unfold ready in Hr. simpl in Hr.
      apply andb_prop_elim in Hr as [Hr _]. by apply bool_decide_unpack in Hr.
Qed.

Lemma getReadySteps_progress_witness :
  ∃ s, s ∈ getReadySteps (build diamond) {["A"]}
       ∧ s ∈ wf_steps diamond
       ∧ (step_id s ∉ ({["A"]} : gset string)).
Proof.
  apply (getReadySteps_progress diamond {["A"]}
           (plain_step "D" (Some ["B"; "C"]))).
  - apply (bool_decide_unpack _). vm_compute. exact I.
  - apply dependencies_exist_Forall, (bool_decide_unpack _).
    vm_compute. exact I.
  - apply (sorted_all_acyclic diamond ["A"; "B"; "C"; "D"]);
      [apply (bool_decide_unpack _); vm_compute; exact I|reflexivity..].
  - do 3 right. left.
  - apply (bool_decide_unpack _). vm_compute. exact I.
Defined.
(** *** Ready steps stay ready *)

(** X11: A step that [getReadySteps] offers is offered again after other steps
    have completed, as long as it has not completed itself: the steps
    offered together can be run in any order. *)
Theorem ready_steps_stay_ready (dag : DAG) (completedSteps later : gset string)
    (id : string) (node : DAGNode) :
  (id, node) ∈ nodes dag ->
  ready dag completedSteps (id, node) = true ->
  completedSteps ⊆ later ->
  id ∉ later ->
  step node ∈ getReadySteps dag later.
Proof.
  intros Hnode Hready Hgrown Hpending.
  unfold getReadySteps. apply list_elem_of_fmap. exists (id, node).
  split; [done|]. apply list_elem_of_filter. split; [|done].
  unfold ready in *. cbn [fst] in *.
  apply andb_prop in Hready as [_ Hdeps].
  apply Is_true_true, andb_true_intro. split.
  - by apply bool_decide_eq_true.
  - rewrite forallb_forall in Hdeps |- *.
    intros dep Hdep. specialize (Hdeps dep Hdep).
    apply bool_decide_eq_true in Hdeps. apply bool_decide_eq_true.
    by apply Hgrown.
Qed.

Lemma ready_steps_stay_ready_witness :
  step {| step := plain_step "C" (Some ["A"]); inDegree := 1; outDegree := 1 |}
  ∈ getReadySteps (build diamond) {["A"; "B"]}.
Proof.
  apply (ready_steps_stay_ready (build diamond) {["A"]} {["A"; "B"]} "C").
  - apply OMap.get_Some_elem. reflexivity.
  - reflexivity.
  - apply (bool_decide_unpack _). vm_compute. exact I.
  - apply (bool_decide_unpack _). vm_compute. exact I.
Defined.

End Scheduler.

(** ** The executor's world

    [executeStep] runs user callbacks and awaits timers. The world is what
    those can change, together with a log of what the executor did: the
    events it handed to the bus, the callbacks it called, the sleeps it
    awaited and its own writes to the context. The log is only written, never
    read, by the code below. An event is logged when it is handed to
    [EventEmitter.emit]; the bus of module [Events] then calls its
    subscribers, and an exception of one of them comes out of [emit]. *)

Module World.
Import Core Events.

Inductive Action : Type :=
  | AEmit (ev : WorkflowEvent)
  | ABody (input : Value)
  | ASleep (ms : Z) (meanwhile : list ExecutorCall)
  | ABeforeHook (hookId : string)
  | AAfterHook (hookId : string)
  | ASetStepOutput (sid : string) (v : Value).

Record World : Type := mkWorld {
  cancelledSteps : gset string;
  store : Store;
  trace : list Action;
  clock : Z;
}.

Definition log (a : Action) (w : World) : World :=
  {| cancelledSteps := cancelledSteps w; store := store w;
     trace := trace w ++ [a]; clock := clock w |}.

(** [Executor.cancelStep] and [Executor.clearCancellation]. *)
Definition cancelStep (sid : string) (cancelled : gset string) : gset string :=
  cancelled ∪ {[sid]}.

Definition clearCancellation (sid : string) (cancelled : gset string)
    : gset string :=
  cancelled ∖ {[sid]}.

Definition apply_call (cancelled : gset string) (c : ExecutorCall)
    : gset string :=
  match c with
  | CancelStep sid => cancelStep sid cancelled
  | ClearCancellation sid => clearCancellation sid cancelled
  end.

(** The world after a callback ran. *)
Definition absorb {A : Type} (r : Ran A) (w : World) : World :=
  {| cancelledSteps := fold_left apply_call (calls r) (cancelledSteps w);
     store := store_after r; trace := trace w; clock := clock w |}.

(** [context.setStepOutput(stepId, output)] by the executor itself. *)
Definition commit_output (sid : string) (v : Value) (w : World) : World :=
  {| cancelledSteps := cancelledSteps w;
     store := {| context := setStepOutput (context (store w)) sid v;
                 vars := vars (store w) |};
     trace := trace w ++ [ASetStepOutput sid v]; clock := clock w |}.

(** What happens while the executor awaits a timer: what other tasks do
    to the heap and to the executor, and the time the host lets pass before
    it runs the timer's callback. *)
Record Meanwhile : Type := mkMeanwhile {
  m_store : Store;
  m_calls : list ExecutorCall;
  m_elapsed : Z;
}.

(** The host of a run: the tasks interleaved with a sleep, JavaScript's
    evaluation of the text of a skip condition, and its arithmetic on
    numbers. [times_pow b m e] is [b * Math.pow(m, e)]: the host computes it
    on IEEE doubles and [Math.pow] is implementation-approximated, so the
    product is taken as the host gives it. *)
Record Env : Type := mkEnv {
  during_sleep : Z -> Store -> Meanwhile;
  evaluate : string -> Context -> Outcome Value;
  times_pow : Z -> Z -> Z -> Z;
}.

(** [await new Promise(resolve => setTimeout(resolve, ms))]. The log keeps
    the delay handed to [setTimeout]; the time that really passes is the
    host's. *)
Definition sleep (env : Env) (ms : Z) (w : World) : World :=
  let m := during_sleep env ms (store w) in
  {| cancelledSteps := fold_left apply_call (m_calls m) (cancelledSteps w);
     store := m_store m;
     trace := trace w ++ [ASleep ms (m_calls m)];
     clock := clock w + Z.max 0 (m_elapsed m) |}.

(** [Boolean(v)]. *)
Definition truthy_value (v : Value) : bool :=
  match v with
  | VUndefined | VNull => false
  | VBool b => b
  | VNumber n => negb (n =? 0)
  | VString s => negb (bool_decide (s = ""))
  | VArray _ | VObject _ => true
  end.

Definition is_body (a : Action) : bool :=
  match a with ABody _ => true | _ => false end.

Definition is_after_hook (a : Action) : bool :=
  match a with AAfterHook _ => true | _ => false end.

Definition is_commit (a : Action) : bool :=
  match a with ASetStepOutput _ _ => true | _ => false end.

Definition emitted (ty : EventType) (a : Action) : bool :=
  match a with
  | AEmit ev => bool_decide (type ev = ty)
  | _ => false
  end.

(** The sleeps and body calls of a log, in order. *)
Definition is_attempt_or_sleep (a : Action) : bool :=
  match a with ABody _ | ASleep _ _ => true | _ => false end.

Definition attempts_and_sleeps (tr : list Action) : list Action :=
  filter (fun a => is_attempt_or_sleep a) tr.

End World.

(** ** Hook manager ([hooks/index.ts]) *)

Module Hooks.
Import Core World.

Record HookManager : Type := mkHookManager {
  globalBeforeHooks : list HookHandler;
  globalAfterHooks : list HookHandler;
}.

Definition has_hook (hid : string) (hs : list HookHandler) : bool :=
  existsb (fun h => bool_decide (hook_id h = hid)) hs.

Definition addGlobalBeforeHook (hm : HookManager) (h : HookHandler)
    : HookManager :=
  if has_hook (hook_id h) (globalBeforeHooks hm) then hm
  else {| globalBeforeHooks := globalBeforeHooks hm ++ [h];
          globalAfterHooks := globalAfterHooks hm |}.

Definition addGlobalAfterHook (hm : HookManager) (h : HookHandler)
    : HookManager :=
  if has_hook (hook_id h) (globalAfterHooks hm) then hm
  else {| globalBeforeHooks := globalBeforeHooks hm;
          globalAfterHooks := globalAfterHooks hm ++ [h] |}.

Definition removeGlobalHook (hm : HookManager) (hid : string) : HookManager :=
  {| globalBeforeHooks :=
       filter (fun h => hook_id h ≠ hid) (globalBeforeHooks hm);
     globalAfterHooks :=
       filter (fun h => hook_id h ≠ hid) (globalAfterHooks hm) |}.

Record HookExecutionResult : Type := mkHookResult {
  success : bool;
  modifiedInput : option Value;
  hook_error : option Error;
}.

(** [error instanceof Error ? error : new Error(String(error))]. *)
Definition as_error (t : Thrown) : Error :=
  match t with
  | ThrownError e => e
  | ThrownOther s => JsError s
  end.

(** The [for (const hook of hooksToExecute)] loop of [executeBeforeHooks];
    [current] is [_stepInput] and [modified] is [_inputModified]. *)
Fixpoint run_before (sid : string) (stepInput : Value) (hs : list HookHandler)
    (current : Value) (modified : bool) (w : World)
    : HookExecutionResult * World :=
  match hs with
  | [] =>
      ({| success := true;
          modifiedInput := Some (if modified then current else stepInput);
          hook_error := None |}, w)
  | h :: rest =>
      let view := {| hv_stepId := sid; hv_stepInput := current;
                     hv_stepOutput := VUndefined |} in
      let run := handler h view (store (log (ABeforeHook (hook_id h)) w)) in
      let w' := absorb run.2 (log (ABeforeHook (hook_id h)) w) in
      match outcome run.2 with
      | Threw t =>
          ({| success := false; modifiedInput := None;
              hook_error :=
                Some (HookExecutionError (hook_id h) "before" sid
                        (Some (as_error t))) |}, w')
      | Returned _ =>
          match run.1 with
          | Some newInput => run_before sid stepInput rest newInput true w'
          | None => run_before sid stepInput rest current modified w'
          end
      end
  end.

Definition executeBeforeHooks (hm : HookManager) (sid : string)
    (stepInput : Value) (stepHooks : option HookDefinition) (w : World)
    : HookExecutionResult * World :=
  let hooksToExecute :=
    globalBeforeHooks hm
    ++ default [] (stepHooks ≫= beforeHooks) in
  run_before sid stepInput hooksToExecute stepInput false w.

(** The loop of [executeAfterHooks]; a throwing hook is recorded and the
    loop goes on. *)
Fixpoint run_after (sid : string) (stepOutput : Value) (hs : list HookHandler)
    (current : Value) (errors : list Error) (w : World)
    : list Error * World :=
  match hs with
  | [] => (errors, w)
  | h :: rest =>
      let view := {| hv_stepId := sid; hv_stepInput := current;
                     hv_stepOutput := stepOutput |} in
      let run := handler h view (store (log (AAfterHook (hook_id h)) w)) in
      let w' := absorb run.2 (log (AAfterHook (hook_id h)) w) in
      let current' := default current run.1 in
      match outcome run.2 with
      | Threw t =>
          run_after sid stepOutput rest current'
            (errors ++ [HookExecutionError (hook_id h) "after" sid
                          (Some (as_error t))]) w'
      | Returned _ => run_after sid stepOutput rest current' errors w'
      end
  end.

Definition executeAfterHooks (hm : HookManager) (sid : string)
    (stepInput stepOutput : Value) (stepHooks : option HookDefinition)
    (w : World) : HookExecutionResult * World :=
  let hooksToExecute :=
    default [] (stepHooks ≫= afterHooks)
    ++ globalAfterHooks hm in
  let ran := run_after sid stepOutput hooksToExecute stepInput [] w in
  ({| success := true; modifiedInput := None;
      hook_error := head ran.1 |}, ran.2).

(** *** Registering global hooks *)

Lemma has_hook_elem (hid : string) (hs : list HookHandler) :
  has_hook hid hs = true ↔ hid ∈ map hook_id hs.
Proof.
  unfold has_hook. induction hs as [|h hs IH]; simpl.
  - split; [done|]. intros Hin. inversion Hin.
  - rewrite orb_true_iff, IH, bool_decide_eq_true, elem_of_cons.
    split; intros [H|H]; auto.
Qed.

Lemma has_hook_snoc (h : HookHandler) (hs : list HookHandler) :
  has_hook (hook_id h) (hs ++ [h]) = true.
Proof.
  apply has_hook_elem. rewrite map_app. apply elem_of_app. right. left.
Qed.

Lemma hooks_remove_ids (hid : string) (hs : list HookHandler) :
  map hook_id (filter (fun h => hook_id h ≠ hid) hs)
  = filter (fun i => i ≠ hid) (map hook_id hs).
Proof.
  induction hs as [|h hs IH]; [done|].
  rewrite filter_cons. simpl. rewrite filter_cons.
  destruct (decide (hook_id h ≠ hid)); simpl; by rewrite IH.
Qed.

(** X12: The ids of the global hooks of either kind stay distinct. A hook whose
    id is already registered for that kind is dropped, whatever its handler,
    and the hook registered first stays. [removeGlobalHook] takes the id out
    of both lists and leaves the other hooks in their order. *)
Theorem global_hooks_keep_distinct_ids (hm : HookManager) (h : HookHandler) :
  NoDup (map hook_id (globalBeforeHooks hm)) ->
  NoDup (map hook_id (globalAfterHooks hm)) ->
  (NoDup (map hook_id (globalBeforeHooks (addGlobalBeforeHook hm h)))
   ∧ NoDup (map hook_id (globalAfterHooks (addGlobalAfterHook hm h))))
  ∧ (∀ again, hook_id again = hook_id h ->
       addGlobalBeforeHook (addGlobalBeforeHook hm h) again
       = addGlobalBeforeHook hm h
       ∧ addGlobalAfterHook (addGlobalAfterHook hm h) again
         = addGlobalAfterHook hm h)
  ∧ ∀ hid,
      has_hook hid (globalBeforeHooks (removeGlobalHook hm hid)) = false
      ∧ has_hook hid (globalAfterHooks (removeGlobalHook hm hid)) = false
      ∧ NoDup (map hook_id (globalBeforeHooks (removeGlobalHook hm hid)))
      ∧ NoDup (map hook_id (globalAfterHooks (removeGlobalHook hm hid)))
      ∧ globalBeforeHooks (removeGlobalHook hm hid)
        = filter (fun h' => hook_id h' ≠ hid) (globalBeforeHooks hm)
      ∧ globalAfterHooks (removeGlobalHook hm hid)
        = filter (fun h' => hook_id h' ≠ hid) (globalAfterHooks hm).
Proof.
  intros Hbefore Hafter.
  assert (Hfresh : ∀ hs : list HookHandler,
             NoDup (map hook_id hs) -> has_hook (hook_id h) hs = false ->
             NoDup (map hook_id (hs ++ [h]))).
  { intros hs Hnd Hhas. rewrite map_app. apply NoDup_app. split; [done|].
    split; [|apply NoDup_singleton].
    intros x Hx Hx'. apply list_elem_of_singleton in Hx' as ->.
    apply has_hook_elem in Hx. congruence. }
  assert (Hgone : ∀ (hid : string) (hs : list HookHandler),
             has_hook hid (filter (fun h' => hook_id h' ≠ hid) hs) = false).
  { intros hid hs. apply not_true_is_false. intros Hhas.
    apply has_hook_elem in Hhas. rewrite hooks_remove_ids in Hhas.
    apply list_elem_of_filter in Hhas as [Hne _]. by apply Hne. }
  split; [split|split].
  - unfold addGlobalBeforeHook.
    destruct (has_hook (hook_id h) (globalBeforeHooks hm)) eqn:Hhas;
      [done|by apply Hfresh].
  - unfold addGlobalAfterHook.
    destruct (has_hook (hook_id h) (globalAfterHooks hm)) eqn:Hhas;
      [done|by apply Hfresh].
  - intros again Hid. split.
    + unfold addGlobalBeforeHook at 1. rewrite Hid.
      unfold addGlobalBeforeHook.
      destruct (has_hook (hook_id h) (globalBeforeHooks hm)) eqn:Hhas.
      * by rewrite Hhas.
      * simpl. by rewrite has_hook_snoc.
    + unfold addGlobalAfterHook at 1. rewrite Hid.
      unfold addGlobalAfterHook.
      destruct (has_hook (hook_id h) (globalAfterHooks hm)) eqn:Hhas.
      * by rewrite Hhas.
      * simpl. by rewrite has_hook_snoc.
  - intros hid. unfold removeGlobalHook. simpl.
    rewrite !hooks_remove_ids.
    repeat split; try apply Hgone; try (by apply NoDup_filter).
Qed.

(** A hook that only leaves its mark in the log. *)
Definition passive_hook (hid : string) : HookHandler :=
  {| hook_id := hid; hook_name := hid;
     handler := fun _ s =>
       (None, {| outcome := Returned tt; store_after := s; calls := [] |}) |}.

(** A manager with one global hook of each kind. *)
Definition traced_hooks : HookManager :=
  {| globalBeforeHooks := [passive_hook "trace"];
     globalAfterHooks := [passive_hook "trace"] |}.

Lemma global_hooks_keep_distinct_ids_witness :
  (NoDup (map hook_id (globalBeforeHooks
                         (addGlobalBeforeHook traced_hooks
                            (passive_hook "audit"))))
   ∧ NoDup (map hook_id (globalAfterHooks
                           (addGlobalAfterHook traced_hooks
                              (passive_hook "audit")))))
  ∧ (∀ again, hook_id again = hook_id (passive_hook "audit") ->
       addGlobalBeforeHook
         (addGlobalBeforeHook traced_hooks (passive_hook "audit")) again
       = addGlobalBeforeHook traced_hooks (passive_hook "audit")
       ∧ addGlobalAfterHook
           (addGlobalAfterHook traced_hooks (passive_hook "audit")) again
         = addGlobalAfterHook traced_hooks (passive_hook "audit"))
  ∧ ∀ hid,
      has_hook hid (globalBeforeHooks (removeGlobalHook traced_hooks hid))
      = false
      ∧ has_hook hid (globalAfterHooks (removeGlobalHook traced_hooks hid))
        = false
      ∧ NoDup (map hook_id
                 (globalBeforeHooks (removeGlobalHook traced_hooks hid)))
      ∧ NoDup (map hook_id
                 (globalAfterHooks (removeGlobalHook traced_hooks hid)))
      ∧ globalBeforeHooks (removeGlobalHook traced_hooks hid)
        = filter (fun h' => hook_id h' ≠ hid)
            (globalBeforeHooks traced_hooks)
      ∧ globalAfterHooks (removeGlobalHook traced_hooks hid)
        = filter (fun h' => hook_id h' ≠ hid)
            (globalAfterHooks traced_hooks).
Proof.
  apply (global_hooks_keep_distinct_ids traced_hooks (passive_hook "audit"));
    simpl; apply NoDup_singleton.
Defined.

(** *** Running the hooks of a step *)

Lemma run_before_prefix (sid : string) (stepInput : Value)
    (hs : list HookHandler) (current : Value) (modified : bool) (w : World) :
  ∃ ran rest,
    hs = ran ++ rest
    ∧ trace (run_before sid stepInput hs current modified w).2
      = trace w ++ map (fun h => ABeforeHook (hook_id h)) ran
    ∧ if success (run_before sid stepInput hs current modified w).1
      then rest = []
           ∧ hook_error (run_before sid stepInput hs current modified w).1
             = None
           ∧ is_Some
               (modifiedInput
                  (run_before sid stepInput hs current modified w).1)
      else ∃ before h cause,
             ran = before ++ [h]
             ∧ hook_error (run_before sid stepInput hs current modified w).1
               = Some (HookExecutionError (hook_id h) "before" sid
                         (Some cause))
             ∧ modifiedInput
                 (run_before sid stepInput hs current modified w).1
               = None.
Proof.
  revert current modified w.
  induction hs as [|h hs IH]; intros current modified w; simpl.
  - exists [], []. simpl. rewrite app_nil_r. repeat split; by eauto.
  - destruct (outcome _) as [[]|t] eqn:Hrun.
    + match goal with
      | |- context [run_before sid stepInput hs ?c ?m ?w'] =>
          assert (Hsame :
            ∀ c1 m1, ∃ ran rest,
              h :: hs = ran ++ rest
              ∧ trace (run_before sid stepInput hs c1 m1 w').2
                = trace w ++ map (fun h => ABeforeHook (hook_id h)) ran
              ∧ if success (run_before sid stepInput hs c1 m1 w').1
                then rest = []
                     ∧ hook_error (run_before sid stepInput hs c1 m1 w').1
                       = None
                     ∧ is_Some
                         (modifiedInput
                            (run_before sid stepInput hs c1 m1 w').1)
                else ∃ before h0 cause,
                       ran = before ++ [h0]
                       ∧ hook_error (run_before sid stepInput hs c1 m1 w').1
                         = Some (HookExecutionError (hook_id h0) "before" sid
                                   (Some cause))
                       ∧ modifiedInput
                           (run_before sid stepInput hs c1 m1 w').1
                         = None)
      end.
      { intros c1 m1.
        match goal with
        | |- context [run_before sid stepInput hs c1 m1 ?w'] =>
            destruct (IH c1 m1 w') as (ran & rest & -> & Htrace & Hresult)
        end.
        exists (h :: ran), rest. split; [done|]. split.
        { rewrite Htrace. simpl. by rewrite <- app_assoc. }
        destruct (success _).
        - exact Hresult.
        - destruct Hresult as (before & h0 & cause & -> & Herr & Hmod).
          by exists (h :: before), h0, cause. }
      destruct (handler h _ _).1; apply Hsame.
    + exists [h], hs. split; [done|]. split; [done|]. simpl.
      by exists [], h, (as_error t).
Qed.










(** *** After-hooks *)

Lemma run_after_trace (sid : string) (stepOutput : Value)
    (hs : list HookHandler) (current : Value) (errors : list Error)
    (w : World) :
  trace (run_after sid stepOutput hs current errors w).2
  = trace w ++ map (fun h => AAfterHook (hook_id h)) hs
  ∧ ∃ more,
      (run_after sid stepOutput hs current errors w).1 = errors ++ more
      ∧ Forall (fun e => ∃ h cause,
                  h ∈ hs
                  ∧ e = HookExecutionError (hook_id h) "after" sid (Some cause))
          more.
Proof.
  revert current errors w.
  induction hs as [|h hs IH]; intros current errors w; simpl.
  - split; [by rewrite app_nil_r|]. exists []. by rewrite app_nil_r.
  - destruct (outcome _) as [[]|t].
    + match goal with
      | |- context [run_after sid stepOutput hs ?c ?es ?w'] =>
          destruct (IH c es w') as (Htrace & more & Herrors & Hmore)
      end.
      split; [rewrite Htrace; simpl; by rewrite <- app_assoc|].
      exists more. split; [done|].
      eapply Forall_impl; [exact Hmore|].
      intros e (h' & cause & Hh' & ->). exists h', cause. split; [by right|done].
    + match goal with
      | |- context [run_after sid stepOutput hs ?c ?es ?w'] =>
          destruct (IH c es w') as (Htrace & more & Herrors & Hmore)
      end.
      split; [rewrite Htrace; simpl; by rewrite <- app_assoc|].
      eexists (_ :: more). split; [rewrite Herrors; by rewrite <- app_assoc|].
      apply Forall_cons. split.
      * exists h, (as_error t). split; [left|done].
      * eapply Forall_impl; [exact Hmore|].
        intros e (h' & cause & Hh' & ->). exists h', cause.
        split; [by right|done].
Qed.

(** X15: [executeAfterHooks] calls every after-hook of the step and then every
    global one, in order, whether or not some of them throw, and always
    reports success; the error it carries, if any, is a [HookExecutionError]
    of kind ["after"] for one of these hooks. *)
Theorem after_hooks_all_run (hm : HookManager) (sid : string)
    (stepInput stepOutput : Value) (stepHooks : option HookDefinition)
    (w : World) :
  success (executeAfterHooks hm sid stepInput stepOutput stepHooks w).1 = true
  ∧ modifiedInput (executeAfterHooks hm sid stepInput stepOutput stepHooks w).1
    = None
  ∧ trace (executeAfterHooks hm sid stepInput stepOutput stepHooks w).2
    = trace w
      ++ map (fun h => AAfterHook (hook_id h))
           (default [] (stepHooks ≫= afterHooks) ++ globalAfterHooks hm)
  ∧ match hook_error
            (executeAfterHooks hm sid stepInput stepOutput stepHooks w).1 with
    | Some e =>
        ∃ h cause,
          h ∈ default [] (stepHooks ≫= afterHooks) ++ globalAfterHooks hm
          ∧ e = HookExecutionError (hook_id h) "after" sid (Some cause)
    | None => True
    end.
Proof.
  unfold executeAfterHooks. simpl.
  match goal with
  | |- context [run_after sid stepOutput ?hs ?c ?es w] =>
      destruct (run_after_trace sid stepOutput hs c es w)
        as (Htrace & more & Herrors & Hmore)
  end.
  repeat split; [exact Htrace|].
  rewrite Herrors. simpl. destruct more as [|e more]; simpl; [done|].
  by apply Forall_cons in Hmore as [He _].
Qed.

End Hooks.

(** ** Executor ([executor/index.ts]) *)

Module Executor.
Import Core Events World Hooks.

(** *** [RetryStrategy] *)

Record RetryStrategy : Type := mkRetryStrategy {
  policy : RetryPolicy;
  currentRetryCount : Z;
}.

Definition newRetryStrategy (p : RetryPolicy) : RetryStrategy :=
  {| policy := p; currentRetryCount := 0 |}.

Definition canRetry (rs : RetryStrategy) : bool :=
  bool_decide (currentRetryCount rs < maxRetries (policy rs)).

Definition getRetryCount (rs : RetryStrategy) : Z := currentRetryCount rs.

Definition getMaxRetries (rs : RetryStrategy) : Z := maxRetries (policy rs).

(** [baseInterval * Math.pow(multiplier, exponent)] with
    [multiplier = backoffMultiplier ?? 2] and the current retry count as
    exponent, in the arithmetic of the host; the base interval itself when
    backoff is off or absent. *)
Definition getNextRetryInterval (env : Env) (rs : RetryStrategy) : Z :=
  let baseInterval := retryInterval (policy rs) in
  if negb (default false (exponentialBackoff (policy rs))) then baseInterval
  else
    let multiplier := default 2 (backoffMultiplier (policy rs)) in
    let exponent := currentRetryCount rs in
    times_pow env baseInterval multiplier exponent.

Definition recordRetry (rs : RetryStrategy) : RetryStrategy :=
  {| policy := policy rs; currentRetryCount := currentRetryCount rs + 1 |}.

Definition reset (rs : RetryStrategy) : RetryStrategy :=
  {| policy := policy rs; currentRetryCount := 0 |}.

Definition waitForRetry (env : Env) (rs : RetryStrategy) (w : World) : World :=
  sleep env (getNextRetryInterval env rs) w.

Definition createDefaultRetryPolicy : RetryPolicy :=
  {| maxRetries := 3; retryInterval := 1000;
     exponentialBackoff := Some false; backoffMultiplier := None |}.

(** *** [SkipStrategy] *)

(** [shouldSkip]: a condition function is called as it is, and may throw;
    the evaluation of an expression is wrapped in [try]/[catch] and counts
    as [false] when it throws. *)
Definition shouldSkip (env : Env) (sp : SkipPolicy) (w : World)
    : Outcome bool * World :=
  match condition sp with
  | ConditionFn f =>
      let run := f (store w) in
      (outcome run, absorb run w)
  | ConditionExpr expression =>
      match evaluate env expression (context (store w)) with
      | Returned v => (Returned (truthy_value v), w)
      | Threw _ => (Returned false, w)
      end
  end.

Definition getDefaultOutput (sp : SkipPolicy) : Value := defaultOutput sp.

(** *** [Executor] *)

Record StepResult : Type := mkStepResult {
  stepId : string;
  status : StepStatus;
  output : option Value;
  error : option Error;
  retryCount : option Z;
}.

Definition StepExecuteFn : Type := StepDefinition -> Value -> Store -> Ran Value.

(** The fields of the executor that never change after construction; the
    cancellation set is in the world. *)
Record Executor : Type := mkExecutor {
  hookManager : HookManager;
  eventEmitter : EventEmitter;
  workflowId : string;
  instanceId : string;
}.

Definition cancelled_error : Error := JsError "步骤已被取消".

(** [emitEvent]: the event is built and handed to [eventEmitter.emit]. The
    call is not guarded, so what a subscriber throws comes out of
    [emitEvent]: the first component is that exception, if any. *)
Definition emitEvent (ex : Executor) (ty : EventType) (sid : string)
    (payload : Value) (w : World) : option Thrown * World :=
  let event :=
    createWorkflowEvent ty (workflowId ex) (instanceId ex) payload (Some sid)
      (clock w) in
  (raised (emit (eventEmitter ex) event), log (AEmit event) w).

(** [lastError?.message]. *)
Definition message_of (e : option Error) : Value :=
  match e with
  | Some err => VString (error_message err)
  | None => VUndefined
  end.

Definition output_value (o : option Value) : Value := default VUndefined o.

Definition executeSingleAttempt (step : StepDefinition)
    (executeFn : StepExecuteFn) (input : Value) (w : World)
    : StepResult * World :=
  let w1 := log (ABody input) w in
  let run := executeFn step input (store w1) in
  let w2 := absorb run w1 in
  match outcome run with
  | Returned out =>
      ({| stepId := step_id step; status := SUCCESS; output := Some out;
          error := None; retryCount := None |}, w2)
  | Threw (ThrownError e) =>
      ({| stepId := step_id step; status := FAILED; output := None;
          error := Some (StepExecutionError (error_message e) (step_id step)
                           (Some e));
          retryCount := None |}, w2)
  | Threw (ThrownOther s) =>
      ({| stepId := step_id step; status := FAILED; output := None;
          error := Some (StepExecutionError s (step_id step) None);
          retryCount := None |}, w2)
  end.

(** The [while (retryStrategy.canRetry())] loop of [executeWithRetry] and
    what follows it. An exception that comes out of [emitEvent] ends the
    loop and the method. *)
Fixpoint retry_loop (fuel : nat) (ex : Executor) (env : Env)
    (step : StepDefinition) (executeFn : StepExecuteFn) (input : Value)
    (rs : RetryStrategy) (lastError : option Error) (w : World)
    : option (Outcome StepResult * World) :=
  if canRetry rs then
    match fuel with
    | O => None
    | S fuel' =>
        if decide (step_id step ∈ cancelledSteps w) then
          Some (Returned {| stepId := step_id step; status := FAILED;
                            output := None; error := Some cancelled_error;
                            retryCount := Some (getRetryCount rs) |}, w)
        else
          let w1 := waitForRetry env rs w in
          let rs1 := recordRetry rs in
          let retry :=
            emitEvent ex STEP_RETRY (step_id step)
              (VObject [("attempt", VNumber (getRetryCount rs1 + 1));
                        ("maxRetries", VNumber (getMaxRetries rs1));
                        ("lastError", message_of lastError)]) w1 in
          match retry.1 with
          | Some t => Some (Threw t, retry.2)
          | None =>
              let attempt := executeSingleAttempt step executeFn input retry.2 in
              if decide (status attempt.1 = SUCCESS) then
                let complete :=
                  emitEvent ex STEP_COMPLETE (step_id step)
                    (VObject [("output", output_value (output attempt.1));
                              ("retryCount", VNumber (getRetryCount rs1))])
                    attempt.2 in
                match complete.1 with
                | Some t => Some (Threw t, complete.2)
                | None =>
                    Some (Returned {| stepId := stepId attempt.1;
                                      status := status attempt.1;
                                      output := output attempt.1;
                                      error := error attempt.1;
                                      retryCount := Some (getRetryCount rs1) |},
                          complete.2)
                end
              else
                retry_loop fuel' ex env step executeFn input rs1
                  (error attempt.1) attempt.2
          end
    end
  else
    let failed :=
      emitEvent ex STEP_FAILED (step_id step)
        (VObject [("error", message_of lastError);
                  ("retryCount", VNumber (getRetryCount rs));
                  ("maxRetries", VNumber (getMaxRetries rs))]) w in
    match failed.1 with
    | Some t => Some (Threw t, failed.2)
    | None =>
        Some (Returned {| stepId := step_id step; status := FAILED;
                          output := None; error := lastError;
                          retryCount := Some (getRetryCount rs) |}, failed.2)
    end.

Definition executeWithRetry (ex : Executor) (env : Env)
    (step : StepDefinition) (executeFn : StepExecuteFn) (input : Value)
    (retryPolicy : option RetryPolicy) (w : World)
    : option (Outcome StepResult * World) :=
  match retryPolicy with
  | None =>
      let attempt := executeSingleAttempt step executeFn input w in
      Some (Returned attempt.1, attempt.2)
  | Some p =>
      let rs := newRetryStrategy p in
      let start :=
        emitEvent ex STEP_START (step_id step)
          (VObject [("attempt", VNumber 1)]) w in
      match start.1 with
      | Some t => Some (Threw t, start.2)
      | None =>
          let first := executeSingleAttempt step executeFn input start.2 in
          if decide (status first.1 = SUCCESS) then
            let complete :=
              emitEvent ex STEP_COMPLETE (step_id step)
                (VObject [("output", output_value (output first.1))])
                first.2 in
            match complete.1 with
            | Some t => Some (Threw t, complete.2)
            | None => Some (Returned first.1, complete.2)
            end
          else
            retry_loop (Z.to_nat (maxRetries p)) ex env step executeFn input
              rs (error first.1) first.2
      end
  end.

(** What [executeStep] does once the before-hooks succeeded and handed on
    [actualInput]: the attempts, and after a success the after-hooks and
    the write of the output. *)
Definition run_step (ex : Executor) (env : Env) (step : StepDefinition)
    (executeFn : StepExecuteFn) (actualInput : Value) (w : World)
    : option (Outcome StepResult * World) :=
  attempted ←
    executeWithRetry ex env step executeFn actualInput
      (step_retryPolicy step) w;
  match attempted.1 with
  | Threw t => Some (Threw t, attempted.2)
  | Returned result =>
      if decide (status result = SUCCESS) then
        let after :=
          executeAfterHooks (hookManager ex) (step_id step) actualInput
            (output_value (output result)) (step_hooks step) attempted.2 in
        Some (Returned result,
              commit_output (step_id step) (output_value (output result))
                after.2)
      else Some (Returned result, attempted.2)
  end.

(** [executeStep]. It lets out what a skip condition function throws and
    what comes out of [emitEvent]; [None] is fuel running out in the retry
    loop. *)
Definition executeStep (ex : Executor) (env : Env) (step : StepDefinition)
    (executeFn : StepExecuteFn) (input : Value) (w : World)
    : option (Outcome StepResult * World) :=
  let sid := step_id step in
  if decide (sid ∈ cancelledSteps w) then
    Some (Returned {| stepId := sid; status := FAILED; output := None;
                      error := Some cancelled_error; retryCount := None |}, w)
  else
    let skip :=
      match step_skipPolicy step with
      | Some sp => shouldSkip env sp w
      | None => (Returned false, w)
      end in
    match skip.1, step_skipPolicy step with
    | Threw t, _ => Some (Threw t, skip.2)
    | Returned true, Some sp =>
        let skipped :=
          emitEvent ex STEP_SKIP sid
            (VObject [("reason", VString "满足跳过条件")]) skip.2 in
        match skipped.1 with
        | Some t => Some (Threw t, skipped.2)
        | None =>
            Some (Returned {| stepId := sid; status := SKIPPED;
                              output := Some (getDefaultOutput sp);
                              error := None; retryCount := None |},
                  commit_output sid (getDefaultOutput sp) skipped.2)
        end
    | Returned _, _ =>
        let before :=
          executeBeforeHooks (hookManager ex) sid input (step_hooks step)
            skip.2 in
        if negb (success before.1) then
          let failed :=
            emitEvent ex STEP_FAILED sid
              (VObject [("error", message_of (hook_error before.1));
                        ("phase", VString "beforeHook")]) before.2 in
          match failed.1 with
          | Some t => Some (Threw t, failed.2)
          | None =>
              Some (Returned {| stepId := sid; status := FAILED;
                                output := None; error := hook_error before.1;
                                retryCount := None |}, failed.2)
          end
        else
          run_step ex env step executeFn
            (output_value (modifiedInput before.1)) before.2
    end.

Arguments emitEvent : simpl never.
Arguments executeSingleAttempt : simpl never.
Arguments waitForRetry : simpl never.

(** *** The log only grows *)

Lemma trace_log (a : Action) (w : World) : trace (log a w) = trace w ++ [a].
Proof. reflexivity. Qed.

Lemma trace_absorb {A : Type} (r : Ran A) (w : World) :
  trace (absorb r w) = trace w.
Proof. reflexivity. Qed.

Lemma trace_emitEvent ex ty sid payload w :
  trace (emitEvent ex ty sid payload w).2
  = trace w ++ [AEmit (createWorkflowEvent ty (workflowId ex) (instanceId ex)
                         payload (Some sid) (clock w))].
Proof. reflexivity. Qed.

Lemma trace_commit sid v w :
  trace (commit_output sid v w) = trace w ++ [ASetStepOutput sid v].
Proof. reflexivity. Qed.

Lemma trace_waitForRetry env rs w :
  trace (waitForRetry env rs w)
  = trace w ++ [ASleep (getNextRetryInterval env rs)
                  (m_calls (during_sleep env (getNextRetryInterval env rs)
                              (store w)))].
Proof. reflexivity. Qed.

Lemma trace_attempt step fn input w :
  trace (executeSingleAttempt step fn input w).2 = trace w ++ [ABody input].
Proof.
  unfold executeSingleAttempt.
  destruct (outcome (fn step input (store (log (ABody input) w)))) as [out|[e|msg]];
    reflexivity.
Qed.

Lemma store_attempt step fn input w :
  store (executeSingleAttempt step fn input w).2
  = store_after (fn step input (store w)).
Proof.
  unfold executeSingleAttempt.
  destruct (outcome (fn step input (store (log (ABody input) w)))) as [out|[e|msg]];
    reflexivity.
Qed.

Lemma emitEvent_raised ex ty sid payload w :
  (emitEvent ex ty sid payload w).1
  = raised (emit (eventEmitter ex)
              (createWorkflowEvent ty (workflowId ex) (instanceId ex)
                 payload (Some sid) (clock w))).
Proof. reflexivity. Qed.

Lemma store_emitEvent ex ty sid payload w :
  store (emitEvent ex ty sid payload w).2 = store w.
Proof. reflexivity. Qed.

Lemma store_waitForRetry env rs w :
  store (waitForRetry env rs w)
  = m_store (during_sleep env (getNextRetryInterval env rs) (store w)).
Proof. reflexivity. Qed.

Ltac store_step :=
  match goal with
  | |- context [store (emitEvent ?ex ?ty ?sid ?payload ?w).2] =>
      rewrite (store_emitEvent ex ty sid payload w)
  | |- context [store (executeSingleAttempt ?step ?fn ?input ?w).2] =>
      rewrite (store_attempt step fn input w)
  | |- context [store (waitForRetry ?env ?rs ?w)] =>
      rewrite (store_waitForRetry env rs w)
  end.

Ltac store_steps := repeat store_step.

(** Takes a run that is given as [Some (o, w')] apart, without reducing
    the outcome or the world. *)
Ltac run_result :=
  let H := fresh in
  intros H; apply (inj Some) in H; apply pair_equal_spec in H as [<- <-].

(** Rewrites the log of a run into the log it started from and what it
    appended. *)
Ltac log_step :=
  match goal with
  | |- context [trace (commit_output ?sid ?v ?w)] =>
      rewrite (trace_commit sid v w)
  | |- context [trace (emitEvent ?ex ?ty ?sid ?payload ?w).2] =>
      rewrite (trace_emitEvent ex ty sid payload w)
  | |- context [trace (executeSingleAttempt ?step ?fn ?input ?w).2] =>
      rewrite (trace_attempt step fn input w)
  | |- context [trace (waitForRetry ?env ?rs ?w)] =>
      rewrite (trace_waitForRetry env rs w)
  | |- context [trace (absorb ?r ?w)] => rewrite (trace_absorb r w)
  | |- context [trace (log ?a ?w)] => rewrite (trace_log a w)
  end.

Ltac log_steps := repeat log_step; rewrite <- ?app_assoc.

Lemma attempt_status step fn input w :
  status (executeSingleAttempt step fn input w).1 = SUCCESS
  ∨ status (executeSingleAttempt step fn input w).1 = FAILED.
Proof.
  unfold executeSingleAttempt.
  destruct (outcome (fn step input (store (log (ABody input) w)))) as [out|[e|msg]];
    simpl; auto.
Qed.

Lemma attempt_success_output step fn input w :
  status (executeSingleAttempt step fn input w).1 = SUCCESS →
  ∃ out, output (executeSingleAttempt step fn input w).1 = Some out
         ∧ outcome (fn step input (store (log (ABody input) w))) = Returned out.
Proof.
  unfold executeSingleAttempt.
  destruct (outcome (fn step input (store (log (ABody input) w)))) as [out|[e|msg]];
    simpl; intros H; try discriminate.
  by exists out.
Qed.

(** *** The retry loop never runs out of fuel *)

Lemma retry_loop_fuel fuel ex env step fn input rs lastError w :
  (Z.to_nat (maxRetries (policy rs) - currentRetryCount rs) ≤ fuel)%nat →
  is_Some (retry_loop fuel ex env step fn input rs lastError w).
Proof.
  revert rs lastError w.
  induction fuel as [|fuel IH]; intros rs lastError w Hfuel; cbn.
  - unfold canRetry. case_bool_decide; [lia|].
    destruct (emitEvent _ _ _ _ _).1; by eexists.
  - unfold canRetry. case_bool_decide as Hcan;
      [|destruct (emitEvent _ _ _ _ _).1; by eexists].
    case_decide; [by eexists|].
    destruct (emitEvent _ _ _ _ _).1; [by eexists|].
    case_decide; [destruct (emitEvent _ _ _ _ _).1; by eexists|].
    apply IH. simpl. lia.
Qed.

Lemma executeWithRetry_returns ex env step fn input pol w :
  is_Some (executeWithRetry ex env step fn input pol w).
Proof.
  unfold executeWithRetry. destruct pol as [p|]; [|by eexists].
  destruct (emitEvent _ _ _ _ _).1; [by eexists|].
  case_decide; [destruct (emitEvent _ _ _ _ _).1; by eexists|].
  apply retry_loop_fuel. simpl. lia.
Qed.

(** *** What a run of the attempts looks like *)

(** The actions of the attempts on [input]: sleeps, calls of the body on
    [input], and the events that announce the start, a retry, the completion
    and the failure. *)
Definition attempt_action (input : Value) (a : Action) : Prop :=
  match a with
  | ASleep _ _ => True
  | AEmit ev => type ev ∈ [STEP_START; STEP_RETRY; STEP_COMPLETE; STEP_FAILED]
  | ABody i => i = input
  | _ => False
  end.

(** How the attempts end, given what they appended to the log. A success
    ends with the [STEP_COMPLETE] event of the step, carrying the output;
    an exception is what the bus raised on the last event handed to it. *)
Definition run_ends (ex : Executor) (step : StepDefinition)
    (o : Outcome StepResult) (delta : list Action) : Prop :=
  match o with
  | Returned result =>
      (status result = SUCCESS
       ∧ ∃ ev out fields,
           last delta = Some (AEmit ev)
           ∧ type ev = STEP_COMPLETE
           ∧ Events.stepId ev = Some (step_id step)
           ∧ payload ev = VObject (("output", out) :: fields)
           ∧ output result = Some out)
      ∨ status result = FAILED
  | Threw t =>
      ∃ ev, last delta = Some (AEmit ev)
            ∧ raised (emit (eventEmitter ex) ev) = Some t
  end.

(** A property of the heap that the body, respectively the tasks running
    during a sleep, preserve. *)
Definition body_keeps (P : Store -> Prop) (step : StepDefinition)
    (fn : StepExecuteFn) : Prop :=
  ∀ input s, P s -> P (store_after (fn step input s)).

Definition sleep_keeps (P : Store -> Prop) (env : Env) : Prop :=
  ∀ ms s, P s -> P (m_store (during_sleep env ms s)).

Lemma run_ends_app ex step o (d1 d2 : list Action) :
  run_ends ex step o d2 -> run_ends ex step o (d1 ++ d2).
Proof.
  destruct o as [result|t]; simpl.
  - intros [(Hs & ev & out & fields & Hlast & Hrest)|Hf]; [left|by right].
    split; [done|]. exists ev, out, fields. split; [|done].
    by rewrite last_app, Hlast.
  - intros (ev & Hlast & Hraised). exists ev. split; [|done].
    by rewrite last_app, Hlast.
Qed.

(** The end of [executeWithRetry] when the retries are used up. *)
Lemma used_up_run ex env step fn input rs lastError w o w' :
  match (emitEvent ex STEP_FAILED (step_id step)
           (VObject [("error", message_of lastError);
                     ("retryCount", VNumber (getRetryCount rs));
                     ("maxRetries", VNumber (getMaxRetries rs))]) w).1 with
  | Some t =>
      Some (Threw t,
            (emitEvent ex STEP_FAILED (step_id step)
               (VObject [("error", message_of lastError);
                         ("retryCount", VNumber (getRetryCount rs));
                         ("maxRetries", VNumber (getMaxRetries rs))]) w).2)
  | None =>
      Some (Returned {| stepId := step_id step; status := FAILED;
                        output := None; error := lastError;
                        retryCount := Some (getRetryCount rs) |},
            (emitEvent ex STEP_FAILED (step_id step)
               (VObject [("error", message_of lastError);
                         ("retryCount", VNumber (getRetryCount rs));
                         ("maxRetries", VNumber (getMaxRetries rs))]) w).2)
  end = Some (o, w') →
  ∃ delta,
    trace w' = trace w ++ delta
    ∧ Forall (attempt_action input) delta
    ∧ run_ends ex step o delta
    ∧ ∀ P : Store -> Prop,
        body_keeps P step fn -> sleep_keeps P env ->
        P (store w) -> P (store w').
Proof.
  destruct (emitEvent _ _ _ _ _).1 as [t|] eqn:Hraised;
    run_result; (eexists; split; [apply trace_emitEvent|]);
    (split; [by repeat constructor|]); (split; [|done]).
  - by eexists.
  - by right.
Qed.

Lemma retry_loop_run fuel ex env step fn input rs lastError w o w' :
  retry_loop fuel ex env step fn input rs lastError w = Some (o, w') →
  ∃ delta,
    trace w' = trace w ++ delta
    ∧ Forall (attempt_action input) delta
    ∧ run_ends ex step o delta
    ∧ ∀ P : Store -> Prop,
        body_keeps P step fn -> sleep_keeps P env ->
        P (store w) -> P (store w').
Proof.
  revert rs lastError w o w'.
  induction fuel as [|fuel IH]; intros rs lastError w o w'; cbn.
  - destruct (canRetry rs); [done|]. apply used_up_run.
  - destruct (canRetry rs); [|apply used_up_run].
    case_decide.
    { run_result. exists []. rewrite app_nil_r.
      split; [done|]. split; [constructor|]. split; [by right|done]. }
    destruct (emitEvent ex STEP_RETRY _ _ _).1 as [t|] eqn:Hretry.
    { run_result. eexists. split; [log_steps; reflexivity|].
      split; [by repeat constructor|]. split; [by eexists|].
      intros P _ Hsleep HP. store_steps. by apply Hsleep. }
    case_decide as Hok.
    + apply attempt_success_output in Hok as Hout. destruct Hout as (out & Hout & _).
      destruct (emitEvent ex STEP_COMPLETE _ _ _).1 as [t|] eqn:Hcomplete;
        run_result; (eexists; split; [log_steps; reflexivity|]);
        (split; [by repeat constructor|]); (split;
          [|intros P Hbody Hsleep HP; store_steps; by apply Hbody, Hsleep]).
      * by eexists.
      * left. split; [done|]. eexists _, out, _.
        split; [reflexivity|]. split; [done|]. split; [done|].
        split; [|done]. cbn [payload createWorkflowEvent]. by rewrite Hout.
    + intros Hloop. apply IH in Hloop as (delta & Hdelta & Hact & Hends & Hkeep).
      eexists. split; [rewrite Hdelta; log_steps; reflexivity|].
      split; [by repeat constructor|]. split.
      * by apply (run_ends_app _ _ _ [_; _; _]).
      * intros P Hbody Hsleep HP. apply Hkeep; [done|done|].
        store_steps. by apply Hbody, Hsleep.
Qed.

Lemma executeWithRetry_run ex env step fn input pol w o w' :
  executeWithRetry ex env step fn input pol w = Some (o, w') →
  ∃ delta,
    trace w' = trace w ++ delta
    ∧ Forall (attempt_action input) delta
    ∧ match pol with
      | Some _ => run_ends ex step o delta
      | None =>
          delta = [ABody input]
          ∧ ∃ result,
              o = Returned result
              ∧ (status result = SUCCESS ∧ is_Some (output result)
                 ∨ status result = FAILED)
      end
    ∧ ∀ P : Store -> Prop,
        body_keeps P step fn -> sleep_keeps P env ->
        P (store w) -> P (store w').
Proof.
  unfold executeWithRetry. destruct pol as [p|].
  - destruct (emitEvent ex STEP_START _ _ _).1 as [t|] eqn:Hstart.
    { run_result. eexists. split; [log_steps; reflexivity|].
      split; [by repeat constructor|]. split; [by eexists|done]. }
    case_decide as Hok.
    + apply attempt_success_output in Hok as Hout.
      destruct Hout as (out & Hout & _).
      destruct (emitEvent ex STEP_COMPLETE _ _ _).1 as [t|] eqn:Hcomplete;
        run_result; (eexists; split; [log_steps; reflexivity|]);
        (split; [by repeat constructor|]); (split;
          [|intros P Hbody _ HP; store_steps; by apply Hbody]).
      * by eexists.
      * left. split; [done|]. eexists _, out, [].
        split; [reflexivity|]. split; [done|]. split; [done|].
        split; [|done]. cbn [payload createWorkflowEvent]. by rewrite Hout.
    + intros Hloop.
      apply retry_loop_run in Hloop as (delta & Hdelta & Hact & Hends & Hkeep).
      eexists. split; [rewrite Hdelta; log_steps; reflexivity|].
      split; [by repeat constructor|]. split.
      * by apply (run_ends_app _ _ _ [_; _]).
      * intros P Hbody Hsleep HP. apply Hkeep; [done|done|].
        store_steps. by apply Hbody.
  - run_result. exists [ABody input]. split; [apply trace_attempt|].
    split; [by repeat constructor|]. split.
    + split; [done|]. eexists. split; [reflexivity|].
      destruct (attempt_status step fn input w) as [Hs|Hf]; [left|by right].
      split; [done|].
      destruct (attempt_success_output step fn input w Hs) as (out & -> & _).
      by eexists.
    + intros P Hbody _ HP. store_steps. by apply Hbody.
Qed.

(** *** Start and completion events *)


(** An executor without hooks, on a bus without subscribers. *)
Definition bare_executor : Executor :=
  {| hookManager := {| globalBeforeHooks := []; globalAfterHooks := [] |};
     eventEmitter := {| listeners := ∅ |};
     workflowId := "wf"; instanceId := "run-1" |}.

(** A host on which nothing else runs during a sleep, timers are on time
    and the arithmetic is exact. *)
Definition still_env : Env :=
  {| during_sleep := fun ms s =>
       {| m_store := s; m_calls := []; m_elapsed := ms |};
     evaluate := fun _ _ => Returned VUndefined;
     times_pow := fun b m e => b * m ^ e |}.

Definition empty_world : World :=
  {| cancelledSteps := ∅;
     store := {| context := {| ctx_workflowId := "wf";
                               ctx_instanceId := "run-1";
                               stepOutputs := ∅; globals := ∅ |};
                 vars := ∅ |};
     trace := []; clock := 0 |}.

(** A body that returns its input. *)
Definition pass_through : StepExecuteFn :=
  fun _ input s => {| outcome := Returned input; store_after := s; calls := [] |}.



(** *** Cancellation between attempts *)

(** The flag of [sid] after the calls made during a sleep, starting from a
    flag that was not set. *)
Definition sets_flag (sid : string) (meanwhile : list ExecutorCall) : Prop :=
  sid ∈ fold_left apply_call meanwhile ∅.

(** What the specification asks: after a sleep during which the step was
    cancelled the body is not called again and the step fails with the
    cancellation error. *)
Definition sleep_cancellation_honoured (sid : string) (delta : list Action)
    (result : StepResult) : Prop :=
  ∀ before ms meanwhile after,
    delta = before ++ ASleep ms meanwhile :: after →
    sets_flag sid meanwhile →
    Forall (fun a => is_body a = false) after
    ∧ status result = FAILED
    ∧ error result = Some cancelled_error.

(** A body that always throws. *)
Definition always_throws : StepExecuteFn :=
  fun _ _ s => {| outcome := Threw (ThrownError (JsError "boom"));
                  store_after := s; calls := [] |}.

(** A host on which step [s1] is cancelled during every sleep. *)
Definition cancelling_env : Env :=
  {| during_sleep := fun ms s =>
       {| m_store := s; m_calls := [CancelStep "s1"]; m_elapsed := ms |};
     evaluate := fun _ _ => Returned VUndefined;
     times_pow := fun b m e => b * m ^ e |}.

Definition one_retry : RetryPolicy :=
  {| maxRetries := 1; retryInterval := 10;
     exponentialBackoff := None; backoffMultiplier := None |}.

Definition retried_step : StepDefinition :=
  {| step_id := "s1"; step_name := "s1"; step_type := "task";
     step_dependencies := None; step_retryPolicy := Some one_retry;
     step_skipPolicy := None; step_hooks := None; step_tools := None |}.

(** C3, as stated, fails: the flag is tested before the sleep only. A step
    cancelled during its sleep has its body called once more, and here,
    with the retries then used up, it fails with the error of the body and
    not with the cancellation error. *)
Lemma cancel_during_sleep_missed :
  ∃ result w' retry failed,
    executeStep bare_executor cancelling_env retried_step always_throws
      VNull empty_world = Some (Returned result, w')
    ∧ skipn 2 (trace w')
      = [ASleep 10 [CancelStep "s1"]; AEmit retry; ABody VNull; AEmit failed]
    ∧ error result
      = Some (StepExecutionError "boom" "s1" (Some (JsError "boom")))
    ∧ ¬ sleep_cancellation_honoured "s1" (trace w') result.
Proof.
  eexists _, _, _, _. split; [vm_compute; reflexivity|].
  split; [reflexivity|]. split; [reflexivity|].
  match goal with
  | |- ¬ sleep_cancellation_honoured _ ?tr _ =>
      intros Hclaim;
      destruct (Hclaim (take 2 tr) 10 [CancelStep "s1"] (drop 3 tr))
        as (_ & _ & Herr)
  end.
  - reflexivity.
  - unfold sets_flag. simpl. unfold cancelStep. set_solver.
  - discriminate Herr.
Qed.

(** C3, amended: the cancellation flag is read at the start of each
    iteration of the retry loop, before the sleep. If it is set then, the
    executor neither sleeps nor calls the body again and the step fails with
    the cancellation error and the retry count reached so far. If it is not
    set then, the executor sleeps and hands [STEP_RETRY] to the bus,
    whatever is done to the flag during the sleep; when a subscriber throws
    on that event the exception leaves [executeStep] and the body is not
    called again, otherwise the body is called again. *)
Theorem cancellation_checked_before_sleep
    fuel ex env step fn input rs lastError w :
  canRetry rs = true →
  (Z.to_nat (maxRetries (policy rs) - currentRetryCount rs) ≤ fuel)%nat →
  ∃ o w',
    retry_loop fuel ex env step fn input rs lastError w = Some (o, w')
    ∧ (step_id step ∈ cancelledSteps w →
       o = Returned {| stepId := step_id step; status := FAILED;
                       output := None; error := Some cancelled_error;
                       retryCount := Some (getRetryCount rs) |}
       ∧ w' = w)
    ∧ (step_id step ∉ cancelledSteps w →
       ∃ retry rest,
         trace w'
         = trace w
           ++ ASleep (getNextRetryInterval env rs)
                (m_calls (during_sleep env (getNextRetryInterval env rs)
                            (store w)))
              :: AEmit retry :: rest
         ∧ type retry = STEP_RETRY
         ∧ Events.stepId retry = Some (step_id step)
         ∧ match raised (emit (eventEmitter ex) retry) with
           | Some t => rest = [] ∧ o = Threw t
           | None => ∃ rest', rest = ABody input :: rest'
           end).
Proof.
  intros Hcan Hfuel.
  destruct (retry_loop_fuel fuel ex env step fn input rs lastError w Hfuel)
    as [[o w'] Hrun].
  exists o, w'. split; [exact Hrun|].
  destruct fuel as [|fuel].
  { unfold canRetry in Hcan. apply bool_decide_eq_true in Hcan. lia. }
  revert Hrun. cbn. rewrite Hcan.
  case_decide as Hcancelled.
  - run_result. split; [done|]. intros Hnot. done.
  - split; [done|]. intros _. revert Hrun.
    destruct (emitEvent ex STEP_RETRY _ _ _).1 as [t|] eqn:Hretry.
    + run_result. eexists _, []. split; [log_steps; reflexivity|].
      split; [done|]. split; [done|].
      rewrite emitEvent_raised in Hretry. by rewrite Hretry.
    + intros Hrest.
      match type of Hretry with
      | (emitEvent ?e ?ty ?sid ?payload ?w0).1 = _ =>
          assert (Hshape : ∃ rest',
                    trace w'
                    = trace (emitEvent e ty sid payload w0).2
                      ++ ABody input :: rest')
      end.
      { revert Hrest. case_decide as Hok.
        - destruct (emitEvent ex STEP_COMPLETE _ _ _).1; run_result;
            eexists; log_steps; reflexivity.
        - intros Hloop.
          apply retry_loop_run in Hloop as (d & Hd & _).
          exists d. rewrite Hd. log_steps. reflexivity. }
      destruct Hshape as (rest' & ->).
      eexists _, _. split; [log_steps; reflexivity|].
      split; [done|]. split; [done|].
      rewrite emitEvent_raised in Hretry. rewrite Hretry.
      by eexists.
Qed.

Lemma cancellation_checked_before_sleep_witness :
  ∃ o w',
    retry_loop 1 bare_executor cancelling_env retried_step always_throws
      VNull (newRetryStrategy one_retry) None empty_world = Some (o, w')
    ∧ ("s1" ∈ cancelledSteps empty_world →
       o = Returned {| stepId := "s1"; status := FAILED; output := None;
                       error := Some cancelled_error; retryCount := Some 0 |}
       ∧ w' = empty_world)
    ∧ ("s1" ∉ cancelledSteps empty_world →
       ∃ retry rest,
         trace w'
         = trace empty_world
           ++ ASleep 10 [CancelStep "s1"] :: AEmit retry :: rest
         ∧ type retry = STEP_RETRY
         ∧ Events.stepId retry = Some "s1"
         ∧ match raised (emit (eventEmitter bare_executor) retry) with
           | Some t => rest = [] ∧ o = Threw t
           | None => ∃ rest', rest = ABody VNull :: rest'
           end).
Proof.
  apply (cancellation_checked_before_sleep 1 bare_executor cancelling_env
           retried_step always_throws VNull (newRetryStrategy one_retry)
           None empty_world).
  - reflexivity.
  - vm_compute. lia.
Defined.

(** *** Exhausting the retries *)

Definition always_fails (fn : StepExecuteFn) (step : StepDefinition) : Prop :=
  ∀ input s, ∃ t, outcome (fn step input s) = Threw t.

(** Neither the body nor the tasks running during a sleep call
    [cancelStep] for [sid]. *)
Definition never_cancels (sid : string) (env : Env) (fn : StepExecuteFn)
    (step : StepDefinition) : Prop :=
  (∀ input s, CancelStep sid ∉ calls (fn step input s))
  ∧ (∀ ms s, CancelStep sid ∉ m_calls (during_sleep env ms s)).

Definition body_calls (delta : list Action) : nat :=
  length (filter (fun a => is_body a) delta).

Lemma body_calls_app (d1 d2 : list Action) :
  body_calls (d1 ++ d2) = (body_calls d1 + body_calls d2)%nat.
Proof. unfold body_calls. by rewrite filter_app, length_app. Qed.

Lemma apply_calls_keep (sid : string) (cs : list ExecutorCall)
    (cancelled : gset string) :
  sid ∉ cancelled → CancelStep sid ∉ cs →
  sid ∉ fold_left apply_call cs cancelled.
Proof.
  revert cancelled.
  induction cs as [|c cs IH]; intros cancelled Hnot Hcs; simpl; [done|].
  apply not_elem_of_cons in Hcs as [Hc Hcs].
  apply IH; [|done].
  destruct c as [sid'|sid']; simpl; unfold cancelStep, clearCancellation.
  - rewrite not_elem_of_union, not_elem_of_singleton.
    split; [done|congruence].
  - rewrite elem_of_difference. tauto.
Qed.

Lemma attempt_fails step fn input w :
  always_fails fn step →
  status (executeSingleAttempt step fn input w).1 = FAILED.
Proof.
  intros Hfail. unfold executeSingleAttempt.
  destruct (Hfail input (store (log (ABody input) w))) as [t ->].
  by destruct t.
Qed.

Lemma attempt_keeps_flag step fn input w sid :
  sid ∉ cancelledSteps w →
  CancelStep sid ∉ calls (fn step input (store (log (ABody input) w))) →
  sid ∉ cancelledSteps (executeSingleAttempt step fn input w).2.
Proof.
  intros Hnot Hcalls. unfold executeSingleAttempt.
  destruct (outcome (fn step input (store (log (ABody input) w)))) as [out|[e|msg]];
    simpl; by apply apply_calls_keep.
Qed.

Lemma retry_loop_exhausts fuel ex env step fn input rs lastError w :
  (Z.to_nat (maxRetries (policy rs) - currentRetryCount rs) ≤ fuel)%nat →
  currentRetryCount rs ≤ maxRetries (policy rs) →
  always_fails fn step →
  never_cancels (step_id step) env fn step →
  step_id step ∉ cancelledSteps w →
  ∃ o w' delta,
    retry_loop fuel ex env step fn input rs lastError w = Some (o, w')
    ∧ trace w' = trace w ++ delta
    ∧ (body_calls delta
       ≤ Z.to_nat (maxRetries (policy rs) - currentRetryCount rs))%nat
    ∧ ∀ result,
        o = Returned result ->
        status result = FAILED
        ∧ retryCount result = Some (maxRetries (policy rs))
        ∧ body_calls delta
          = Z.to_nat (maxRetries (policy rs) - currentRetryCount rs).
Proof.
  intros Hfuel Hle Hfail [Hbody Hsleep].
  assert (Hused : ∀ rs lastError w,
            ¬ currentRetryCount rs < maxRetries (policy rs) ->
            currentRetryCount rs ≤ maxRetries (policy rs) ->
            ∃ o w' delta,
              match (emitEvent ex STEP_FAILED (step_id step)
                       (VObject [("error", message_of lastError);
                                 ("retryCount", VNumber (currentRetryCount rs));
                                 ("maxRetries",
                                  VNumber (maxRetries (policy rs)))]) w).1 with
              | Some t =>
                  Some (Threw t,
                        (emitEvent ex STEP_FAILED (step_id step)
                           (VObject
                              [("error", message_of lastError);
                               ("retryCount", VNumber (currentRetryCount rs));
                               ("maxRetries",
                                VNumber (maxRetries (policy rs)))]) w).2)
              | None =>
                  Some (Returned {| stepId := step_id step; status := FAILED;
                                    output := None; error := lastError;
                                    retryCount := Some (currentRetryCount rs) |},
                        (emitEvent ex STEP_FAILED (step_id step)
                           (VObject
                              [("error", message_of lastError);
                               ("retryCount", VNumber (currentRetryCount rs));
                               ("maxRetries",
                                VNumber (maxRetries (policy rs)))]) w).2)
              end = Some (o, w')
              ∧ trace w' = trace w ++ delta
              ∧ (body_calls delta
                 ≤ Z.to_nat (maxRetries (policy rs) - currentRetryCount rs))%nat
              ∧ ∀ result,
                  o = Returned result ->
                  status result = FAILED
                  ∧ retryCount result = Some (maxRetries (policy rs))
                  ∧ body_calls delta
                    = Z.to_nat (maxRetries (policy rs) - currentRetryCount rs)).
  { clear. intros rs lastError w Hno Hle.
    replace (maxRetries (policy rs) - currentRetryCount rs) with 0 by lia.
    destruct (emitEvent ex STEP_FAILED _ _ _).1 as [t|];
      (eexists _, _, _; split; [reflexivity|]);
      (split; [apply trace_emitEvent|]); (split; [done|]).
    - by intros result [= ].
    - intros result [= <-]. simpl. repeat split. f_equal. lia. }
  revert rs lastError w Hfuel Hle.
  induction fuel as [|fuel IH]; intros rs lastError w Hfuel Hle Hflag; cbn.
  - unfold canRetry. case_bool_decide; [lia|]. by apply Hused.
  - unfold canRetry. case_bool_decide as Hcan; [|by apply Hused].
    rewrite decide_False by done.
    destruct (emitEvent ex STEP_RETRY _ _ _).1 as [t|] eqn:Hretry.
    { eexists _, _, _. split; [reflexivity|].
      split; [log_steps; reflexivity|]. split; [unfold body_calls; simpl; lia|].
      by intros result [= ]. }
    rewrite decide_False by (rewrite attempt_fails by done; discriminate).
    edestruct IH as (o & w' & delta & Hrun & Htr & Hbound & Hres); cycle 3.
    + rewrite Hrun. exists o, w'. eexists. split; [reflexivity|].
      split; [rewrite Htr; log_steps; reflexivity|].
      cbn [policy currentRetryCount recordRetry] in Hbound, Hres.
      split.
      * rewrite !body_calls_app. unfold body_calls at 1 2 3. simpl. lia.
      * intros result Ho. destruct (Hres result Ho) as (Hst & Hrc & Hn).
        split; [done|]. split; [done|].
        rewrite !body_calls_app, Hn. unfold body_calls. simpl. lia.
    + simpl. lia.
    + simpl. lia.
    + apply attempt_keeps_flag; [|apply Hbody].
      unfold emitEvent, log, waitForRetry, sleep. simpl.
      by apply apply_calls_keep.
Qed.

(** C4: with [maxRetries = N], a body that fails on every attempt and no
    cancellation, [executeWithRetry] ends, the body is called at most
    [N + 1] times, and a result that is returned is [FAILED] with
    [retryCount = N], after exactly [N + 1] calls of the body. The only
    other way the run ends is by an exception that a subscriber of the bus
    threw on the last event handed to it; when no subscriber throws, the
    result is returned. *)
Theorem retries_exhausted ex env step fn input p w :
  0 ≤ maxRetries p →
  always_fails fn step →
  never_cancels (step_id step) env fn step →
  step_id step ∉ cancelledSteps w →
  ∃ o w' delta,
    executeWithRetry ex env step fn input (Some p) w = Some (o, w')
    ∧ trace w' = trace w ++ delta
    ∧ (body_calls delta ≤ S (Z.to_nat (maxRetries p)))%nat
    ∧ match o with
      | Returned result =>
          status result = FAILED
          ∧ retryCount result = Some (maxRetries p)
          ∧ body_calls delta = S (Z.to_nat (maxRetries p))
      | Threw t =>
          ∃ ev, last delta = Some (AEmit ev)
                ∧ raised (emit (eventEmitter ex) ev) = Some t
      end
    ∧ ((∀ ev, raised (emit (eventEmitter ex) ev) = None) ->
       ∃ result, o = Returned result).
Proof.
  intros HN Hfail Hnever Hflag.
  assert (Hcount : ∃ o w' delta,
            executeWithRetry ex env step fn input (Some p) w = Some (o, w')
            ∧ trace w' = trace w ++ delta
            ∧ (body_calls delta ≤ S (Z.to_nat (maxRetries p)))%nat
            ∧ ∀ result,
                o = Returned result ->
                status result = FAILED
                ∧ retryCount result = Some (maxRetries p)
                ∧ body_calls delta = S (Z.to_nat (maxRetries p))).
  { unfold executeWithRetry.
    destruct (emitEvent ex STEP_START _ _ _).1 as [t|] eqn:Hstart.
    { eexists _, _, _. split; [reflexivity|].
      split; [log_steps; reflexivity|]. split; [unfold body_calls; simpl; lia|].
      by intros result [= ]. }
    rewrite decide_False by (rewrite attempt_fails by done; discriminate).
    edestruct (retry_loop_exhausts (Z.to_nat (maxRetries p)) ex env step fn
                 input (newRetryStrategy p))
      as (o & w' & delta & Hrun & Htr & Hbound & Hres); cycle 5.
    - rewrite Hrun. exists o, w'. eexists. split; [reflexivity|].
      split; [rewrite Htr; log_steps; reflexivity|].
      cbn [policy currentRetryCount newRetryStrategy] in Hbound, Hres.
      replace (maxRetries p - 0) with (maxRetries p) in Hbound, Hres by lia.
      split.
      + rewrite !body_calls_app. unfold body_calls at 1 2. simpl. lia.
      + intros result Ho. destruct (Hres result Ho) as (Hst & Hrc & Hn).
        split; [done|]. split; [done|].
        rewrite !body_calls_app, Hn. unfold body_calls. simpl. lia.
    - simpl. lia.
    - simpl. lia.
    - done.
    - done.
    - apply attempt_keeps_flag; [done|apply Hnever]. }
  destruct Hcount as (o & w' & delta & Hrun & Htr & Hbound & Hres).
  exists o, w', delta. split; [done|]. split; [done|]. split; [done|].
  destruct (executeWithRetry_run _ _ _ _ _ _ _ _ _ Hrun)
    as (delta' & Htr' & _ & Hends & _).
  rewrite Htr in Htr'. apply app_inv_head in Htr' as <-.
  destruct o as [result|t].
  - split; [by apply Hres|]. intros _. by exists result.
  - split; [done|]. intros Hquiet.
    destruct Hends as (ev & _ & Hraised). by rewrite Hquiet in Hraised.
Qed.

Lemma retries_exhausted_witness :
  ∃ o w' delta,
    executeWithRetry bare_executor still_env retried_step always_throws VNull
      (Some one_retry) empty_world = Some (o, w')
    ∧ trace w' = trace empty_world ++ delta
    ∧ (body_calls delta ≤ 2)%nat
    ∧ match o with
      | Returned result =>
          status result = FAILED
          ∧ retryCount result = Some 1
          ∧ body_calls delta = 2%nat
      | Threw t =>
          ∃ ev, last delta = Some (AEmit ev)
                ∧ raised (emit (eventEmitter bare_executor) ev) = Some t
      end
    ∧ ((∀ ev, raised (emit (eventEmitter bare_executor) ev) = None) ->
       ∃ result, o = Returned result).
Proof.
  apply (retries_exhausted bare_executor still_env retried_step always_throws
           VNull one_retry empty_world).
  - simpl. lia.
  - intros input s. eexists. reflexivity.
  - split; intros; simpl; apply not_elem_of_nil.
  - simpl. apply not_elem_of_empty.
Defined.

(** *** After-hooks and the output commit *)

(** An action that is neither an after-hook nor a write of a step output. *)
Definition quiet (a : Action) : Prop :=
  is_after_hook a = false ∧ is_commit a = false.

(** [globalBeforeHooks ++ stepHooks.beforeHooks]. *)
Definition before_hooks (ex : Executor) (step : StepDefinition)
    : list HookHandler :=
  globalBeforeHooks (hookManager ex)
  ++ default [] (step_hooks step ≫= beforeHooks).

(** [stepHooks.afterHooks ++ globalAfterHooks]. *)
Definition after_hooks (ex : Executor) (step : StepDefinition)
    : list HookHandler :=
  default [] (step_hooks step ≫= afterHooks)
  ++ globalAfterHooks (hookManager ex).

(** The heap [after] holds for step [sid] the output that [before] holds. *)
Definition keeps_output (sid : string) (before after : Store) : Prop :=
  stepOutputs (context after) !! sid = stepOutputs (context before) !! sid.

(** None of the callbacks that run before the attempts of a step are over
    touches the output of the step in the context: the skip condition, the
    before-hooks, the body and the tasks running during a sleep. *)
Definition callbacks_keep_output (ex : Executor) (env : Env)
    (step : StepDefinition) (fn : StepExecuteFn) : Prop :=
  (∀ sp f s, step_skipPolicy step = Some sp -> condition sp = ConditionFn f ->
     keeps_output (step_id step) s (store_after (f s)))
  ∧ (∀ h view s, h ∈ before_hooks ex step ->
       keeps_output (step_id step) s (store_after (handler h view s).2))
  ∧ (∀ input s, keeps_output (step_id step) s (store_after (fn step input s)))
  ∧ (∀ ms s, keeps_output (step_id step) s (m_store (during_sleep env ms s))).

(** A run without after-hook and without a write of a step output by the
    executor: the output the context holds for the step is the one it held
    before, unless a callback changed it. *)
Definition leaves_output (ex : Executor) (env : Env) (step : StepDefinition)
    (fn : StepExecuteFn) (w w' : World) (delta : list Action) : Prop :=
  Forall quiet delta
  ∧ (callbacks_keep_output ex env step fn ->
     stepOutputs (context (store w')) !! step_id step
     = stepOutputs (context (store w)) !! step_id step).

Lemma attempt_action_quiet (input : Value) (delta : list Action) :
  Forall (attempt_action input) delta -> Forall quiet delta.
Proof.
  intros Hact. eapply Forall_impl; [exact Hact|].
  intros a Ha. by destruct a.
Qed.

Lemma run_before_quiet sid stepInput hs current modified w :
  ∃ delta,
    trace (run_before sid stepInput hs current modified w).2 = trace w ++ delta
    ∧ Forall quiet delta.
Proof.
  destruct (run_before_prefix sid stepInput hs current modified w)
    as (ran & rest & _ & Htrace & _).
  eexists. split; [exact Htrace|].
  apply Forall_forall. intros a Ha.
  apply list_elem_of_fmap in Ha as (h & -> & _). done.
Qed.

Lemma run_before_keeps (P : Store -> Prop) sid stepInput hs current modified w :
  (∀ h view s, h ∈ hs -> P s -> P (store_after (handler h view s).2)) ->
  P (store w) -> P (store (run_before sid stepInput hs current modified w).2).
Proof.
  revert current modified w.
  induction hs as [|h hs IH]; intros current modified w Hkeep HP; simpl; [done|].
  assert (Hrest : ∀ h' view s, h' ∈ hs ->
            P s -> P (store_after (handler h' view s).2)).
  { intros h' view s Hh'. apply Hkeep. by right. }
  destruct (outcome _).
  - destruct (handler h _ _).1; apply IH; try done; simpl;
      apply Hkeep; try done; left.
  - simpl. apply Hkeep; [left|done].
Qed.

(** The actions of a step once its before-hooks are over: those of the
    attempts on [input], after-hooks and the write of the output. *)
Definition run_action (input : Value) (a : Action) : Prop :=
  match a with
  | ABody i => i = input
  | AEmit ev => type ev ∈ [STEP_START; STEP_RETRY; STEP_COMPLETE; STEP_FAILED]
  | ABeforeHook _ => False
  | _ => True
  end.

Lemma run_after_log sid stepOutput hs current errors w :
  trace (run_after sid stepOutput hs current errors w).2
  = trace w ++ map (fun h => AAfterHook (hook_id h)) hs.
Proof. apply run_after_trace. Qed.

(** What the attempts and what follows them do to the log and the heap. *)
Lemma run_step_commit ex env step fn actualInput w :
  ∃ o w' delta,
    run_step ex env step fn actualInput w = Some (o, w')
    ∧ trace w' = trace w ++ delta
    ∧ Forall (run_action actualInput) delta
    ∧ match o with
      | Returned result =>
          status result = SUCCESS
          ∧ (∃ out body_part,
               output result = Some out
               ∧ Forall quiet body_part
               ∧ delta
                 = body_part
                   ++ map (fun h => AAfterHook (hook_id h)) (after_hooks ex step)
                   ++ [ASetStepOutput (step_id step) out]
               ∧ stepOutputs (context (store w')) !! step_id step = Some out)
          ∨ status result = FAILED
            ∧ Forall quiet delta
            ∧ (∀ P : Store -> Prop,
                 body_keeps P step fn -> sleep_keeps P env ->
                 P (store w) -> P (store w'))
      | Threw t =>
          Forall quiet delta
          ∧ (∀ P : Store -> Prop,
               body_keeps P step fn -> sleep_keeps P env ->
               P (store w) -> P (store w'))
      end.
Proof.
  unfold run_step.
  destruct (executeWithRetry_returns ex env step fn actualInput
              (step_retryPolicy step) w) as [[o w1] Hrun].
  rewrite Hrun. simpl.
  destruct (executeWithRetry_run _ _ _ _ _ _ _ _ _ Hrun)
    as (delta & Hdelta & Hact & Hends & Hkeep).
  assert (Hbodies : Forall (run_action actualInput) delta).
  { eapply Forall_impl; [exact Hact|]. intros a Ha. by destruct a. }
  assert (Hstatus : match o with
                    | Returned result =>
                        status result = SUCCESS ∧ is_Some (output result)
                        ∨ status result = FAILED
                    | Threw _ => True
                    end).
  { destruct o as [result|t]; [|done].
    destruct (step_retryPolicy step).
    - destruct Hends as [(Hs & ev & out & fields & _ & _ & _ & _ & Hout)|Hf];
        [left|by right].
      split; [done|]. by eexists.
    - destruct Hends as (_ & result' & [= <-] & Hst). exact Hst. }
  destruct o as [result|t].
  - case_decide as Hok.
    + destruct Hstatus as [[_ [out Hout]]|Hf]; [|congruence].
      eexists _, _, _. split; [reflexivity|]. split.
      { unfold executeAfterHooks. simpl.
        rewrite run_after_log, Hdelta, <- !app_assoc.
        reflexivity. }
      split.
      { apply Forall_app. split; [done|]. apply Forall_app. split.
        - apply Forall_forall. intros a Ha.
          apply list_elem_of_fmap in Ha as (h & -> & _). done.
        - by repeat constructor. }
      left. split; [done|]. exists out, delta. split; [done|].
      split; [by eapply attempt_action_quiet|].
      rewrite Hout. simpl. split; [done|]. apply lookup_insert_eq.
    + destruct Hstatus as [[Hs _]|Hf]; [congruence|].
      eexists _, _, _. split; [reflexivity|]. split; [exact Hdelta|].
      split; [done|]. right. split; [done|].
      split; [by eapply attempt_action_quiet|done].
  - eexists _, _, _. split; [reflexivity|]. split; [exact Hdelta|].
    split; [done|]. split; [by eapply attempt_action_quiet|done].
Qed.

(** C10: [executeStep] always ends. When the result is [FAILED], and also
    when [executeStep] throws, the run has called no after-hook and has
    not written a step output: the output the context holds for the step
    is the one it held before, unless a callback changed it. When the
    result is [SUCCESS] the log ends with the after-hooks, in order, and
    then the single write of the output under the step's id. When the
    result is [SKIPPED] the log is the [STEP_SKIP] event and the write of
    the skip policy's default output. No other status is returned. *)
Theorem executeStep_commit ex env step fn input w :
  ∃ o w' delta,
    executeStep ex env step fn input w = Some (o, w')
    ∧ trace w' = trace w ++ delta
    ∧ match o with
      | Threw _ => leaves_output ex env step fn w w' delta
      | Returned result =>
          match status result with
          | FAILED => leaves_output ex env step fn w w' delta
          | SUCCESS =>
              ∃ out body_part,
                output result = Some out
                ∧ Forall quiet body_part
                ∧ delta
                  = body_part
                    ++ map (fun h => AAfterHook (hook_id h)) (after_hooks ex step)
                    ++ [ASetStepOutput (step_id step) out]
                ∧ stepOutputs (context (store w')) !! step_id step = Some out
          | SKIPPED =>
              ∃ sp ev,
                step_skipPolicy step = Some sp
                ∧ type ev = STEP_SKIP
                ∧ delta = [AEmit ev; ASetStepOutput (step_id step) (defaultOutput sp)]
                ∧ output result = Some (defaultOutput sp)
                ∧ stepOutputs (context (store w')) !! step_id step
                  = Some (defaultOutput sp)
          | _ => False
          end
      end.
Proof.
  unfold executeStep. case_decide as Hcancelled.
  { eexists _, _, []. split; [reflexivity|]. rewrite app_nil_r.
    split; [done|]. simpl. split; [constructor|done]. }
  set (skip := match step_skipPolicy step with
               | Some sp => shouldSkip env sp w
               | None => (Returned false, w)
               end).
  assert (Hskip : trace skip.2 = trace w).
  { subst skip. destruct (step_skipPolicy step) as [sp|]; [|done].
    unfold shouldSkip. destruct (condition sp) as [f|e]; [done|].
    by destruct (evaluate env e _). }
  assert (Hheap : callbacks_keep_output ex env step fn ->
                  keeps_output (step_id step) (store w) (store skip.2)).
  { intros (Hcond & _). subst skip.
    destruct (step_skipPolicy step) as [sp|] eqn:Hsp; [|done].
    unfold shouldSkip. destruct (condition sp) as [f|e] eqn:Hc.
    - simpl. by eapply Hcond.
    - by destruct (evaluate env e _). }
  assert (Hmain :
    ∃ o w' delta,
      (let before :=
         executeBeforeHooks (hookManager ex) (step_id step) input
           (step_hooks step) skip.2 in
       if negb (success before.1) then
         let failed :=
           emitEvent ex STEP_FAILED (step_id step)
             (VObject [("error", message_of (hook_error before.1));
                       ("phase", VString "beforeHook")]) before.2 in
         match failed.1 with
         | Some t => Some (Threw t, failed.2)
         | None =>
             Some (Returned {| stepId := step_id step; status := FAILED;
                               output := None; error := hook_error before.1;
                               retryCount := None |}, failed.2)
         end
       else
         run_step ex env step fn (output_value (modifiedInput before.1))
           before.2)
      = Some (o, w')
      ∧ trace w' = trace w ++ delta
      ∧ match o with
        | Threw _ => leaves_output ex env step fn w w' delta
        | Returned result =>
            match status result with
            | FAILED => leaves_output ex env step fn w w' delta
            | SUCCESS =>
                ∃ out body_part,
                  output result = Some out
                  ∧ Forall quiet body_part
                  ∧ delta
                    = body_part
                      ++ map (fun h => AAfterHook (hook_id h))
                           (after_hooks ex step)
                      ++ [ASetStepOutput (step_id step) out]
                  ∧ stepOutputs (context (store w')) !! step_id step
                    = Some out
            | _ => False
            end
        end).
  { cbv zeta. unfold executeBeforeHooks.
    change (globalBeforeHooks (hookManager ex)
            ++ default [] (step_hooks step ≫= beforeHooks))
      with (before_hooks ex step).
    set (before := run_before (step_id step) input (before_hooks ex step)
                     input false skip.2).
    destruct (run_before_quiet (step_id step) input (before_hooks ex step)
                input false skip.2) as (d1 & Hd1 & Hq1).
    fold before in Hd1. rewrite Hskip in Hd1.
    assert (Hbefore : callbacks_keep_output ex env step fn ->
                      keeps_output (step_id step) (store w) (store before.2)).
    { intros Hkeep. pose proof (Hheap Hkeep) as Hs.
      destruct Hkeep as (_ & Hhooks & _). unfold before.
      apply (run_before_keeps
               (fun s => keeps_output (step_id step) (store w) s)); [|done].
      intros h view s Hh Hs'. unfold keeps_output in *.
      by rewrite (Hhooks h view s Hh). }
    assert (Hleaves : ∀ w' d2,
              trace w' = trace before.2 ++ d2 ->
              Forall quiet d2 ->
              (∀ P : Store -> Prop,
                 body_keeps P step fn -> sleep_keeps P env ->
                 P (store before.2) -> P (store w')) ->
              trace w' = trace w ++ d1 ++ d2
              ∧ leaves_output ex env step fn w w' (d1 ++ d2)).
    { intros w' d2 Hd2 Hq2 Hkeep2. split.
      { by rewrite Hd2, Hd1, <- app_assoc. }
      split; [by apply Forall_app|].
      intros Hkeep. pose proof (Hbefore Hkeep) as Hb.
      destruct Hkeep as (_ & _ & Hbody & Hsleep).
      apply (Hkeep2 (fun s => keeps_output (step_id step) (store w) s)).
      - intros i s Hs. unfold keeps_output in *. by rewrite (Hbody i s).
      - intros ms s Hs. unfold keeps_output in *. by rewrite (Hsleep ms s).
      - exact Hb. }
    destruct (success before.1).
    - simpl negb. cbv iota.
      destruct (run_step_commit ex env step fn
                  (output_value (modifiedInput before.1)) before.2)
        as (o & w' & d2 & Hrun & Hd2 & _ & Hshape).
      exists o, w', (d1 ++ d2). split; [exact Hrun|].
      destruct o as [result|t].
      + destruct Hshape as [(Hs & out & body_part & Hout & Hq & -> & Hstored)
                           |(Hf & Hq & Hkeep2)].
        * split; [by rewrite Hd2, Hd1, <- app_assoc|].
          rewrite Hs. exists out, (d1 ++ body_part). split; [done|].
          split; [by apply Forall_app|]. split; [|done].
          by rewrite <- !app_assoc.
        * rewrite Hf. by apply Hleaves.
      + destruct Hshape as (Hq & Hkeep2). by apply Hleaves.
    - simpl negb. cbv iota.
      pose proof (trace_emitEvent ex STEP_FAILED (step_id step)
                    (VObject [("error", message_of (hook_error before.1));
                              ("phase", VString "beforeHook")]) before.2)
        as Hlog.
      destruct (Hleaves _ _ Hlog) as [Htr Hleft];
        [by repeat constructor|by intros P _ _ HP|].
      destruct (emitEvent ex STEP_FAILED _ _ _).1 as [t|];
        eexists _, _, _; (split; [reflexivity|]); by split. }
  destruct skip.1 as [[|]|t] eqn:Hs.
  - destruct (step_skipPolicy step) as [sp|] eqn:Hsp.
    + destruct (emitEvent ex STEP_SKIP _ _ _).1 as [t|].
      * eexists _, _, _. split; [reflexivity|]. split.
        { log_steps. rewrite Hskip. reflexivity. }
        split; [by repeat constructor|]. intros Hkeep. by apply Hheap.
      * eexists _, _, _. split; [reflexivity|]. split.
        { log_steps. rewrite Hskip. reflexivity. }
        simpl. eexists sp, _. split; [done|].
        split; [|split; [reflexivity|split; [reflexivity|apply lookup_insert_eq]]].
        reflexivity.
    + subst skip. simpl in Hs. discriminate.
  - destruct Hmain as (o & w' & delta & Hrun & Htr & Hshape).
    exists o, w', delta. split; [exact Hrun|]. split; [exact Htr|].
    destruct o as [result|]; [|done].
    destruct (status result); done.
  - eexists _, _, []. split; [reflexivity|].
    rewrite app_nil_r, Hskip. split; [done|]. split; [constructor|].
    intros Hkeep. by apply Hheap.
Qed.

(** *** How often and how long a run retries *)

(** The attempts and sleeps of a log, in order: [None] for a call of the
    body, [Some ms] for a sleep with a delay of [ms] milliseconds. *)
Definition schedule (tr : list Action) : list (option Z) :=
  omap (fun a =>
          match a with
          | ABody _ => Some None
          | ASleep ms _ => Some (Some ms)
          | _ => None
          end) tr.

Lemma schedule_app (t1 t2 : list Action) :
  schedule (t1 ++ t2) = schedule t1 ++ schedule t2.
Proof. apply omap_app. Qed.

(** The interval [getNextRetryInterval] gives after [i] retries. *)
Definition retry_interval (env : Env) (p : RetryPolicy) (i : Z) : Z :=
  getNextRetryInterval env {| policy := p; currentRetryCount := i |}.

(** [n] rounds of sleeping and retrying, the first after [c] retries. *)
Fixpoint rounds (env : Env) (p : RetryPolicy) (c : Z) (n : nat)
    : list (option Z) :=
  match n with
  | O => []
  | S n' => Some (retry_interval env p c) :: None :: rounds env p (c + 1) n'
  end.

Lemma rounds_seq (env : Env) (p : RetryPolicy) (n s : nat) :
  rounds env p (Z.of_nat s) n
  = flat_map (fun i : nat => [Some (retry_interval env p (Z.of_nat i)); None])
      (seq s n).
Proof.
  revert s. induction n as [|n IH]; intros s; simpl; [done|].
  f_equal. f_equal. rewrite <- IH. f_equal. lia.
Qed.

Lemma rounds_constant (env : Env) (p : RetryPolicy) (c : Z) (n : nat) (ms : Z) :
  exponentialBackoff p ≠ Some true ->
  Some ms ∈ rounds env p c n -> ms = retryInterval p.
Proof.
  intros Hflat. revert c. induction n as [|n IH]; intros c; simpl.
  - intros Hin. inversion Hin.
  - intros Hin. apply elem_of_cons in Hin as [[= ->]|Hin].
    + unfold retry_interval, getNextRetryInterval. simpl.
      by destruct (exponentialBackoff p) as [[]|].
    + apply elem_of_cons in Hin as [Hin|Hin]; [done|]. by apply (IH (c + 1)).
Qed.

Lemma retry_loop_rounds fuel ex env step fn input rs lastError w o w' :
  retry_loop fuel ex env step fn input rs lastError w = Some (o, w') ->
  ∃ delta n,
    trace w' = trace w ++ delta
    ∧ (n ≤ Z.to_nat (maxRetries (policy rs) - currentRetryCount rs))%nat
    ∧ schedule delta `prefix_of` rounds env (policy rs) (currentRetryCount rs) n
    ∧ (body_calls delta ≤ n)%nat
    ∧ ∀ result,
        o = Returned result ->
        schedule delta = rounds env (policy rs) (currentRetryCount rs) n
        ∧ body_calls delta = n.
Proof.
  revert rs lastError w o w'.
  assert (Hused : ∀ rs lastError w o w',
    match (emitEvent ex STEP_FAILED (step_id step)
             (VObject [("error", message_of lastError);
                       ("retryCount", VNumber (currentRetryCount rs));
                       ("maxRetries", VNumber (maxRetries (policy rs)))]) w).1
    with
    | Some t =>
        Some (Threw t,
              (emitEvent ex STEP_FAILED (step_id step)
                 (VObject [("error", message_of lastError);
                           ("retryCount", VNumber (currentRetryCount rs));
                           ("maxRetries", VNumber (maxRetries (policy rs)))])
                 w).2)
    | None =>
        Some (Returned {| stepId := step_id step; status := FAILED;
                          output := None; error := lastError;
                          retryCount := Some (currentRetryCount rs) |},
              (emitEvent ex STEP_FAILED (step_id step)
                 (VObject [("error", message_of lastError);
                           ("retryCount", VNumber (currentRetryCount rs));
                           ("maxRetries", VNumber (maxRetries (policy rs)))])
                 w).2)
    end = Some (o, w') ->
    ∃ delta n,
      trace w' = trace w ++ delta
      ∧ (n ≤ Z.to_nat (maxRetries (policy rs) - currentRetryCount rs))%nat
      ∧ schedule delta
        `prefix_of` rounds env (policy rs) (currentRetryCount rs) n
      ∧ (body_calls delta ≤ n)%nat
      ∧ ∀ result,
          o = Returned result ->
          schedule delta = rounds env (policy rs) (currentRetryCount rs) n
          ∧ body_calls delta = n).
  { intros rs lastError w o w'.
    destruct (emitEvent ex STEP_FAILED _ _ _).1; run_result;
      eexists _, 0%nat; (split; [apply trace_emitEvent|]);
      (split; [lia|]); done. }
  induction fuel as [|fuel IH]; intros rs lastError w o w'; cbn.
  - destruct (canRetry rs); [done|]. apply Hused.
  - unfold canRetry. case_bool_decide as Hcan; [|apply Hused].
    case_decide.
    { run_result. exists [], 0%nat. rewrite app_nil_r.
      split; [done|]. split; [lia|]. done. }
    assert (Hsleep : getNextRetryInterval env rs
                     = retry_interval env (policy rs) (currentRetryCount rs)).
    { by destruct rs. }
    destruct (emitEvent ex STEP_RETRY _ _ _).1 as [t|] eqn:Hretry.
    { run_result. eexists _, 1%nat. split; [log_steps; reflexivity|].
      split; [lia|]. rewrite !schedule_app. simpl. rewrite Hsleep.
      split; [apply prefix_cons, prefix_nil|].
      split; [unfold body_calls; simpl; lia|]. by intros result [= ]. }
    case_decide as Hok.
    + destruct (emitEvent ex STEP_COMPLETE _ _ _).1 as [t|];
        run_result; eexists _, 1%nat; (split; [log_steps; reflexivity|]);
        (split; [lia|]); rewrite !schedule_app; simpl; rewrite Hsleep;
        (split; [done|]); unfold body_calls; simpl; by split.
    + intros Hloop.
      apply IH in Hloop
        as (delta & n & Hdelta & Hbound & Hsched & Hbody & Hres).
      cbn [policy currentRetryCount recordRetry] in Hbound, Hsched, Hres.
      eexists _, (S n). split; [rewrite Hdelta; log_steps; reflexivity|].
      split; [lia|]. rewrite !schedule_app, !body_calls_app. simpl.
      rewrite Hsleep. split; [by apply prefix_cons, prefix_cons|].
      split; [unfold body_calls in *; simpl; lia|].
      intros result Ho. destruct (Hres result Ho) as [-> ->].
      split; [done|]. unfold body_calls. simpl. lia.
Qed.

(** X16: Under a retry policy a run of [executeWithRetry] ends, and its calls
    of the body and its sleeps follow the schedule of one call and then at
    most [maxRetries] rounds of a sleep and a call, the sleep of a round
    having the delay [getNextRetryInterval] gives for the number of retries
    so far. A run that returns a result has gone through whole rounds; an
    exception of a subscriber can only cut the schedule short. Without
    exponential backoff every sleep has the delay [retryInterval]. *)
Theorem retries_bounded ex env step fn input p w :
  ∃ o w' delta n,
    executeWithRetry ex env step fn input (Some p) w = Some (o, w')
    ∧ trace w' = trace w ++ delta
    ∧ (n ≤ Z.to_nat (maxRetries p))%nat
    ∧ schedule delta
      `prefix_of`
      None :: flat_map
                (fun i : nat => [Some (retry_interval env p (Z.of_nat i)); None])
                (seq 0 n)
    ∧ (body_calls delta ≤ S n)%nat
    ∧ (∀ result,
         o = Returned result ->
         schedule delta
         = None :: flat_map
                     (fun i : nat =>
                        [Some (retry_interval env p (Z.of_nat i)); None])
                     (seq 0 n)
         ∧ body_calls delta = S n)
    ∧ (exponentialBackoff p ≠ Some true ->
       ∀ ms, Some ms ∈ schedule delta -> ms = retryInterval p).
Proof.
  destruct (executeWithRetry_returns ex env step fn input (Some p) w)
    as [[o w'] Hrun].
  exists o, w'.
  cut (∃ delta n,
         trace w' = trace w ++ delta
         ∧ (n ≤ Z.to_nat (maxRetries p))%nat
         ∧ schedule delta `prefix_of` None :: rounds env p (Z.of_nat 0) n
         ∧ (body_calls delta ≤ S n)%nat
         ∧ ∀ result,
             o = Returned result ->
             schedule delta = None :: rounds env p (Z.of_nat 0) n
             ∧ body_calls delta = S n).
  { intros (delta & n & Hdelta & Hbound & Hsched & Hbody & Hres).
    exists delta, n. rewrite <- rounds_seq.
    split; [done|]. split; [done|]. split; [done|]. split; [done|].
    split; [done|]. split; [done|].
    intros Hflat ms Hin.
    destruct Hsched as [more Hmore].
    assert (Hin' : Some ms ∈ None :: rounds env p (Z.of_nat 0) n).
    { rewrite Hmore. apply elem_of_app. by left. }
    apply elem_of_cons in Hin' as [Hin'|Hin']; [done|].
    by apply (rounds_constant env p (Z.of_nat 0) n). }
  revert Hrun. unfold executeWithRetry.
  destruct (emitEvent ex STEP_START _ _ _).1 as [t|].
  { run_result. eexists _, 0%nat. split; [log_steps; reflexivity|].
    split; [lia|]. split; [apply prefix_nil|].
    split; [unfold body_calls; simpl; lia|]. by intros result [= ]. }
  case_decide as Hok.
  - destruct (emitEvent ex STEP_COMPLETE _ _ _).1 as [t|];
      run_result; eexists _, 0%nat; (split; [log_steps; reflexivity|]);
      (split; [lia|]); rewrite !schedule_app; simpl;
      (split; [done|]); unfold body_calls; simpl; by split.
  - intros Hloop.
    apply retry_loop_rounds in Hloop
      as (delta & n & Hdelta & Hbound & Hsched & Hbody & Hres).
    cbn [policy currentRetryCount newRetryStrategy] in Hbound, Hsched, Hres.
    eexists _, n. split; [rewrite Hdelta; log_steps; reflexivity|].
    split; [lia|]. rewrite !schedule_app, !body_calls_app. simpl.
    split; [by apply prefix_cons|].
    split; [unfold body_calls in *; simpl; lia|].
    intros result Ho. destruct (Hres result Ho) as [-> ->].
    split; [done|]. unfold body_calls. simpl. lia.
Qed.

(** *** The body runs after the before-hooks, on the input they hand on *)

(** Every call of the body in [delta] is on [input]. *)
Definition bodies_on (input : Value) (delta : list Action) : Prop :=
  ∀ i, ABody i ∈ delta -> i = input.

Lemma bodies_on_run (input : Value) (delta : list Action) :
  Forall (run_action input) delta -> bodies_on input delta.
Proof.
  intros Hall i Hi. rewrite Forall_forall in Hall.
  exact (Hall _ Hi).
Qed.

Lemma hooks_no_body (mark : string -> Action) (hs : list HookHandler) :
  (∀ hid, is_body (mark hid) = false) ->
  body_calls (map (fun h => mark (hook_id h)) hs) = 0%nat.
Proof.
  intros Hmark. unfold body_calls.
  induction hs as [|h hs IH]; simpl; [done|].
  rewrite filter_cons. rewrite Hmark. simpl. exact IH.
Qed.

(** X17: Whenever [executeStep] calls the body, all the before-hooks have been
    called first, the global ones and then those of the step, none of them
    threw, and every call of the body, retries included, is on the input
    the before-hooks handed on. The before-hooks ran in the world [w0] the
    skip condition left: [w] itself, or [w] after the condition function. *)
Theorem body_called_after_before_hooks ex env step fn input w :
  ∃ o w' delta,
    executeStep ex env step fn input w = Some (o, w')
    ∧ trace w' = trace w ++ delta
    ∧ (body_calls delta = 0%nat
       ∨ ∃ w0 actual rest,
           (w0 = w
              ∨ ∃ sp f, step_skipPolicy step = Some sp
                        ∧ condition sp = ConditionFn f
                        ∧ w0 = absorb (f (store w)) w)
           ∧ success (executeBeforeHooks (hookManager ex) (step_id step)
                        input (step_hooks step) w0).1 = true
           ∧ modifiedInput (executeBeforeHooks (hookManager ex) (step_id step)
                              input (step_hooks step) w0).1 = Some actual
           ∧ delta
             = map (fun h => ABeforeHook (hook_id h)) (before_hooks ex step)
               ++ rest
           ∧ bodies_on actual rest).
Proof.
  unfold executeStep. case_decide as Hcancelled.
  { eexists _, _, []. split; [reflexivity|]. rewrite app_nil_r.
    split; [done|]. by left. }
  set (skip := match step_skipPolicy step with
               | Some sp => shouldSkip env sp w
               | None => (Returned false, w)
               end).
  assert (Hskip : trace skip.2 = trace w).
  { unfold skip. destruct (step_skipPolicy step) as [sp|]; [|done].
    unfold shouldSkip. destruct (condition sp); [done|].
    by destruct (evaluate env expression (context (store w))). }
  assert (Hworld : skip.2 = w
                   ∨ ∃ sp f, step_skipPolicy step = Some sp
                             ∧ condition sp = ConditionFn f
                             ∧ skip.2 = absorb (f (store w)) w).
  { unfold skip. destruct (step_skipPolicy step) as [sp|]; [|by left].
    unfold shouldSkip. destruct (condition sp) as [f|expression] eqn:Hcond.
    - right. by exists sp, f.
    - left. by destruct (evaluate env expression (context (store w))). }
  set (before := executeBeforeHooks (hookManager ex) (step_id step) input
                   (step_hooks step) skip.2).
  assert (Hgo :
    ∃ o w' delta,
      (if negb (success before.1) then
         let failed :=
           emitEvent ex STEP_FAILED (step_id step)
             (VObject [("error", message_of (hook_error before.1));
                       ("phase", VString "beforeHook")]) before.2 in
         match failed.1 with
         | Some t => Some (Threw t, failed.2)
         | None =>
             Some (Returned {| stepId := step_id step; status := FAILED;
                               output := None; error := hook_error before.1;
                               retryCount := None |}, failed.2)
         end
       else
         run_step ex env step fn (output_value (modifiedInput before.1))
           before.2)
      = Some (o, w')
      ∧ trace w' = trace w ++ delta
      ∧ (body_calls delta = 0%nat
         ∨ ∃ w0 actual rest,
             (w0 = w
              ∨ ∃ sp f, step_skipPolicy step = Some sp
                        ∧ condition sp = ConditionFn f
                        ∧ w0 = absorb (f (store w)) w)
             ∧ success (executeBeforeHooks (hookManager ex) (step_id step)
                          input (step_hooks step) w0).1 = true
             ∧ modifiedInput (executeBeforeHooks (hookManager ex) (step_id step)
                                input (step_hooks step) w0).1 = Some actual
             ∧ delta
               = map (fun h => ABeforeHook (hook_id h)) (before_hooks ex step)
                 ++ rest
             ∧ bodies_on actual rest)).
  { destruct (run_before_prefix (step_id step) input (before_hooks ex step)
                input false skip.2) as (ran & rest & Hhooks & Htrace & Hresult).
    change (run_before (step_id step) input (before_hooks ex step) input false
              skip.2) with before in Htrace, Hresult.
    destruct (success before.1) eqn:Hok; simpl negb; cbv iota.
    - destruct Hresult as (-> & _ & [actual Hactual]).
      rewrite app_nil_r in Hhooks. subst ran.
      destruct (run_step_commit ex env step fn
                  (output_value (modifiedInput before.1)) before.2)
        as (o & w' & d2 & Hrun & Hd2 & Hbodies & _).
      exists o, w'. eexists. split; [exact Hrun|]. split.
      { rewrite Hd2, Htrace, Hskip, <- app_assoc. reflexivity. }
      right. exists skip.2, actual, d2. split; [exact Hworld|].
      split; [done|]. split; [done|]. split; [done|].
      apply bodies_on_run. by rewrite Hactual in Hbodies.
    - cbv zeta.
      destruct (emitEvent ex STEP_FAILED _ _ _).1 as [t|];
        (eexists _, _, _; split; [reflexivity|]);
        (split; [log_steps; rewrite Htrace, Hskip, <- app_assoc; reflexivity|]);
        left; rewrite body_calls_app; by rewrite hooks_no_body. }
  destruct skip.1 as [[]|t] eqn:Hdecision.
  - destruct (step_skipPolicy step) as [sp|] eqn:Hpolicy.
    + destruct (emitEvent ex STEP_SKIP _ _ _).1 as [t|];
        (eexists _, _, _; split; [reflexivity|]);
        (split; [log_steps; rewrite Hskip; reflexivity|]); by left.
    + exact Hgo.
  - destruct (step_skipPolicy step); exact Hgo.
  - eexists _, _, []. split; [reflexivity|]. rewrite app_nil_r.
    split; [done|]. by left.
Qed.

(** *** Cancelling a step *)

(** [Executor.isCancelled]. *)
Definition isCancelled (sid : string) (cancelled : gset string) : bool :=
  bool_decide (sid ∈ cancelled).

(** The world after a call of [cancelStep]. *)
Definition cancel_in (sid : string) (w : World) : World :=
  {| cancelledSteps := cancelStep sid (cancelledSteps w); store := store w;
     trace := trace w; clock := clock w |}.

(** X18: After [cancelStep] the step is cancelled until [clearCancellation], the
    other steps are as they were, and [executeStep] for the step returns at
    once: the result is [FAILED] with the cancellation error, and no skip
    condition, hook or body was run and no event emitted. *)
Theorem cancelled_step_fails ex env step fn input w :
  executeStep ex env step fn input (cancel_in (step_id step) w)
  = Some (Returned {| stepId := step_id step; status := FAILED;
                      output := None; error := Some cancelled_error;
                      retryCount := None |},
          cancel_in (step_id step) w)
  ∧ isCancelled (step_id step) (cancelledSteps (cancel_in (step_id step) w))
    = true
  ∧ isCancelled (step_id step)
      (clearCancellation (step_id step)
         (cancelledSteps (cancel_in (step_id step) w))) = false
  ∧ ∀ other, other ≠ step_id step ->
      isCancelled other (cancelledSteps (cancel_in (step_id step) w))
      = isCancelled other (cancelledSteps w)
      ∧ isCancelled other
          (clearCancellation (step_id step) (cancelledSteps w))
        = isCancelled other (cancelledSteps w).
Proof.
  assert (Hin : step_id step ∈ cancelledSteps (cancel_in (step_id step) w)).
  { simpl. unfold cancelStep. apply elem_of_union. right.
    by apply elem_of_singleton. }
  split; [|split; [|split]].
  - unfold executeStep. by rewrite decide_True.
  - by apply bool_decide_eq_true.
  - apply bool_decide_eq_false. unfold clearCancellation.
    rewrite elem_of_difference, elem_of_singleton. tauto.
  - intros other Hother. unfold isCancelled. split; apply bool_decide_ext.
    + simpl. unfold cancelStep. rewrite elem_of_union, elem_of_singleton. tauto.
    + unfold clearCancellation. rewrite elem_of_difference, elem_of_singleton.
      tauto.
Qed.

(** *** Deciding whether to skip *)

(** A run from the world [w0] that skips the step: [STEP_SKIP] is handed to
    the bus; when a subscriber throws, that exception leaves [executeStep]
    and nothing is stored; otherwise the default output of the policy is
    stored under the step's id and returned with the status [SKIPPED].
    Nothing else is called. *)
Definition skips (ex : Executor) (step : StepDefinition) (sp : SkipPolicy)
    (w0 : World) (run : option (Outcome StepResult * World)) : Prop :=
  ∃ ev o w',
    run = Some (o, w')
    ∧ type ev = STEP_SKIP
    ∧ Events.stepId ev = Some (step_id step)
    ∧ match raised (emit (eventEmitter ex) ev) with
      | Some t =>
          o = Threw t
          ∧ trace w' = trace w0 ++ [AEmit ev]
          ∧ store w' = store w0
      | None =>
          o = Returned {| stepId := step_id step; status := SKIPPED;
                          output := Some (defaultOutput sp); error := None;
                          retryCount := None |}
          ∧ trace w' = trace w0
                       ++ [AEmit ev;
                           ASetStepOutput (step_id step) (defaultOutput sp)]
          ∧ store w'
            = {| context := setStepOutput (context (store w0)) (step_id step)
                              (defaultOutput sp);
                 vars := vars (store w0) |}
      end.

(** A run from the world [w0] that ends without skipping the step: no
    [STEP_SKIP] event is handed to the bus, and the result, if there is
    one, is not [SKIPPED]. *)
Definition runs_unskipped (w0 : World)
    (run : option (Outcome StepResult * World)) : Prop :=
  ∃ o w' delta,
    run = Some (o, w')
    ∧ trace w' = trace w0 ++ delta
    ∧ Forall (fun a => emitted STEP_SKIP a = false) delta
    ∧ ∀ result, o = Returned result -> status result ≠ SKIPPED.

Lemma run_action_no_skip (input : Value) (delta : list Action) :
  Forall (run_action input) delta ->
  Forall (fun a => emitted STEP_SKIP a = false) delta.
Proof.
  intros Hact. eapply Forall_impl; [exact Hact|].
  intros a Ha. destruct a; try done. simpl in *.
  apply bool_decide_eq_false. intros Hskip. rewrite Hskip in Ha.
  repeat (apply elem_of_cons in Ha as [Ha|Ha]; [discriminate|]).
  by apply elem_of_nil in Ha.
Qed.

Lemma skipped_run ex step sp w :
  skips ex step sp w
    (let skipped :=
       emitEvent ex STEP_SKIP (step_id step)
         (VObject [("reason", VString "满足跳过条件")]) w in
     match skipped.1 with
     | Some t => Some (Threw t, skipped.2)
     | None =>
         Some (Returned {| stepId := step_id step; status := SKIPPED;
                           output := Some (getDefaultOutput sp);
                           error := None; retryCount := None |},
               commit_output (step_id step) (getDefaultOutput sp) skipped.2)
     end).
Proof.
  cbv zeta. unfold skips.
  pose proof (emitEvent_raised ex STEP_SKIP (step_id step)
                (VObject [("reason", VString "满足跳过条件")]) w) as Hraised.
  destruct (emitEvent ex STEP_SKIP _ _ _).1 as [t|];
    exists (createWorkflowEvent STEP_SKIP (workflowId ex) (instanceId ex)
              (VObject [("reason", VString "满足跳过条件")])
              (Some (step_id step)) (clock w));
    eexists _, _; (split; [reflexivity|]);
    (split; [reflexivity|]); (split; [reflexivity|]);
    rewrite <- Hraised; repeat split.
  log_steps. reflexivity.
Qed.

Lemma unskipped ex env step fn (before : HookExecutionResult * World)
    (w0 : World) (hooks : list HookHandler) :
  trace before.2
  = trace w0 ++ map (fun h => ABeforeHook (hook_id h)) hooks ->
  runs_unskipped w0
    (if negb (success before.1) then
       let failed :=
         emitEvent ex STEP_FAILED (step_id step)
           (VObject [("error", message_of (hook_error before.1));
                     ("phase", VString "beforeHook")]) before.2 in
       match failed.1 with
       | Some t => Some (Threw t, failed.2)
       | None =>
           Some (Returned {| stepId := step_id step; status := FAILED;
                             output := None; error := hook_error before.1;
                             retryCount := None |}, failed.2)
       end
     else
       run_step ex env step fn (output_value (modifiedInput before.1))
         before.2).
Proof.
  intros Htrace.
  assert (Hhooks : Forall (fun a => emitted STEP_SKIP a = false)
                     (map (fun h => ABeforeHook (hook_id h)) hooks)).
  { apply Forall_forall. intros a Ha.
    apply list_elem_of_fmap in Ha as (h & -> & _). done. }
  destruct (success before.1); simpl negb; cbv iota.
  - destruct (run_step_commit ex env step fn
                (output_value (modifiedInput before.1)) before.2)
      as (o & w' & d2 & Hrun & Hd2 & Hact & Hshape).
    exists o, w'. eexists. split; [exact Hrun|]. split.
    { rewrite Hd2, Htrace, <- app_assoc. reflexivity. }
    split.
    { apply Forall_app. split; [done|]. by eapply run_action_no_skip. }
    intros result ->.
    destruct Hshape as [[Hs _]|[Hf _]]; by rewrite ?Hs, ?Hf.
  - cbv zeta.
    destruct (emitEvent ex STEP_FAILED _ _ _).1 as [t|];
      (eexists _, _, _; split; [reflexivity|]);
      (split; [log_steps; rewrite Htrace, <- app_assoc; reflexivity|]);
      (split; [apply Forall_app; split; [done|by repeat constructor]|]).
    + by intros result [= ].
    + by intros result [= <-].
Qed.

(** X19: What a skip policy decides for a step that is not cancelled. A
    condition given as an expression skips the step exactly when the
    expression evaluates to a truthy value; when its evaluation throws, the
    step is not skipped. A condition given as a function skips the step
    exactly when the function returns [true], and an exception it throws
    leaves [executeStep] to its caller. Skipping hands [STEP_SKIP] to the
    bus and then stores and returns the default output, unless a
    subscriber throws on the event. *)
Theorem skip_condition_decides ex env step fn input w sp :
  step_id step ∉ cancelledSteps w ->
  step_skipPolicy step = Some sp ->
  match condition sp with
  | ConditionExpr expression =>
      match evaluate env expression (context (store w)) with
      | Returned v =>
          if truthy_value v
          then skips ex step sp w (executeStep ex env step fn input w)
          else runs_unskipped w (executeStep ex env step fn input w)
      | Threw _ => runs_unskipped w (executeStep ex env step fn input w)
      end
  | ConditionFn f =>
      match outcome (f (store w)) with
      | Returned true =>
          skips ex step sp (absorb (f (store w)) w)
            (executeStep ex env step fn input w)
      | Returned false =>
          runs_unskipped (absorb (f (store w)) w)
            (executeStep ex env step fn input w)
      | Threw t =>
          executeStep ex env step fn input w
          = Some (Threw t, absorb (f (store w)) w)
      end
  end.
Proof.
  intros Hcancelled Hpolicy. unfold executeStep.
  rewrite decide_False by done. rewrite Hpolicy. unfold shouldSkip.
  assert (Hbefore : ∀ w0,
            trace (executeBeforeHooks (hookManager ex) (step_id step) input
                     (step_hooks step) w0).2
            = trace w0
              ++ map (fun h => ABeforeHook (hook_id h))
                   (take (length (trace (executeBeforeHooks (hookManager ex)
                                           (step_id step) input
                                           (step_hooks step) w0).2)
                          - length (trace w0))
                      (before_hooks ex step))).
  { intros w0. unfold executeBeforeHooks.
    destruct (run_before_prefix (step_id step) input (before_hooks ex step)
                input false w0) as (ran & rest & Hhooks & Htrace & _).
    change (globalBeforeHooks (hookManager ex)
            ++ default [] (step_hooks step ≫= beforeHooks))
      with (before_hooks ex step).
    rewrite Htrace at 1. f_equal. f_equal.
    rewrite Htrace, length_app, length_map, Hhooks.
    replace (length (trace w0) + length ran - length (trace w0))%nat
      with (length ran) by lia.
    by rewrite take_app_length. }
  destruct (condition sp) as [f|expression].
  - cbn [fst snd]. destruct (outcome (f (store w))) as [[]|t]; cbn [fst snd].
    + apply skipped_run.
    + by eapply unskipped.
    + done.
  - destruct (evaluate env expression (context (store w))) as [v|t];
      cbn [fst snd].
    + destruct (truthy_value v); [apply skipped_run|by eapply unskipped].
    + by eapply unskipped.
Qed.

(** A step that is skipped when the global [mode] is the string [fast]. *)
Definition fast_skip : SkipPolicy :=
  {| condition := ConditionExpr "ctx.getGlobal('mode') === 'fast'";
     defaultOutput := VString "skipped" |}.

Definition skippable_step : StepDefinition :=
  {| step_id := "s1"; step_name := "s1"; step_type := "task";
     step_dependencies := None; step_retryPolicy := None;
     step_skipPolicy := Some fast_skip; step_hooks := None;
     step_tools := None |}.

(** A host that knows this one expression. *)
Definition fast_env : Env :=
  {| during_sleep := fun ms s =>
       {| m_store := s; m_calls := []; m_elapsed := ms |};
     evaluate := fun _ c =>
       Returned (VBool match getGlobal c "mode" with
                       | VString mode => bool_decide (mode = "fast")
                       | _ => false
                       end);
     times_pow := fun b m e => b * m ^ e |}.

Definition fast_world : World :=
  {| cancelledSteps := ∅;
     store := {| context := {| ctx_workflowId := "wf"; ctx_instanceId := "run-1";
                               stepOutputs := ∅;
                               globals := {["mode" := VString "fast"]} |};
                 vars := ∅ |};
     trace := []; clock := 0 |}.

Lemma skip_condition_decides_witness :
  skips bare_executor skippable_step fast_skip fast_world
    (executeStep bare_executor fast_env skippable_step pass_through VNull
       fast_world).
Proof.
  apply (skip_condition_decides bare_executor fast_env skippable_step
           pass_through VNull fast_world fast_skip).
  - apply (bool_decide_unpack _). vm_compute. exact I.
  - reflexivity.
Defined.

End Executor.

(** ** Tool invoker ([tools/index.ts]) and tool registry
       ([registry/index.ts]) *)

Module Tools.
Import Core Events.

(** *** The schema validator *)

Inductive SchemaType : Type := TString | TNumber | TBoolean | TObject | TArray.

Definition type_name (t : SchemaType) : string :=
  match t with
  | TString => "string"
  | TNumber => "number"
  | TBoolean => "boolean"
  | TObject => "object"
  | TArray => "array"
  end.

(** [JSONSchema]: [type], [properties?], [items?], [required?]. *)
Inductive JSONSchema : Type :=
  | Schema (ty : SchemaType)
      (properties : option (list (string * JSONSchema)))
      (items : option JSONSchema)
      (required : option (list string)).

Definition schema_type (s : JSONSchema) : SchemaType :=
  match s with Schema ty _ _ _ => ty end.

Record SchemaValidationResult : Type := mkSchemaResult {
  valid : bool;
  errors : list string;
}.

(** [getValueType]: ["null"], ["array"], or [typeof]. *)
Definition getValueType (v : Value) : string :=
  match v with
  | VNull => "null"
  | VArray _ => "array"
  | VUndefined => "undefined"
  | VBool _ => "boolean"
  | VNumber _ => "number"
  | VString _ => "string"
  | VObject _ => "object"
  end.

(** The methods every plain object inherits from [Object.prototype]. *)
Definition object_prototype_methods : list string :=
  ["constructor"; "__defineGetter__"; "__defineSetter__"; "hasOwnProperty";
   "__lookupGetter__"; "__lookupSetter__"; "isPrototypeOf";
   "propertyIsEnumerable"; "toString"; "valueOf"; "toLocaleString"].

(** What the validator can be handed: a JSON value, or what a plain object
    inherits and the validator reaches through [obj[propName]], a method
    of [Object.prototype] or, under the name [__proto__],
    [Object.prototype] itself. *)
Inductive Reached : Type :=
  | Json (v : Value)
  | Method
  | ObjectPrototype.

(** [getValueType] on what is reached: a method is a ["function"]. *)
Definition reached_type (r : Reached) : string :=
  match r with
  | Json v => getValueType v
  | Method => "function"
  | ObjectPrototype => "object"
  end.

(** What a plain object inherits under [name]. *)
Definition inherited (name : string) : option Reached :=
  if decide (name = "__proto__") then Some ObjectPrototype
  else if decide (name ∈ object_prototype_methods) then Some Method
  else None.

(** [obj[name]] when [name in obj], for an object: the [in] operator and
    the property access both follow the prototype chain, so that an own
    property comes first, then what [Object.prototype] holds. The
    [__proto__] of [Object.prototype] is [null]. *)
Definition get_property (name : string) (obj : Reached) : option Reached :=
  match obj with
  | Json (VObject props) =>
      match OMap.get name props with
      | Some v => Some (Json v)
      | None => inherited name
      end
  | ObjectPrototype =>
      if decide (name = "__proto__") then Some (Json VNull)
      else if decide (name ∈ object_prototype_methods) then Some Method
      else None
  | _ => None
  end.

(** [field in obj]. *)
Definition has_property (field : string) (obj : Reached) : bool :=
  bool_decide (is_Some (get_property field obj)).

Definition dquote : string := String (Ascii.ascii_of_nat 34) EmptyString.

Definition type_mismatch (currentPath expected actual : string) : string :=
  currentPath +:+ ": 期望类型 " +:+ expected +:+ "，实际类型 " +:+ actual.

Definition missing_field (currentPath field : string) : string :=
  currentPath +:+ ": 缺少必需字段 " +:+ dquote +:+ field +:+ dquote.

Definition property_path (currentPath propName : string) : string :=
  currentPath +:+ "." +:+ propName.

Definition index_path (currentPath : string) (i : nat) : string :=
  currentPath +:+ "[" +:+ pretty i +:+ "]".

(** [path || 'root']. *)
Definition current_path (path : string) : string :=
  if decide (path = "") then "root" else path.

(** The errors [validateSchema] collects. Past the type test a value of
    type ["object"] is an object and a value of type ["array"] an array. *)
Fixpoint schema_errors (value : Reached) (schema : JSONSchema) (path : string)
    {struct schema} : list string :=
  match schema with
  | Schema ty properties items required =>
      let currentPath := current_path path in
      let actualType := reached_type value in
      if decide (actualType ≠ type_name ty) then
        [type_mismatch currentPath (type_name ty) actualType]
      else
        (match ty with
         | TObject =>
             flat_map
               (fun requiredField =>
                  if has_property requiredField value then []
                  else [missing_field currentPath requiredField])
               (default [] required)
             ++ match properties with
                | Some props =>
                    flat_map
                      (fun prop : string * JSONSchema =>
                         match prop with
                         | (propName, propSchema) =>
                             match get_property propName value with
                             | Some propValue =>
                                 schema_errors propValue propSchema
                                   (property_path currentPath propName)
                             | None => []
                             end
                         end)
                      props
                | None => []
                end
         | _ => []
         end)
        ++ (match ty, value, items with
            | TArray, Json (VArray elements), Some itemSchema =>
                concat
                  (imap (fun i element =>
                           schema_errors (Json element) itemSchema
                             (index_path currentPath i))
                     elements)
            | _, _, _ => []
            end)
  end.

Definition validateSchema (value : Value) (schema : JSONSchema) (path : string)
    : SchemaValidationResult :=
  let errs := schema_errors (Json value) schema path in
  {| valid := bool_decide (errs = []); errors := errs |}.

(** *** Registry *)

(** One call of a tool executor: how it ran, and how long it took. *)
Record Execution : Type := mkExecution {
  ran : Ran Value;
  took : Z;
}.

Record ToolMeta : Type := mkToolMeta {
  meta_id : string;
  meta_name : string;
  mode : ToolMode;
  inputSchema : option JSONSchema;
  outputSchema : option JSONSchema;
  timeout : option Z;
}.

Record ToolRegistration : Type := mkRegistration {
  meta : ToolMeta;
  execute : Value -> Store -> Execution;
}.

(** [ToolRegistry.register]: a duplicate id throws. *)
Definition register (tools : gmap string ToolRegistration)
    (registration : ToolRegistration)
    : Outcome (gmap string ToolRegistration) :=
  match tools !! meta_id (meta registration) with
  | Some _ =>
      Threw (ThrownError (JsError ("工具已存在: " +:+ meta_id (meta registration))))
  | None => Returned (<[meta_id (meta registration) := registration]> tools)
  end.

Definition unregister (tools : gmap string ToolRegistration) (toolId : string)
    : bool * gmap string ToolRegistration :=
  (bool_decide (is_Some (tools !! toolId)), delete toolId tools).

(** [ToolRegistry.get]: a missing id throws [ToolNotFoundError]. *)
Definition registry_get (tools : gmap string ToolRegistration)
    (toolId : string) : Outcome ToolRegistration :=
  match tools !! toolId with
  | Some registration => Returned registration
  | None => Threw (ThrownError (ToolNotFoundError toolId))
  end.

(** *** [ToolInvoker] *)

Record ToolCallResult : Type := mkToolCallResult {
  success : bool;
  toolId : string;
  result : option Value;
  error : option Error;
  duration : option Z;
}.

Record PendingToolCall : Type := mkPending {
  p_toolId : string;
  p_stepId : string;
  p_params : Value;
  p_startTime : Z;
  p_timeout : option Z;
}.

(** What the invoker did: the event it handed to the bus, the executor it
    called, the timer it armed for a pending call. *)
Inductive ToolAction : Type :=
  | TEmit (ev : WorkflowEvent)
  | TExecute (tool : string) (params : Value)
  | TArmTimer (callId : string) (ms : Z).

(** The invoker with the heap the executors work on, the clock and the log. *)
Record ToolInvoker : Type := mkToolInvoker {
  registry : gmap string ToolRegistration;
  eventEmitter : EventEmitter;
  workflowId : string;
  instanceId : string;
  pendingCalls : gmap string PendingToolCall;
  store : Store;
  clock : Z;
  log : list ToolAction;
}.

(** The promise [invoke] returns: resolved with a result, or pending on an
    external response under a call id. *)
Inductive Invocation : Type :=
  | Resolved (r : ToolCallResult)
  | Pending (callId : string).

Definition with_log (a : ToolAction) (inv : ToolInvoker) : ToolInvoker :=
  {| registry := registry inv; eventEmitter := eventEmitter inv;
     workflowId := workflowId inv; instanceId := instanceId inv;
     pendingCalls := pendingCalls inv; store := store inv;
     clock := clock inv; log := log inv ++ [a] |}.

(** [emitToolEvent]: the payload is [{ toolId, ...payload }], and the event
    goes to [eventEmitter.emit] unguarded: the first component is what a
    subscriber threw, if one did. *)
Definition emitToolEvent (ty : EventType) (tool : string)
    (stepId : option string) (fields : list (string * Value))
    (inv : ToolInvoker) : option Thrown * ToolInvoker :=
  let event :=
    createWorkflowEvent ty (workflowId inv) (instanceId inv)
      (VObject (("toolId", VString tool) :: fields)) stepId (clock inv) in
  (raised (emit (eventEmitter inv) event), with_log (TEmit event) inv).

(** [stepId || '']. *)
Definition step_or (fallback : string) (stepId : option string) : string :=
  match stepId with
  | Some s => if decide (s = "") then fallback else s
  | None => fallback
  end.

Definition generateCallId (tool : string) (stepId : option string) : string :=
  step_or "global" stepId +:+ "_" +:+ tool.

Definition timeout_message (tool : string) : string :=
  "工具 " +:+ tool +:+ " 执行超时".

(** [meta.timeout && meta.timeout > 0]. *)
Definition armed_timeout (m : ToolMeta) : option Z :=
  match timeout m with
  | Some t => if decide (0 < t) then Some t else None
  | None => None
  end.

(** The error [executeSyncTool] reports for what its [try] block threw: a
    [TimeoutError] is kept, anything else is wrapped. *)
Definition tool_error (tool : string) (stepId : option string) (t : Thrown)
    : Error :=
  match t with
  | ThrownError (TimeoutError a b c) => TimeoutError a b c
  | ThrownError e => ToolExecutionError tool (error_message e) stepId (Some e)
  | ThrownOther s => ToolExecutionError tool s stepId None
  end.

(** [executeSyncTool]. The executor is called in any case; with a timeout
    armed, the timer wins the race when the executor takes longer. The
    [TOOL_COMPLETE] event is emitted inside the [try] block, so that what a
    subscriber throws on it is caught and reported like a failure of the
    tool; the [TOOL_FAILED] event is emitted in the [catch] block, and what
    a subscriber throws on it leaves the method. *)
Definition executeSyncTool (tool : string) (params : Value) (m : ToolMeta)
    (exec : Value -> Store -> Execution) (stepId : option string)
    (startTime : Z) (inv : ToolInvoker)
    : Outcome ToolCallResult * ToolInvoker :=
  let inv1 := with_log (TExecute tool params) inv in
  let run := exec params (store inv1) in
  let timed_out :=
    match armed_timeout m with
    | Some t => bool_decide (t < took run)
    | None => false
    end in
  let elapsed :=
    if timed_out then default 0 (armed_timeout m) else Z.max 0 (took run) in
  let inv2 :=
    {| registry := registry inv1; eventEmitter := eventEmitter inv1;
       workflowId := workflowId inv1; instanceId := instanceId inv1;
       pendingCalls := pendingCalls inv1;
       store := store_after (ran run); clock := clock inv1 + elapsed;
       log := log inv1 |} in
  let dur := clock inv2 - startTime in
  let settled :=
    if timed_out then
      Threw (ThrownError (TimeoutError (timeout_message tool) (step_or "" stepId)
                            (default 0 (armed_timeout m))))
    else outcome (ran run) in
  let tried :=
    match settled with
    | Returned res =>
        let complete :=
          emitToolEvent TOOL_COMPLETE tool stepId
            [("params", params); ("result", res); ("duration", VNumber dur)]
            inv2 in
        match complete.1 with
        | Some t => (Threw t, complete.2)
        | None => (Returned res, complete.2)
        end
    | Threw t => (Threw t, inv2)
    end in
  match tried.1 with
  | Returned res =>
      (Returned {| success := true; toolId := tool; result := Some res;
                   error := None; duration := Some dur |}, tried.2)
  | Threw t =>
      let toolError := tool_error tool stepId t in
      let failed :=
        emitToolEvent TOOL_FAILED tool stepId
          [("params", params); ("error", VString (error_message toolError));
           ("duration", VNumber dur)] tried.2 in
      match failed.1 with
      | Some t' => (Threw t', failed.2)
      | None =>
          (Returned {| success := false; toolId := tool; result := None;
                       error := Some toolError; duration := Some dur |},
           failed.2)
      end
  end.

(** [executeAsyncTool]: record the pending call and arm its timer; the
    promise stays pending. *)
Definition executeAsyncTool (tool : string) (params : Value) (m : ToolMeta)
    (stepId : option string) (startTime : Z) (inv : ToolInvoker)
    : Invocation * ToolInvoker :=
  let callId := generateCallId tool stepId in
  let pending :=
    {| p_toolId := tool; p_stepId := step_or "" stepId; p_params := params;
       p_startTime := startTime; p_timeout := timeout m |} in
  let inv1 :=
    {| registry := registry inv; eventEmitter := eventEmitter inv;
       workflowId := workflowId inv; instanceId := instanceId inv;
       pendingCalls := <[callId := pending]> (pendingCalls inv);
       store := store inv; clock := clock inv; log := log inv |} in
  (Pending callId,
   match armed_timeout m with
   | Some t => with_log (TArmTimer callId t) inv1
   | None => inv1
   end).

Definition schema_failure_message (tool : string) : string :=
  "工具 " +:+ tool +:+ " 输入参数验证失败".

(** [invoke]. The exceptions it lets out are one of [registry.get] other
    than [ToolNotFoundError], and what a subscriber of the bus throws on
    an event emitted outside a [try] block. *)
Definition invoke (tool : string) (params : Value) (stepId : option string)
    (inv : ToolInvoker) : Outcome Invocation * ToolInvoker :=
  let startTime := clock inv in
  match registry_get (registry inv) tool with
  | Threw (ThrownError (ToolNotFoundError t)) =>
      (Returned
         (Resolved {| success := false; toolId := tool; result := None;
                      error := Some (ToolNotFoundError t); duration := None |}),
       inv)
  | Threw t => (Threw t, inv)
  | Returned registration =>
      let m := meta registration in
      let validation :=
        match inputSchema m with
        | Some schema => validateSchema params schema ""
        | None => {| valid := true; errors := [] |}
        end in
      if negb (valid validation) then
        let schemaError :=
          SchemaValidationError (schema_failure_message tool)
            (errors validation) in
        let failed :=
          emitToolEvent TOOL_FAILED tool stepId
            [("params", params);
             ("error", VString (error_message schemaError));
             ("validationErrors", VArray (map VString (errors validation)))]
            inv in
        match failed.1 with
        | Some t => (Threw t, failed.2)
        | None =>
            (Returned
               (Resolved {| success := false; toolId := tool; result := None;
                            error := Some schemaError; duration := None |}),
             failed.2)
        end
      else
        let invoked :=
          emitToolEvent TOOL_INVOKE tool stepId
            [("params", params);
             ("mode", VString (match mode m with
                               | SYNC => "sync" | ASYNC => "async" end))]
            inv in
        match invoked.1 with
        | Some t => (Threw t, invoked.2)
        | None =>
            match mode m with
            | SYNC =>
                let call := executeSyncTool tool params m (execute registration)
                              stepId startTime invoked.2 in
                match call.1 with
                | Returned r => (Returned (Resolved r), call.2)
                | Threw t => (Threw t, call.2)
                end
            | ASYNC =>
                let call :=
                  executeAsyncTool tool params m stepId startTime invoked.2 in
                (Returned call.1, call.2)
            end
        end
  end.

(** *** Conformance, as the specification words it *)





(** Induction on schemas, through [properties] and [items]. *)
Section schema_induction.
Variable P : JSONSchema -> Prop.
Hypothesis step :
  ∀ ty properties items required,
    Forall (fun prop => P prop.2) (default [] properties) ->
    match items with Some itemSchema => P itemSchema | None => True end ->
    P (Schema ty properties items required).

End schema_induction.

(** *** The validator decides conformance *)



Lemma value_type_object v : getValueType v = "object" -> ∃ obj, v = VObject obj.
Proof. destruct v; try discriminate. by eexists. Qed.

Lemma value_type_array v : getValueType v = "array" -> ∃ l, v = VArray l.
Proof. destruct v; try discriminate. by eexists. Qed.





(** *** Every message carries a path *)







(** *** Rejecting parameters that do not match *)

Arguments emitToolEvent : simpl never.

Lemma log_emitToolEvent ty tool stepId fields inv :
  log (emitToolEvent ty tool stepId fields inv).2
  = log inv
    ++ [TEmit (createWorkflowEvent ty (workflowId inv) (instanceId inv)
                 (VObject (("toolId", VString tool) :: fields)) stepId
                 (clock inv))].
Proof. reflexivity. Qed.

Lemma emitToolEvent_raised ty tool stepId fields inv :
  (emitToolEvent ty tool stepId fields inv).1
  = raised (emit (eventEmitter inv)
              (createWorkflowEvent ty (workflowId inv) (instanceId inv)
                 (VObject (("toolId", VString tool) :: fields)) stepId
                 (clock inv))).
Proof. reflexivity. Qed.

Lemma emitToolEvent_invoker ty tool stepId fields inv :
  (emitToolEvent ty tool stepId fields inv).2
  = with_log (TEmit (createWorkflowEvent ty (workflowId inv) (instanceId inv)
                       (VObject (("toolId", VString tool) :: fields)) stepId
                       (clock inv))) inv.
Proof. reflexivity. Qed.


(** A calculator that needs a number [x]. *)
Definition calc_schema : JSONSchema :=
  Schema TObject (Some [("x", Schema TNumber None None None)]) None
    (Some ["x"]).







(** *** The registry *)

(** X20: Registering under an id that is taken throws and leaves the registry
    as it is. Registering under a free id makes [get] return the
    registration, leaves the other ids alone and takes the id; [unregister]
    then reports [true] and brings the registry back, so that [get] throws
    [ToolNotFoundError]. For an id that is not registered [unregister]
    reports [false] and [get] throws [ToolNotFoundError]. *)
Theorem registry_round_trip (tools : gmap string ToolRegistration)
    (registration : ToolRegistration) :
  match tools !! meta_id (meta registration) with
  | Some _ =>
      register tools registration
      = Threw (ThrownError
                 (JsError ("工具已存在: " +:+ meta_id (meta registration))))
  | None =>
      ∃ tools',
        register tools registration = Returned tools'
        ∧ registry_get tools' (meta_id (meta registration))
          = Returned registration
        ∧ (∀ other, other ≠ meta_id (meta registration) ->
             registry_get tools' other = registry_get tools other)
        ∧ register tools' registration
          = Threw (ThrownError
                     (JsError ("工具已存在: "
                               +:+ meta_id (meta registration))))
        ∧ unregister tools' (meta_id (meta registration)) = (true, tools)
  end
  ∧ ∀ toolId,
      tools !! toolId = None ->
      unregister tools toolId = (false, tools)
      ∧ registry_get tools toolId = Threw (ThrownError (ToolNotFoundError toolId)).
Proof.
  split.
  - destruct (tools !! meta_id (meta registration)) eqn:Hfree.
    + unfold register. by rewrite Hfree.
    + eexists. split; [unfold register; by rewrite Hfree|].
      split; [|split; [|split]].
      * unfold registry_get. by rewrite lookup_insert_eq.
      * intros other Hother. unfold registry_get.
        by rewrite lookup_insert_ne.
      * unfold register. by rewrite lookup_insert_eq.
      * unfold unregister. rewrite lookup_insert_eq.
        by rewrite delete_insert_id.
  - intros toolId Hnone. unfold unregister, registry_get. rewrite Hnone.
    split; [|done]. by rewrite delete_id.
Qed.

(** *** Validation looks only at what the schema lists *)

Lemma omap_get_snoc (field k : string) (v : Value)
    (obj : list (string * Value)) :
  field ≠ k -> OMap.get field (obj ++ [(k, v)]) = OMap.get field obj.
Proof.
  intros Hne. induction obj as [|[k' v'] obj IH]; simpl.
  - rewrite decide_False; [done|congruence].
  - by destruct (decide (k' = field)).
Qed.

Lemma flat_map_ext_elem {A B : Type} (f g : A -> list B) (l : list A) :
  (∀ x, x ∈ l -> f x = g x) -> flat_map f l = flat_map g l.
Proof.
  induction l as [|x l IH]; intros Hext; simpl; [done|].
  rewrite (Hext x) by left. f_equal. apply IH.
  intros y Hy. apply Hext. by right.
Qed.

(** X21: A property that the schema of an object neither requires nor lists
    among its properties has no part in the validation: adding it to the
    object changes neither the verdict nor the error messages. *)
Theorem validateSchema_ignores_unlisted
    (properties : option (list (string * JSONSchema)))
    (items : option JSONSchema) (required : option (list string))
    (obj : list (string * Value)) (k : string) (v : Value) (path : string) :
  k ∉ default [] required ->
  k ∉ map fst (default [] properties) ->
  validateSchema (VObject (obj ++ [(k, v)]))
    (Schema TObject properties items required) path
  = validateSchema (VObject obj) (Schema TObject properties items required)
      path.
Proof.
  intros Hrequired Hlisted.
  assert (Hget : ∀ field, field ≠ k ->
            get_property field (Json (VObject (obj ++ [(k, v)])))
            = get_property field (Json (VObject obj))).
  { intros field Hne. simpl. by rewrite omap_get_snoc. }
  assert (Herrors :
    schema_errors (Json (VObject (obj ++ [(k, v)])))
      (Schema TObject properties items required) path
    = schema_errors (Json (VObject obj))
        (Schema TObject properties items required) path).
  { cbn [schema_errors reached_type getValueType type_name].
    case_decide; [done|]. f_equal. f_equal.
    - apply flat_map_ext_elem. intros field Hfield.
      unfold has_property. rewrite Hget; [done|].
      by intros ->.
    - destruct properties as [props|]; [|done].
      apply flat_map_ext_elem. intros [propName propSchema] Hprop.
      rewrite Hget; [done|].
      intros ->. apply Hlisted. simpl.
      apply list_elem_of_fmap. by exists (k, propSchema). }
  unfold validateSchema. by rewrite Herrors.
Qed.

Lemma validateSchema_ignores_unlisted_witness :
  validateSchema
    (VObject ([("x", VNumber 1)] ++ [("note", VString "kept")])) calc_schema ""
  = validateSchema (VObject [("x", VNumber 1)]) calc_schema "".
Proof.
  unfold calc_schema.
  apply validateSchema_ignores_unlisted.
  - apply (bool_decide_unpack _). vm_compute. exact I.
  - apply (bool_decide_unpack _). vm_compute. exact I.
Defined.

(** *** What [invoke] does with the tool it finds, or does not find *)

Definition is_execute (a : ToolAction) : bool :=
  match a with TExecute _ _ => true | _ => false end.

(** What [executeSyncTool] does: it calls the executor, and then emits
    [TOOL_COMPLETE] or [TOOL_FAILED]; when a subscriber throws on
    [TOOL_COMPLETE] it emits [TOOL_FAILED] as well and reports a failure.
    What comes out of it is what a subscriber threw on [TOOL_FAILED]. *)
Lemma executeSyncTool_run (tool : string) (params : Value) (m : ToolMeta)
    (exec : Value -> Store -> Execution) (stepId : option string)
    (startTime : Z) (inv : ToolInvoker) :
  ∃ front finished,
    log (executeSyncTool tool params m exec stepId startTime inv).2
    = log inv ++ TExecute tool params :: front ++ [TEmit finished]
    ∧ (front = []
       ∨ ∃ completed t,
           front = [TEmit completed]
           ∧ type completed = TOOL_COMPLETE
           ∧ raised (emit (eventEmitter inv) completed) = Some t
           ∧ type finished = TOOL_FAILED)
    ∧ match (executeSyncTool tool params m exec stepId startTime inv).1 with
      | Returned r =>
          type finished = (if success r then TOOL_COMPLETE else TOOL_FAILED)
          ∧ toolId r = tool
          ∧ raised (emit (eventEmitter inv) finished) = None
      | Threw t =>
          type finished = TOOL_FAILED
          ∧ raised (emit (eventEmitter inv) finished) = Some t
      end
    ∧ registry (executeSyncTool tool params m exec stepId startTime inv).2
      = registry inv
    ∧ pendingCalls (executeSyncTool tool params m exec stepId startTime inv).2
      = pendingCalls inv.
Proof.
  unfold executeSyncTool. cbv zeta.
  set (inv2 := {| registry := _; eventEmitter := _; workflowId := _;
                  instanceId := _; pendingCalls := _; store := _;
                  clock := _; log := _ |}).
  assert (Hfailed : ∀ t (tried : ToolInvoker) front,
            eventEmitter tried = eventEmitter inv ->
            registry tried = registry inv ->
            pendingCalls tried = pendingCalls inv ->
            log tried = log inv ++ TExecute tool params :: front ->
            (front = []
             ∨ ∃ completed t0,
                 front = [TEmit completed]
                 ∧ type completed = TOOL_COMPLETE
                 ∧ raised (emit (eventEmitter inv) completed) = Some t0) ->
            let failed :=
              emitToolEvent TOOL_FAILED tool stepId
                [("params", params);
                 ("error", VString (error_message (tool_error tool stepId t)));
                 ("duration", VNumber (clock inv2 - startTime))] tried in
            let out :=
              match failed.1 with
              | Some t' => (Threw t', failed.2)
              | None =>
                  (Returned {| success := false; toolId := tool;
                               result := None;
                               error := Some (tool_error tool stepId t);
                               duration := Some (clock inv2 - startTime) |},
                   failed.2)
              end in
            ∃ front' finished,
              log out.2
              = log inv ++ TExecute tool params :: front' ++ [TEmit finished]
              ∧ (front' = []
                 ∨ ∃ completed t0,
                     front' = [TEmit completed]
                     ∧ type completed = TOOL_COMPLETE
                     ∧ raised (emit (eventEmitter inv) completed) = Some t0
                     ∧ type finished = TOOL_FAILED)
              ∧ match out.1 with
                | Returned r =>
                    type finished
                    = (if success r then TOOL_COMPLETE else TOOL_FAILED)
                    ∧ toolId r = tool
                    ∧ raised (emit (eventEmitter inv) finished) = None
                | Threw t' =>
                    type finished = TOOL_FAILED
                    ∧ raised (emit (eventEmitter inv) finished) = Some t'
                end
              ∧ registry out.2 = registry inv
              ∧ pendingCalls out.2 = pendingCalls inv).
  { intros t tried front Hbus Hreg Hpending Hlog Hfront. cbv zeta.
    pose proof (emitToolEvent_raised TOOL_FAILED tool stepId
                  [("params", params);
                   ("error", VString (error_message (tool_error tool stepId t)));
                   ("duration", VNumber (clock inv2 - startTime))] tried)
      as Hraised.
    rewrite Hbus in Hraised.
    destruct (emitToolEvent TOOL_FAILED _ _ _ _).1 as [t'|];
      exists front; eexists;
      (split; [cbn [fst snd]; rewrite log_emitToolEvent, Hlog, <- app_assoc;
               reflexivity|]);
      (split; [destruct Hfront as [->|(completed & t0 & -> & Hc & Hr)];
               [by left|right; by exists completed, t0]|]);
      cbn [fst snd]; rewrite <- Hraised; repeat split; done. }
  match goal with
  | |- context [match (if ?b then ?x else outcome ?y) with _ => _ end] =>
      destruct (if b then x else outcome y) as [res|t]
  end.
  - pose proof (emitToolEvent_raised TOOL_COMPLETE tool stepId
                  [("params", params); ("result", res);
                   ("duration", VNumber (clock inv2 - startTime))] inv2)
      as Hraised.
    change (eventEmitter inv2) with (eventEmitter inv) in Hraised.
    destruct (emitToolEvent TOOL_COMPLETE _ _ _ _).1 as [t|] eqn:Hcomplete;
      cbn [fst snd].
    + rewrite emitToolEvent_invoker.
      eapply (Hfailed t _ [TEmit _]);
        [done|done|done|cbn [log with_log inv2]; by rewrite <- app_assoc|].
      right. eexists _, t. split; [reflexivity|]. split; [done|].
      by rewrite <- Hraised.
    + exists []. eexists.
      split; [rewrite log_emitToolEvent; cbn [log with_log inv2];
              by rewrite <- app_assoc|].
      split; [by left|]. rewrite <- Hraised. repeat split; done.
  - cbn [fst snd]. apply (Hfailed t inv2 []); try done. by left.
Qed.

(** X22: Whatever the tool and the parameters, [invoke] calls at most one
    executor, and only the one registered under the tool id, on the
    parameters it was given; it never changes the registry. For a tool that
    is not registered it returns a failure carrying [ToolNotFoundError],
    emits no event, calls no executor, records no pending call and leaves
    the invoker as it was. *)
Theorem invoke_executes_at_most_once (tool : string) (params : Value)
    (stepId : option string) (inv : ToolInvoker) :
  (∃ delta,
     log (invoke tool params stepId inv).2 = log inv ++ delta
     ∧ (filter (fun a => is_execute a) delta = []
        ∨ ∃ registration,
            registry inv !! tool = Some registration
            ∧ mode (meta registration) = SYNC
            ∧ filter (fun a => is_execute a) delta = [TExecute tool params]))
  ∧ registry (invoke tool params stepId inv).2 = registry inv
  ∧ (registry inv !! tool = None ->
     invoke tool params stepId inv
     = (Returned
          (Resolved {| success := false; toolId := tool; result := None;
                       error := Some (ToolNotFoundError tool);
                       duration := None |}),
        inv)).
Proof.
  unfold invoke, registry_get.
  destruct (registry inv !! tool) as [registration|] eqn:Hfound.
  - split; [|split; [|done]].
    + destruct (negb _).
      { cbv zeta. destruct (emitToolEvent TOOL_FAILED _ _ _ _).1;
          (eexists; split; [apply log_emitToolEvent|]); by left. }
      cbv zeta.
      destruct (emitToolEvent TOOL_INVOKE _ _ _ _).1.
      { eexists. split; [apply log_emitToolEvent|]. by left. }
      destruct (mode (meta registration)) eqn:Hmode.
      * match goal with
        | |- context [executeSyncTool ?a ?b ?c ?d ?e ?f ?g] =>
            destruct (executeSyncTool_run a b c d e f g)
              as (front & finished & Hlog & Hfront & _);
            destruct (executeSyncTool a b c d e f g).1
        end;
          (eexists; split;
           [cbn [fst snd]; rewrite Hlog, log_emitToolEvent, <- app_assoc;
            reflexivity|]);
          right; exists registration; (split; [done|]); (split; [done|]);
          destruct Hfront as [->|(completed & t0 & -> & _)]; reflexivity.
      * unfold executeAsyncTool. cbn [fst snd].
        destruct (armed_timeout (meta registration)).
        -- eexists. split;
             [cbn [log with_log]; rewrite log_emitToolEvent, <- app_assoc;
              reflexivity|].
           by left.
        -- eexists. split; [cbn [log]; apply log_emitToolEvent|]. by left.
    + destruct (negb _).
      { cbv zeta. by destruct (emitToolEvent TOOL_FAILED _ _ _ _).1. }
      cbv zeta.
      destruct (emitToolEvent TOOL_INVOKE _ _ _ _).1; [done|].
      destruct (mode (meta registration)).
      * match goal with
        | |- context [executeSyncTool ?a ?b ?c ?d ?e ?f ?g] =>
            destruct (executeSyncTool_run a b c d e f g)
              as (front & finished & _ & _ & _ & Hreg & _);
            destruct (executeSyncTool a b c d e f g).1
        end; exact Hreg.
      * unfold executeAsyncTool. cbn [fst snd].
        by destruct (armed_timeout (meta registration)).
  - split; [|split; [done|done]].
    exists []. rewrite app_nil_r. split; [done|]. by left.
Qed.




(** *** [executeToolInvocations] *)










End Tools.

(** ** Wait manager ([async/index.ts]) *)

Module Async.
Import Core Events.

Inductive TimeoutStrategy : Type :=
  | STRATEGY_ERROR | STRATEGY_DEFAULT | STRATEGY_IGNORE.

Record TimeoutConfig : Type := mkTimeoutConfig {
  cfg_timeout : Z;
  strategy : TimeoutStrategy;
  defaultValue : Value;
}.

Record WaitingInfo : Type := mkWaitingInfo {
  wait_type : WaitType;
  targetId : string;
  startTime : Z;
  info_timeout : option Z;
  data : Value;
}.

Record StepState : Type := mkStepState {
  state_stepId : string;
  status : StepStatus;
  retryCount : Z;
  state_startTime : option Z;
  waitingFor : option WaitingInfo;
}.

(** A [WaitItem] object. Its three callbacks are fixed code over the step
    id and the promise of the wait, which the object stands for here. *)
Record WaitItem : Type := mkWaitItem {
  item_stepId : string;
  waitingInfo : WaitingInfo;
  timeoutId : option positive;
  timeoutConfig : option TimeoutConfig;
}.

(** The three places that call [setTimeout]. *)
Inductive TimerKind : Type :=
  | Initial
  | Restarted
  | Extended (newTimeout : Z).

(** An armed timer: the step id and the wait item object its callback
    captured, and its delay. *)
Record Timer : Type := mkTimer {
  timer_stepId : string;
  timer_item : nat;
  timer_kind : TimerKind;
  timer_delay : Z;
}.

(** How a promise was settled: fulfilled with a value, rejected with an
    [Error], or rejected with a value that is not an [Error], which only a
    subscriber can provide. *)
Inductive Settlement : Type :=
  | Fulfilled (v : Value)
  | Rejected (e : Error)
  | RejectedOther (rendering : string).

(** The rejection of a promise whose executor threw. *)
Definition rejected_with (t : Thrown) : Settlement :=
  match t with
  | ThrownError e => Rejected e
  | ThrownOther s => RejectedOther s
  end.

(** The manager and what it works on: the bus it emits on, the wait item
    objects by address (the map and the timer callbacks hold references to
    them), the armed timers and the next timer handle, the promises settled
    so far, the clock, and the events handed to the bus. *)
Record WaitManager : Type := mkWaitManager {
  workflowId : string;
  instanceId : string;
  eventEmitter : EventEmitter;
  waitingItems : gmap string nat;
  stepStates : gmap string StepState;
  objects : gmap nat WaitItem;
  timers : gmap positive Timer;
  nextHandle : positive;
  promises : gmap nat Settlement;
  clock : Z;
  events : list WorkflowEvent;
}.

Definition set_events (evs : list WorkflowEvent) (wm : WaitManager)
    : WaitManager :=
  {| workflowId := workflowId wm; instanceId := instanceId wm;
     eventEmitter := eventEmitter wm;
     waitingItems := waitingItems wm; stepStates := stepStates wm;
     objects := objects wm; timers := timers wm;
     nextHandle := nextHandle wm; promises := promises wm;
     clock := clock wm; events := evs |}.

Definition set_waitingItems (m : gmap string nat) (wm : WaitManager)
    : WaitManager :=
  {| workflowId := workflowId wm; instanceId := instanceId wm;
     eventEmitter := eventEmitter wm;
     waitingItems := m; stepStates := stepStates wm;
     objects := objects wm; timers := timers wm;
     nextHandle := nextHandle wm; promises := promises wm;
     clock := clock wm; events := events wm |}.

Definition set_stepStates (m : gmap string StepState) (wm : WaitManager)
    : WaitManager :=
  {| workflowId := workflowId wm; instanceId := instanceId wm;
     eventEmitter := eventEmitter wm;
     waitingItems := waitingItems wm; stepStates := m;
     objects := objects wm; timers := timers wm;
     nextHandle := nextHandle wm; promises := promises wm;
     clock := clock wm; events := events wm |}.

Definition set_objects (m : gmap nat WaitItem) (wm : WaitManager)
    : WaitManager :=
  {| workflowId := workflowId wm; instanceId := instanceId wm;
     eventEmitter := eventEmitter wm;
     waitingItems := waitingItems wm; stepStates := stepStates wm;
     objects := m; timers := timers wm;
     nextHandle := nextHandle wm; promises := promises wm;
     clock := clock wm; events := events wm |}.

Definition set_timers (m : gmap positive Timer) (wm : WaitManager)
    : WaitManager :=
  {| workflowId := workflowId wm; instanceId := instanceId wm;
     eventEmitter := eventEmitter wm;
     waitingItems := waitingItems wm; stepStates := stepStates wm;
     objects := objects wm; timers := m;
     nextHandle := nextHandle wm; promises := promises wm;
     clock := clock wm; events := events wm |}.

Definition set_promises (m : gmap nat Settlement) (wm : WaitManager)
    : WaitManager :=
  {| workflowId := workflowId wm; instanceId := instanceId wm;
     eventEmitter := eventEmitter wm;
     waitingItems := waitingItems wm; stepStates := stepStates wm;
     objects := objects wm; timers := timers wm;
     nextHandle := nextHandle wm; promises := m;
     clock := clock wm; events := events wm |}.

(** [emitWaitEvent]: the event goes to [eventEmitter.emit] unguarded; the
    first component is what a subscriber threw, if one did. *)
Definition emitWaitEvent (ty : EventType) (stepId : string) (payload : Value)
    (wm : WaitManager) : option Thrown * WaitManager :=
  let event :=
    createWorkflowEvent ty (workflowId wm) (instanceId wm) payload
      (Some stepId) (clock wm) in
  (raised (emit (eventEmitter wm) event),
   set_events (events wm ++ [event]) wm).

(** [setTimeout]: a handle never given out before, and the timer armed. *)
Definition setTimeout (t : Timer) (wm : WaitManager) : positive * WaitManager :=
  let handle := nextHandle wm in
  (handle,
   {| workflowId := workflowId wm; instanceId := instanceId wm;
     eventEmitter := eventEmitter wm;
      waitingItems := waitingItems wm; stepStates := stepStates wm;
      objects := objects wm; timers := <[handle := t]> (timers wm);
      nextHandle := Pos.succ handle; promises := promises wm;
      clock := clock wm; events := events wm |}).

(** [clearTimeout]. *)
Definition clearTimeout (handle : positive) (wm : WaitManager) : WaitManager :=
  set_timers (delete handle (timers wm)) wm.

(** [resolve] and [reject] of the promise of a wait: the first call
    settles it, later calls do nothing. *)
Definition settle (a : nat) (s : Settlement) (wm : WaitManager) : WaitManager :=
  match promises wm !! a with
  | Some _ => wm
  | None => set_promises (<[a := s]> (promises wm)) wm
  end.

Definition updateStepState (stepId : string) (st : StepState)
    (wm : WaitManager) : WaitManager :=
  set_stepStates (<[stepId := st]> (stepStates wm)) wm.

(** [clearWaitItem]: for the item the map holds under [stepId], clear its
    timer, delete the entry, and drop [waitingFor] from the step state. *)
Definition clearWaitItem (stepId : string) (wm : WaitManager) : WaitManager :=
  match waitingItems wm !! stepId with
  | None => wm
  | Some a =>
      let wm1 :=
        match objects wm !! a ≫= timeoutId with
        | Some handle => clearTimeout handle wm
        | None => wm
        end in
      let wm2 := set_waitingItems (delete stepId (waitingItems wm1)) wm1 in
      match stepStates wm2 !! stepId with
      | Some currentState =>
          set_stepStates
            (<[stepId := {| state_stepId := state_stepId currentState;
                            status := status currentState;
                            retryCount := retryCount currentState;
                            state_startTime := state_startTime currentState;
                            waitingFor := None |}]> (stepStates wm2))
            wm2
      | None => wm2
      end
  end.

Definition wait_type_value (t : WaitType) : string :=
  match t with WAIT_UI => "ui" | WAIT_TOOL => "tool" | WAIT_SIGNAL => "signal" end.

Definition strategy_value (st : TimeoutStrategy) : string :=
  match st with
  | STRATEGY_ERROR => "error"
  | STRATEGY_DEFAULT => "default"
  | STRATEGY_IGNORE => "ignore"
  end.

Definition optional_number (o : option Z) : Value :=
  match o with Some n => VNumber n | None => VUndefined end.

(** [timeoutConfig && timeoutConfig.timeout > 0]. *)
Definition armed_config (config : option TimeoutConfig) : option TimeoutConfig :=
  match config with
  | Some c => if decide (0 < cfg_timeout c) then Some c else None
  | None => None
  end.

(** [startWaitWithConfig]: returns the promise, which has the address of
    the new wait item object, and overwrites any entry the step already
    had. The whole body is the executor of the promise: what a subscriber
    throws on [WAIT_START], after the entry is stored and the timer armed,
    rejects the promise. *)
Definition startWaitWithConfig (stepId : string) (ty : WaitType)
    (target : string) (config : option TimeoutConfig) (payload : Value)
    (wm : WaitManager) : nat * WaitManager :=
  let started := clock wm in
  let info :=
    {| wait_type := ty; targetId := target; startTime := started;
       info_timeout := cfg_timeout <$> config; data := payload |} in
  let wm1 :=
    updateStepState stepId
      {| state_stepId := stepId; status := WAITING_INPUT; retryCount := 0;
         state_startTime := Some started; waitingFor := Some info |} wm in
  let a := fresh (dom (objects wm1) ∪ dom (promises wm1)) in
  let armed :=
    match armed_config config with
    | Some c =>
        let t := setTimeout {| timer_stepId := stepId; timer_item := a;
                               timer_kind := Initial;
                               timer_delay := cfg_timeout c |} wm1 in
        (Some t.1, t.2)
    | None => (None, wm1)
    end in
  let item :=
    {| item_stepId := stepId; waitingInfo := info; timeoutId := armed.1;
       timeoutConfig := config |} in
  let wm2 := set_objects (<[a := item]> (objects armed.2)) armed.2 in
  let wm3 := set_waitingItems (<[stepId := a]> (waitingItems wm2)) wm2 in
  let emitted :=
    emitWaitEvent WAIT_START stepId
      (VObject [("type", VString (wait_type_value ty));
                ("targetId", VString target);
                ("timeout", optional_number (cfg_timeout <$> config))])
      wm3 in
  (a,
   match emitted.1 with
   | Some t => settle a (rejected_with t) emitted.2
   | None => emitted.2
   end).

(** [startWait]: the [ERROR] strategy when a timeout is given. *)
Definition startWait (stepId : string) (ty : WaitType) (target : string)
    (timeout : option Z) (payload : Value) (wm : WaitManager)
    : nat * WaitManager :=
  startWaitWithConfig stepId ty target
    ((fun t => {| cfg_timeout := t; strategy := STRATEGY_ERROR;
                  defaultValue := VUndefined |}) <$> timeout)
    payload wm.

(** [restartWaitTimer], for the [IGNORE] strategy: put the item back in the
    map and arm a new timer for it. *)
Definition restartWaitTimer (stepId : string) (a : nat) (wm : WaitManager)
    : WaitManager :=
  match objects wm !! a with
  | None => wm
  | Some item =>
      match armed_config (timeoutConfig item) with
      | None => wm
      | Some c =>
          let wm1 := set_waitingItems (<[stepId := a]> (waitingItems wm)) wm in
          let t := setTimeout {| timer_stepId := stepId; timer_item := a;
                                 timer_kind := Restarted;
                                 timer_delay := cfg_timeout c |} wm1 in
          set_objects
            (<[a := {| item_stepId := item_stepId item;
                       waitingInfo := waitingInfo item;
                       timeoutId := Some t.1;
                       timeoutConfig := timeoutConfig item |}]> (objects t.2))
            t.2
      end
  end.

Definition timeout_message (stepId : string) : string :=
  "步骤 " +:+ stepId +:+ " 等待超时".

(** [timeoutConfig?.strategy ?? TimeoutStrategy.ERROR] of the wait item
    object [a]. *)
Definition strategy_of (a : nat) (wm : WaitManager) : TimeoutStrategy :=
  default STRATEGY_ERROR (strategy <$> (objects wm !! a ≫= timeoutConfig)).

(** [handleTimeout(stepId, waitItem, resolve, reject)] for the wait item
    object [a]. *)
Definition handleTimeout (stepId : string) (a : nat) (wm : WaitManager)
    : WaitManager :=
  let config := objects wm !! a ≫= timeoutConfig in
  let wm1 := clearWaitItem stepId wm in
  match strategy_of a wm with
  | STRATEGY_ERROR =>
      settle a
        (Rejected (TimeoutError (timeout_message stepId) stepId
                     (default 0 (cfg_timeout <$> config))))
        wm1
  | STRATEGY_DEFAULT =>
      settle a (Fulfilled (default VUndefined (defaultValue <$> config))) wm1
  | STRATEGY_IGNORE => restartWaitTimer stepId a wm1
  end.

(** The fields every wait event takes from the wait item. *)
Definition item_fields (item : option WaitItem) (now : Z)
    : list (string * Value) :=
  match item with
  | Some i =>
      [("type", VString (wait_type_value (wait_type (waitingInfo i))));
       ("targetId", VString (targetId (waitingInfo i)));
       ("elapsedTime", VNumber (now - startTime (waitingInfo i)))]
  | None => []
  end.

(** An armed timer fires: it is spent, and its callback runs. All three
    callbacks do nothing unless the map has an entry for the step; then they
    emit [WAIT_TIMEOUT] and go to [handleTimeout] with the item they
    captured. The first component is what the callback threw to the host,
    which is what a subscriber threw on [WAIT_TIMEOUT]: [handleTimeout] is
    not reached then. *)
Definition fire (handle : positive) (wm : WaitManager)
    : option Thrown * WaitManager :=
  match timers wm !! handle with
  | None => (None, wm)
  | Some t =>
      let wm1 := set_timers (delete handle (timers wm)) wm in
      if decide (is_Some (waitingItems wm1 !! timer_stepId t)) then
        let item := objects wm1 !! timer_item t in
        let config := item ≫= timeoutConfig in
        let emitted :=
          emitWaitEvent WAIT_TIMEOUT (timer_stepId t)
            (VObject
               (item_fields item (clock wm1)
                ++ [("timeout",
                     match timer_kind t with
                     | Extended newTimeout => VNumber newTimeout
                     | _ => optional_number (cfg_timeout <$> config)
                     end);
                    ("strategy",
                     match config with
                     | Some c => VString (strategy_value (strategy c))
                     | None => VUndefined
                     end)]
                ++ match timer_kind t with
                   | Restarted => [("ignored", VBool true)]
                   | _ => []
                   end))
            wm1 in
        match emitted.1 with
        | Some thrown => (Some thrown, emitted.2)
        | None =>
            (None, handleTimeout (timer_stepId t) (timer_item t) emitted.2)
        end
      else (None, wm1)
  end.

(** [resumeWait]: [WAIT_RESUME] is emitted before [onResume] is called, so
    that nothing is released and the promise stays as it is when a
    subscriber throws. *)
Definition resumeWait (stepId : string) (result : Value) (wm : WaitManager)
    : Outcome bool * WaitManager :=
  match waitingItems wm !! stepId with
  | None => (Returned false, wm)
  | Some a =>
      let emitted :=
        emitWaitEvent WAIT_RESUME stepId
          (VObject (item_fields (objects wm !! a) (clock wm)
                    ++ [("result", result)]))
          wm in
      match emitted.1 with
      | Some t => (Threw t, emitted.2)
      | None =>
          (Returned true,
           settle a (Fulfilled result) (clearWaitItem stepId emitted.2))
      end
  end.

(** [cancelWait]; the reason defaults to ['等待已取消']. [WAIT_CANCEL] is
    emitted before [onCancel] is called. *)
Definition cancelWait (stepId : string) (reason : option string)
    (wm : WaitManager) : Outcome bool * WaitManager :=
  let why := default "等待已取消" reason in
  match waitingItems wm !! stepId with
  | None => (Returned false, wm)
  | Some a =>
      let emitted :=
        emitWaitEvent WAIT_CANCEL stepId
          (VObject (item_fields (objects wm !! a) (clock wm)
                    ++ [("reason", VString why)]))
          wm in
      match emitted.1 with
      | Some t => (Threw t, emitted.2)
      | None =>
          (Returned true,
           settle a (Rejected (JsError why)) (clearWaitItem stepId emitted.2))
      end
  end.

Definition isWaiting (stepId : string) (wm : WaitManager) : bool :=
  bool_decide (is_Some (waitingItems wm !! stepId)).

Definition getWaitingInfo (stepId : string) (wm : WaitManager)
    : option WaitingInfo :=
  a ← waitingItems wm !! stepId; item ← objects wm !! a; Some (waitingInfo item).

Definition getWaitingCount (wm : WaitManager) : nat := size (waitingItems wm).

(** [getRemainingTime]. *)
Definition getRemainingTime (stepId : string) (wm : WaitManager) : option Z :=
  a ← waitingItems wm !! stepId;
  item ← objects wm !! a;
  c ← timeoutConfig item;
  Some (Z.max 0 (cfg_timeout c - (clock wm - startTime (waitingInfo item)))).

(** [extendTimeout]. The new timeout is written into the wait item; the
    copy of the waiting info that the state of the step holds, and other
    waits that were given the same configuration object, are not followed
    here. *)
Definition extendTimeout (stepId : string) (additionalTime : Z)
    (wm : WaitManager) : bool * WaitManager :=
  match waitingItems wm !! stepId ≫= (fun a => (a,.) <$> objects wm !! a) with
  | Some (a, item) =>
      match timeoutConfig item, timeoutId item with
      | Some c, Some handle =>
          let wm1 := clearTimeout handle wm in
          let elapsed := clock wm - startTime (waitingInfo item) in
          let newTimeout := cfg_timeout c + additionalTime in
          let remainingTime := newTimeout - elapsed in
          if decide (remainingTime ≤ 0) then
            (true, handleTimeout stepId a wm1)
          else
            let t := setTimeout {| timer_stepId := stepId; timer_item := a;
                                   timer_kind := Extended newTimeout;
                                   timer_delay := remainingTime |} wm1 in
            (true,
             set_objects
               (<[a := {| item_stepId := item_stepId item;
                          waitingInfo :=
                            {| wait_type := wait_type (waitingInfo item);
                               targetId := targetId (waitingInfo item);
                               startTime := startTime (waitingInfo item);
                               info_timeout := Some newTimeout;
                               data := data (waitingInfo item) |};
                          timeoutId := Some t.1;
                          timeoutConfig :=
                            Some {| cfg_timeout := newTimeout;
                                    strategy := strategy c;
                                    defaultValue := defaultValue c |} |}]>
                  (objects t.2))
               t.2)
      | _, _ => (false, wm)
      end
  | None => (false, wm)
  end.

Arguments emitWaitEvent : simpl never.

Lemma emitWaitEvent_raised ty stepId payload wm :
  (emitWaitEvent ty stepId payload wm).1
  = raised (emit (eventEmitter wm)
              (createWorkflowEvent ty (workflowId wm) (instanceId wm) payload
                 (Some stepId) (clock wm))).
Proof. reflexivity. Qed.

Lemma emitWaitEvent_manager ty stepId payload wm :
  (emitWaitEvent ty stepId payload wm).2
  = set_events
      (events wm
       ++ [createWorkflowEvent ty (workflowId wm) (instanceId wm) payload
             (Some stepId) (clock wm)])
      wm.
Proof. reflexivity. Qed.

(** Names the event of the [emitWaitEvent] at hand in a goal that asks for
    one, and reads what the bus raised on it off that call. *)
Ltac name_event wm :=
  match goal with
  | |- context [emitWaitEvent ?ty ?sid ?payload ?w] =>
      exists (createWorkflowEvent ty (workflowId w) (instanceId w) payload
                (Some sid) (clock w));
      change (raised (emit (eventEmitter wm)
                        (createWorkflowEvent ty (workflowId w) (instanceId w)
                           payload (Some sid) (clock w))))
        with (emitWaitEvent ty sid payload w).1;
      rewrite (emitWaitEvent_manager ty sid payload w)
  end.

(** *** Releasing the entry and the timer *)

(** The entry of [stepId] is gone and the timer of [item] is not armed. *)
Definition released (stepId : string) (item : WaitItem) (wm : WaitManager)
    : Prop :=
  waitingItems wm !! stepId = None
  ∧ ∀ handle, timeoutId item = Some handle -> timers wm !! handle = None.

Lemma clearWaitItem_entry stepId wm a item :
  waitingItems wm !! stepId = Some a ->
  objects wm !! a = Some item ->
  waitingItems (clearWaitItem stepId wm) = delete stepId (waitingItems wm)
  ∧ timers (clearWaitItem stepId wm)
    = match timeoutId item with
      | Some handle => delete handle (timers wm)
      | None => timers wm
      end.
Proof.
  intros Hentry Hitem. unfold clearWaitItem. rewrite Hentry, Hitem. simpl.
  destruct (timeoutId item) as [handle|]; simpl;
    destruct (stepStates wm !! stepId); done.
Qed.

Lemma settle_keeps a s wm :
  waitingItems (settle a s wm) = waitingItems wm
  ∧ timers (settle a s wm) = timers wm.
Proof. unfold settle. by destruct (promises wm !! a). Qed.

Lemma clearWaitItem_released stepId wm a item :
  waitingItems wm !! stepId = Some a ->
  objects wm !! a = Some item ->
  released stepId item (clearWaitItem stepId wm)
  ∧ ∀ handle, timers wm !! handle = None ->
              timers (clearWaitItem stepId wm) !! handle = None.
Proof.
  intros Hentry Hitem.
  destruct (clearWaitItem_entry stepId wm a item Hentry Hitem) as [Hw Ht].
  unfold released. rewrite Hw, Ht. split; [split|].
  - apply lookup_delete_eq.
  - intros handle ->. apply lookup_delete_eq.
  - intros handle Hnone. destruct (timeoutId item) as [h|]; [|done].
    rewrite lookup_delete. by case_decide.
Qed.

Lemma released_settle stepId item a s wm :
  released stepId item wm -> released stepId item (settle a s wm).
Proof.
  unfold released. destruct (settle_keeps a s wm) as [-> ->]. done.
Qed.

(** What the specification asks of the three ways a wait can end:
    [resumeWait] and [cancelWait] return [true] exactly when the step has
    an entry in the waiting-items map, and after either of them, or after a
    timer of the step fired under the [ERROR] or [DEFAULT] strategy, the
    entry is gone and the timer of the wait item is not armed. *)
Definition releases_on_resolution (wm : WaitManager) (stepId : string)
    : Prop :=
  match waitingItems wm !! stepId with
  | None =>
      (∀ v, resumeWait stepId v wm = (Returned false, wm))
      ∧ (∀ reason, cancelWait stepId reason wm = (Returned false, wm))
  | Some a =>
      ∀ item, objects wm !! a = Some item ->
        (∀ v, (resumeWait stepId v wm).1 = Returned true
              ∧ released stepId item (resumeWait stepId v wm).2)
        ∧ (∀ reason, (cancelWait stepId reason wm).1 = Returned true
                     ∧ released stepId item (cancelWait stepId reason wm).2)
        ∧ (∀ handle t,
             timers wm !! handle = Some t ->
             timer_stepId t = stepId ->
             strategy_of (timer_item t) wm = STRATEGY_ERROR
             ∨ strategy_of (timer_item t) wm = STRATEGY_DEFAULT ->
             released stepId item (fire handle wm).2
             ∧ timers (fire handle wm).2 !! handle = None)
  end.

(** A manager without waits, on a bus without subscribers. *)
Definition idle_manager : WaitManager :=
  {| workflowId := "wf"; instanceId := "run-1";
     eventEmitter := {| listeners := ∅ |}; waitingItems := ∅;
     stepStates := ∅; objects := ∅; timers := ∅; nextHandle := 1;
     promises := ∅; clock := 0; events := [] |}.

(** A manager in which step [s1] waits for a confirmation, with a timeout
    of one second. *)
Definition waiting_manager : WaitManager :=
  (startWait "s1" WAIT_UI "confirm" (Some 1000) VUndefined idle_manager).2.

Definition waiting_item : WaitItem :=
  {| item_stepId := "s1";
     waitingInfo := {| wait_type := WAIT_UI; targetId := "confirm";
                       startTime := 0; info_timeout := Some 1000;
                       data := VUndefined |};
     timeoutId := Some 1%positive;
     timeoutConfig := Some {| cfg_timeout := 1000; strategy := STRATEGY_ERROR;
                              defaultValue := VUndefined |} |}.

(** A subscriber that throws on every event it is given. *)
Definition failing_subscriber : EventListener :=
  {| listener_id := 1; listener_run := fun _ => Some (ThrownOther "boom") |}.

(** The same wait, in a manager whose bus has a subscriber of [WAIT_RESUME]
    that throws. *)
Definition watched_manager : WaitManager :=
  (startWait "s1" WAIT_UI "confirm" (Some 1000) VUndefined
     {| workflowId := "wf"; instanceId := "run-1";
        eventEmitter := on {| listeners := ∅ |} WAIT_RESUME failing_subscriber;
        waitingItems := ∅; stepStates := ∅; objects := ∅; timers := ∅;
        nextHandle := 1; promises := ∅; clock := 0; events := [] |}).2.

(** C9, as stated, fails: with a subscriber of [WAIT_RESUME] that throws,
    [resumeWait] on a step that waits returns nothing: the exception leaves
    it, and the entry and the timer stay. *)
Lemma resume_subscriber_throws :
  ¬ releases_on_resolution watched_manager "s1".
Proof.
  unfold releases_on_resolution.
  assert (Hentry : waitingItems watched_manager !! "s1" = Some 0%nat)
    by (vm_compute; reflexivity).
  rewrite Hentry. intros Hreleases.
  destruct (Hreleases waiting_item) as (Hresume & _);
    [vm_compute; reflexivity|].
  destruct (Hresume VUndefined) as [Hreturned _].
  vm_compute in Hreturned. discriminate.
Defined.

(** C9, amended: [resumeWait] and [cancelWait] return [false] and change
    nothing when the step has no entry in the waiting-items map. When it
    has one, each of them first hands its event to the bus, and so does the
    callback of a timer of the step. When no subscriber throws on that event,
    [resumeWait] and [cancelWait] return [true], and after either of them,
    or after the timer fired under the [ERROR] or [DEFAULT] strategy, the
    entry is gone and the timer of the wait item is not armed. When a
    subscriber throws, its exception leaves the call, and the entry stays,
    and so does the timer of the wait item, unless it is the one that
    fired; the timer that fired is spent in either case. *)
Theorem wait_resolution_releases (wm : WaitManager) (stepId : string) :
  match waitingItems wm !! stepId with
  | None =>
      (∀ v, resumeWait stepId v wm = (Returned false, wm))
      ∧ (∀ reason, cancelWait stepId reason wm = (Returned false, wm))
  | Some a =>
      ∀ item, objects wm !! a = Some item ->
        (∀ v, ∃ ev,
           type ev = WAIT_RESUME ∧ Events.stepId ev = Some stepId
           ∧ match raised (emit (eventEmitter wm) ev) with
             | None =>
                 (resumeWait stepId v wm).1 = Returned true
                 ∧ released stepId item (resumeWait stepId v wm).2
             | Some thrown =>
                 resumeWait stepId v wm
                 = (Threw thrown, set_events (events wm ++ [ev]) wm)
             end)
        ∧ (∀ reason, ∃ ev,
             type ev = WAIT_CANCEL ∧ Events.stepId ev = Some stepId
             ∧ match raised (emit (eventEmitter wm) ev) with
               | None =>
                   (cancelWait stepId reason wm).1 = Returned true
                   ∧ released stepId item (cancelWait stepId reason wm).2
               | Some thrown =>
                   cancelWait stepId reason wm
                   = (Threw thrown, set_events (events wm ++ [ev]) wm)
               end)
        ∧ (∀ handle t,
             timers wm !! handle = Some t ->
             timer_stepId t = stepId ->
             strategy_of (timer_item t) wm = STRATEGY_ERROR
             ∨ strategy_of (timer_item t) wm = STRATEGY_DEFAULT ->
             ∃ ev,
               type ev = WAIT_TIMEOUT ∧ Events.stepId ev = Some stepId
               ∧ timers (fire handle wm).2 !! handle = None
               ∧ match raised (emit (eventEmitter wm) ev) with
                 | None =>
                     (fire handle wm).1 = None
                     ∧ released stepId item (fire handle wm).2
                 | Some thrown =>
                     fire handle wm
                     = (Some thrown,
                        set_events (events wm ++ [ev])
                          (set_timers (delete handle (timers wm)) wm))
                 end)
  end.
Proof.
  destruct (waitingItems wm !! stepId) as [a|] eqn:Hentry.
  - intros item Hitem. split; [|split].
    + intros v. unfold resumeWait. rewrite Hentry.
      name_event wm. split; [done|]. split; [done|].
      destruct (emitWaitEvent WAIT_RESUME _ _ _).1; [done|].
      split; [done|]. apply released_settle.
      by apply (clearWaitItem_released stepId _ a item).
    + intros reason. unfold cancelWait. rewrite Hentry.
      name_event wm. split; [done|]. split; [done|].
      destruct (emitWaitEvent WAIT_CANCEL _ _ _).1; [done|].
      split; [done|]. apply released_settle.
      by apply (clearWaitItem_released stepId _ a item).
    + intros handle t Ht <- Hstrategy. unfold fire. rewrite Ht.
      rewrite decide_True by (simpl; by rewrite Hentry).
      name_event wm. split; [done|]. split; [done|]. split.
      * destruct (emitWaitEvent WAIT_TIMEOUT _ _ _).1.
        { simpl. apply lookup_delete_eq. }
        cbn [fst snd]. unfold handleTimeout.
        match goal with
        | |- context [clearWaitItem _ ?w] =>
            destruct (clearWaitItem_released (timer_stepId t) w a item)
              as [_ Hkeep]; [done|done|];
            assert (Hspent : timers (clearWaitItem (timer_stepId t) w)
                               !! handle = None)
              by (apply Hkeep; simpl; apply lookup_delete_eq);
            assert (Hsame : strategy_of (timer_item t) w
                            = strategy_of (timer_item t) wm) by done
        end.
        rewrite Hsame.
        destruct Hstrategy as [-> | ->];
          by rewrite (proj2 (settle_keeps _ _ _)).
      * destruct (emitWaitEvent WAIT_TIMEOUT _ _ _).1; [done|].
        split; [done|]. cbn [fst snd]. unfold handleTimeout.
        match goal with
        | |- context [clearWaitItem _ ?w] =>
            destruct (clearWaitItem_released (timer_stepId t) w a item)
              as [Hrel _]; [done|done|];
            assert (Hsame : strategy_of (timer_item t) w
                            = strategy_of (timer_item t) wm) by done
        end.
        rewrite Hsame.
        destruct Hstrategy as [-> | ->]; by apply released_settle.
  - split.
    + intros v. unfold resumeWait. by rewrite Hentry.
    + intros reason. unfold cancelWait. by rewrite Hentry.
Qed.

Lemma wait_resolution_releases_witness :
  (∀ v, ∃ ev,
     type ev = WAIT_RESUME ∧ Events.stepId ev = Some "s1"
     ∧ match raised (emit (eventEmitter waiting_manager) ev) with
       | None =>
           (resumeWait "s1" v waiting_manager).1 = Returned true
           ∧ released "s1" waiting_item (resumeWait "s1" v waiting_manager).2
       | Some thrown =>
           resumeWait "s1" v waiting_manager
           = (Threw thrown,
              set_events (events waiting_manager ++ [ev]) waiting_manager)
       end)
  ∧ (∀ reason, ∃ ev,
       type ev = WAIT_CANCEL ∧ Events.stepId ev = Some "s1"
       ∧ match raised (emit (eventEmitter waiting_manager) ev) with
         | None =>
             (cancelWait "s1" reason waiting_manager).1 = Returned true
             ∧ released "s1" waiting_item
                 (cancelWait "s1" reason waiting_manager).2
         | Some thrown =>
             cancelWait "s1" reason waiting_manager
             = (Threw thrown,
                set_events (events waiting_manager ++ [ev]) waiting_manager)
         end)
  ∧ (∀ handle t,
       timers waiting_manager !! handle = Some t ->
       timer_stepId t = "s1" ->
       strategy_of (timer_item t) waiting_manager = STRATEGY_ERROR
       ∨ strategy_of (timer_item t) waiting_manager = STRATEGY_DEFAULT ->
       ∃ ev,
         type ev = WAIT_TIMEOUT ∧ Events.stepId ev = Some "s1"
         ∧ timers (fire handle waiting_manager).2 !! handle = None
         ∧ match raised (emit (eventEmitter waiting_manager) ev) with
           | None =>
               (fire handle waiting_manager).1 = None
               ∧ released "s1" waiting_item (fire handle waiting_manager).2
           | Some thrown =>
               fire handle waiting_manager
               = (Some thrown,
                  set_events (events waiting_manager ++ [ev])
                    (set_timers (delete handle (timers waiting_manager))
                       waiting_manager))
           end).
Proof.
  exact (wait_resolution_releases waiting_manager "s1" waiting_item eq_refl).
Defined.

(** *** Starting a wait *)

(** The [WaitingInfo] a wait started now gets. *)
Definition started_info (ty : WaitType) (target : string)
    (config : option TimeoutConfig) (payload : Value) (wm : WaitManager)
    : WaitingInfo :=
  {| wait_type := ty; targetId := target; startTime := clock wm;
     info_timeout := cfg_timeout <$> config; data := payload |}.

Lemma settle_frame (a : nat) (s : Settlement) (wm : WaitManager) :
  waitingItems (settle a s wm) = waitingItems wm
  ∧ timers (settle a s wm) = timers wm
  ∧ objects (settle a s wm) = objects wm
  ∧ stepStates (settle a s wm) = stepStates wm
  ∧ events (settle a s wm) = events wm
  ∧ nextHandle (settle a s wm) = nextHandle wm
  ∧ eventEmitter (settle a s wm) = eventEmitter wm.
Proof. unfold settle. by destruct (promises wm !! a). Qed.

Lemma settle_pending (a : nat) (s : Settlement) (wm : WaitManager) :
  promises wm !! a = None -> promises (settle a s wm) !! a = Some s.
Proof.
  intros Hpending. unfold settle. rewrite Hpending. simpl.
  by rewrite lookup_insert_eq.
Qed.

Lemma settle_others (a b : nat) (s : Settlement) (wm : WaitManager) :
  a ≠ b -> promises (settle a s wm) !! b = promises wm !! b.
Proof.
  intros Hne. unfold settle. destruct (promises wm !! a); [done|].
  simpl. by rewrite lookup_insert_ne.
Qed.

(** X25: After [startWaitWithConfig] the step is waiting, its waiting info
    carries the start time and the timeout, its state is [WAITING_INPUT]
    with that info, the promise returned is a new one and the one the map
    holds, a timer for the timeout is armed exactly when the timeout is
    positive, and the last event is [WAIT_START]. The promise is still
    pending when no subscriber throws on that event; when one throws, the
    promise is rejected with what it threw, and the entry, the state and
    the timer are there all the same. No other promise is touched. *)
Theorem startWait_registers (stepId : string) (ty : WaitType)
    (target : string) (config : option TimeoutConfig) (payload : Value)
    (wm : WaitManager) :
  isWaiting stepId (startWaitWithConfig stepId ty target config payload wm).2
  = true
  ∧ waitingItems (startWaitWithConfig stepId ty target config payload wm).2
      !! stepId
    = Some (startWaitWithConfig stepId ty target config payload wm).1
  ∧ getWaitingInfo stepId
      (startWaitWithConfig stepId ty target config payload wm).2
    = Some (started_info ty target config payload wm)
  ∧ stepStates (startWaitWithConfig stepId ty target config payload wm).2
      !! stepId
    = Some {| state_stepId := stepId; status := WAITING_INPUT; retryCount := 0;
              state_startTime := Some (clock wm);
              waitingFor := Some (started_info ty target config payload wm) |}
  ∧ promises wm !! (startWaitWithConfig stepId ty target config payload wm).1
    = None
  ∧ objects wm !! (startWaitWithConfig stepId ty target config payload wm).1
    = None
  ∧ (∀ other,
       other ≠ (startWaitWithConfig stepId ty target config payload wm).1 ->
       promises (startWaitWithConfig stepId ty target config payload wm).2
         !! other
       = promises wm !! other)
  ∧ match armed_config config with
    | Some c =>
        timers (startWaitWithConfig stepId ty target config payload wm).2
        = <[nextHandle wm :=
              {| timer_stepId := stepId;
                 timer_item :=
                   (startWaitWithConfig stepId ty target config payload wm).1;
                 timer_kind := Initial; timer_delay := cfg_timeout c |}]>
            (timers wm)
    | None =>
        timers (startWaitWithConfig stepId ty target config payload wm).2
        = timers wm
    end
  ∧ ∃ ev,
      events (startWaitWithConfig stepId ty target config payload wm).2
      = events wm ++ [ev]
      ∧ type ev = WAIT_START ∧ Events.stepId ev = Some stepId
      ∧ promises (startWaitWithConfig stepId ty target config payload wm).2
          !! (startWaitWithConfig stepId ty target config payload wm).1
        = rejected_with <$> raised (emit (eventEmitter wm) ev).
Proof.
  unfold startWaitWithConfig, isWaiting, getWaitingInfo, started_info.
  cbv zeta. cbn [fst snd].
  set (a := fresh _).
  assert (Hfresh : a ∉ dom (objects wm) ∪ dom (promises wm))
    by apply is_fresh.
  assert (Hpromise : promises wm !! a = None).
  { apply not_elem_of_dom. set_solver. }
  assert (Hobject : objects wm !! a = None).
  { apply not_elem_of_dom. set_solver. }
  match goal with
  | |- context [emitWaitEvent ?ty ?sid ?payload ?w] =>
      pose proof (emitWaitEvent_raised ty sid payload w) as Hraised;
      pose proof (emitWaitEvent_manager ty sid payload w) as Hmanager;
      set (emitted := emitWaitEvent ty sid payload w) in *;
      assert (Hbus : eventEmitter w = eventEmitter wm)
        by (by destruct (armed_config config));
      assert (Hsame : promises w = promises wm)
        by (by destruct (armed_config config))
  end.
  rewrite Hbus in Hraised. clearbody emitted.
  assert (Hpromises : promises emitted.2 = promises wm)
    by (rewrite Hmanager; exact Hsame).
  set (final := match emitted.1 with
                | Some t => settle a (rejected_with t) emitted.2
                | None => emitted.2
                end).
  assert (Hframe : waitingItems final = waitingItems emitted.2
                   ∧ timers final = timers emitted.2
                   ∧ objects final = objects emitted.2
                   ∧ stepStates final = stepStates emitted.2
                   ∧ events final = events emitted.2).
  { unfold final. destruct emitted.1; [|done].
    destruct (settle_frame a (rejected_with t) emitted.2)
      as (-> & -> & -> & -> & -> & _). done. }
  destruct Hframe as (-> & -> & -> & -> & ->). rewrite Hmanager.
  assert (Hsettled : promises final !! a
                     = rejected_with <$> emitted.1).
  { unfold final. destruct emitted.1 as [t|]; simpl.
    - apply settle_pending. by rewrite Hpromises.
    - by rewrite Hpromises. }
  assert (Hothers : ∀ other, other ≠ a ->
                      promises final !! other = promises wm !! other).
  { intros other Hne. unfold final. destruct emitted.1 as [t|].
    - rewrite settle_others by done. by rewrite Hpromises.
    - by rewrite Hpromises. }
  rewrite Hsettled, Hraised. clear Hsettled Hraised Hmanager.
  destruct (armed_config config) as [c|]; simpl;
    rewrite !lookup_insert_eq; simpl; rewrite ?lookup_insert_eq; simpl;
    repeat split; try done; by eexists.
Qed.

(** *** How a wait ends *)

Lemma clearWaitItem_keeps (stepId : string) (wm : WaitManager) :
  promises (clearWaitItem stepId wm) = promises wm
  ∧ objects (clearWaitItem stepId wm) = objects wm
  ∧ events (clearWaitItem stepId wm) = events wm
  ∧ nextHandle (clearWaitItem stepId wm) = nextHandle wm
  ∧ eventEmitter (clearWaitItem stepId wm) = eventEmitter wm.
Proof.
  unfold clearWaitItem.
  destruct (waitingItems wm !! stepId) as [a|]; [|done].
  destruct (objects wm !! a ≫= timeoutId) as [handle|]; simpl;
    destruct (stepStates wm !! stepId); done.
Qed.

Lemma clearWaitItem_state (stepId : string) (wm : WaitManager) (a : nat)
    (st : StepState) :
  waitingItems wm !! stepId = Some a ->
  stepStates wm !! stepId = Some st ->
  stepStates (clearWaitItem stepId wm) !! stepId
  = Some {| state_stepId := state_stepId st; status := status st;
            retryCount := retryCount st;
            state_startTime := state_startTime st; waitingFor := None |}.
Proof.
  intros Hentry Hstate. unfold clearWaitItem. rewrite Hentry.
  destruct (objects wm !! a ≫= timeoutId) as [handle|]; simpl;
    rewrite Hstate; simpl; by rewrite lookup_insert_eq.
Qed.

Lemma restartWaitTimer_promises (stepId : string) (a : nat)
    (wm : WaitManager) :
  promises (restartWaitTimer stepId a wm) = promises wm.
Proof.
  unfold restartWaitTimer. destruct (objects wm !! a) as [item|]; [|done].
  by destruct (armed_config (timeoutConfig item)).
Qed.

(** The state of a step once its wait is over: as it was, without
    [waitingFor]. *)
Definition resumed (st : StepState) : StepState :=
  {| state_stepId := state_stepId st; status := status st;
     retryCount := retryCount st; state_startTime := state_startTime st;
     waitingFor := None |}.

(** X26: [resumeWait], [cancelWait] and the callback of the timer of a wait
    first hand their event to the bus. When no subscriber throws on it, the
    promise of a wait that is still pending is fulfilled with the result by
    [resumeWait] and rejected with the reason by [cancelWait] (['等待已取消']
    when none is given), and both drop [waitingFor] from the state of the
    step and keep its status; when the timer fires, the [ERROR] strategy
    rejects the promise with a [TimeoutError] carrying the step id and the
    timeout, the [DEFAULT] strategy fulfils it with the default value, and
    the [IGNORE] strategy leaves it pending. When a subscriber throws, its
    exception leaves the call, no promise is settled and the state of the
    step is as it was. *)
Theorem wait_outcome (wm : WaitManager) (stepId : string) (a : nat)
    (item : WaitItem) :
  waitingItems wm !! stepId = Some a ->
  objects wm !! a = Some item ->
  promises wm !! a = None ->
  (∀ v, ∃ ev,
     type ev = WAIT_RESUME ∧ Events.stepId ev = Some stepId
     ∧ match raised (emit (eventEmitter wm) ev) with
       | None =>
           (resumeWait stepId v wm).1 = Returned true
           ∧ promises (resumeWait stepId v wm).2 !! a = Some (Fulfilled v)
           ∧ stepStates (resumeWait stepId v wm).2 !! stepId
             = resumed <$> stepStates wm !! stepId
       | Some thrown =>
           (resumeWait stepId v wm).1 = Threw thrown
           ∧ promises (resumeWait stepId v wm).2 = promises wm
           ∧ stepStates (resumeWait stepId v wm).2 = stepStates wm
       end)
  ∧ (∀ reason, ∃ ev,
       type ev = WAIT_CANCEL ∧ Events.stepId ev = Some stepId
       ∧ match raised (emit (eventEmitter wm) ev) with
         | None =>
             (cancelWait stepId reason wm).1 = Returned true
             ∧ promises (cancelWait stepId reason wm).2 !! a
               = Some (Rejected (JsError (default "等待已取消" reason)))
             ∧ stepStates (cancelWait stepId reason wm).2 !! stepId
               = resumed <$> stepStates wm !! stepId
         | Some thrown =>
             (cancelWait stepId reason wm).1 = Threw thrown
             ∧ promises (cancelWait stepId reason wm).2 = promises wm
             ∧ stepStates (cancelWait stepId reason wm).2 = stepStates wm
         end)
  ∧ (∀ handle t c,
       timers wm !! handle = Some t ->
       timer_stepId t = stepId -> timer_item t = a ->
       timeoutConfig item = Some c ->
       ∃ ev,
         type ev = WAIT_TIMEOUT ∧ Events.stepId ev = Some stepId
         ∧ match raised (emit (eventEmitter wm) ev) with
           | None =>
               (fire handle wm).1 = None
               ∧ promises (fire handle wm).2 !! a
                 = match strategy c with
                   | STRATEGY_ERROR =>
                       Some (Rejected (TimeoutError (timeout_message stepId)
                                         stepId (cfg_timeout c)))
                   | STRATEGY_DEFAULT => Some (Fulfilled (defaultValue c))
                   | STRATEGY_IGNORE => None
                   end
           | Some thrown =>
               (fire handle wm).1 = Some thrown
               ∧ promises (fire handle wm).2 = promises wm
               ∧ stepStates (fire handle wm).2 = stepStates wm
           end).
Proof.
  intros Hentry Hitem Hpending.
  assert (Hsettled : ∀ s w,
             promises w = promises wm ->
             promises (settle a s (clearWaitItem stepId w)) !! a = Some s).
  { intros s w Hw. apply settle_pending.
    destruct (clearWaitItem_keeps stepId w) as (-> & _). by rewrite Hw. }
  assert (Hstate : ∀ s w,
             waitingItems w = waitingItems wm ->
             stepStates w = stepStates wm ->
             stepStates (settle a s (clearWaitItem stepId w)) !! stepId
             = resumed <$> stepStates wm !! stepId).
  { intros s w Hw Hs.
    destruct (settle_frame a s (clearWaitItem stepId w))
      as (_ & _ & _ & -> & _).
    destruct (stepStates wm !! stepId) as [st|] eqn:Hst.
    - apply (clearWaitItem_state stepId w a).
      + by rewrite Hw.
      + by rewrite Hs.
    - unfold clearWaitItem. rewrite Hw, Hentry.
      destruct (objects w !! a ≫= timeoutId); simpl; rewrite Hs, Hst;
        simpl; by rewrite Hs, Hst. }
  split; [|split].
  - intros v. unfold resumeWait. rewrite Hentry. name_event wm.
    split; [done|]. split; [done|].
    destruct (emitWaitEvent WAIT_RESUME _ _ _).1; [done|].
    cbn [fst snd]. split; [done|]. split; [by apply Hsettled|by apply Hstate].
  - intros reason. unfold cancelWait. rewrite Hentry. name_event wm.
    split; [done|]. split; [done|].
    destruct (emitWaitEvent WAIT_CANCEL _ _ _).1; [done|].
    cbn [fst snd]. split; [done|]. split; [by apply Hsettled|by apply Hstate].
  - intros handle t c Ht Hstep Hcaptured Hconfig. unfold fire. rewrite Ht.
    rewrite decide_True by (simpl; rewrite Hstep, Hentry; by eexists).
    name_event wm. split; [done|]. split; [by rewrite Hstep|].
    destruct (emitWaitEvent WAIT_TIMEOUT _ _ _).1; [done|].
    cbn [fst snd]. split; [done|].
    unfold handleTimeout, strategy_of. rewrite Hstep, Hcaptured. simpl.
    rewrite Hitem. simpl. rewrite Hconfig. simpl.
    destruct (strategy c).
    + by apply Hsettled.
    + by apply Hsettled.
    + rewrite restartWaitTimer_promises.
      match goal with
      | |- context [clearWaitItem stepId ?w] =>
          destruct (clearWaitItem_keeps stepId w) as (-> & _)
      end.
      exact Hpending.
Qed.

Lemma wait_outcome_witness :
  (∀ v, ∃ ev,
     type ev = WAIT_RESUME ∧ Events.stepId ev = Some "s1"
     ∧ match raised (emit (eventEmitter waiting_manager) ev) with
       | None =>
           (resumeWait "s1" v waiting_manager).1 = Returned true
           ∧ promises (resumeWait "s1" v waiting_manager).2 !! 0%nat
             = Some (Fulfilled v)
           ∧ stepStates (resumeWait "s1" v waiting_manager).2 !! "s1"
             = resumed <$> stepStates waiting_manager !! "s1"
       | Some thrown =>
           (resumeWait "s1" v waiting_manager).1 = Threw thrown
           ∧ promises (resumeWait "s1" v waiting_manager).2
             = promises waiting_manager
           ∧ stepStates (resumeWait "s1" v waiting_manager).2
             = stepStates waiting_manager
       end)
  ∧ (∀ reason, ∃ ev,
       type ev = WAIT_CANCEL ∧ Events.stepId ev = Some "s1"
       ∧ match raised (emit (eventEmitter waiting_manager) ev) with
         | None =>
             (cancelWait "s1" reason waiting_manager).1 = Returned true
             ∧ promises (cancelWait "s1" reason waiting_manager).2 !! 0%nat
               = Some (Rejected (JsError (default "等待已取消" reason)))
             ∧ stepStates (cancelWait "s1" reason waiting_manager).2 !! "s1"
               = resumed <$> stepStates waiting_manager !! "s1"
         | Some thrown =>
             (cancelWait "s1" reason waiting_manager).1 = Threw thrown
             ∧ promises (cancelWait "s1" reason waiting_manager).2
               = promises waiting_manager
             ∧ stepStates (cancelWait "s1" reason waiting_manager).2
               = stepStates waiting_manager
         end)
  ∧ (∀ handle t c,
       timers waiting_manager !! handle = Some t ->
       timer_stepId t = "s1" -> timer_item t = 0%nat ->
       timeoutConfig waiting_item = Some c ->
       ∃ ev,
         type ev = WAIT_TIMEOUT ∧ Events.stepId ev = Some "s1"
         ∧ match raised (emit (eventEmitter waiting_manager) ev) with
           | None =>
               (fire handle waiting_manager).1 = None
               ∧ promises (fire handle waiting_manager).2 !! 0%nat
                 = match strategy c with
                   | STRATEGY_ERROR =>
                       Some (Rejected (TimeoutError (timeout_message "s1")
                                         "s1" (cfg_timeout c)))
                   | STRATEGY_DEFAULT => Some (Fulfilled (defaultValue c))
                   | STRATEGY_IGNORE => None
                   end
           | Some thrown =>
               (fire handle waiting_manager).1 = Some thrown
               ∧ promises (fire handle waiting_manager).2
                 = promises waiting_manager
               ∧ stepStates (fire handle waiting_manager).2
                 = stepStates waiting_manager
           end).
Proof.
  apply (wait_outcome waiting_manager "s1" 0%nat waiting_item);
    vm_compute; reflexivity.
Defined.

(** *** Extending a timeout *)

Lemma settle_events (a : nat) (s : Settlement) (wm : WaitManager) :
  events (settle a s wm) = events wm.
Proof. unfold settle. by destruct (promises wm !! a). Qed.

Lemma restartWaitTimer_events (stepId : string) (a : nat) (wm : WaitManager) :
  events (restartWaitTimer stepId a wm) = events wm.
Proof.
  unfold restartWaitTimer. destruct (objects wm !! a) as [item|]; [|done].
  by destruct (armed_config (timeoutConfig item)).
Qed.

(** X27: [extendTimeout] on a wait that has a timeout and an armed timer, when
    the extended timeout is still ahead: the old timer is cleared, a new
    one is armed for the time that is left, the timeout of the wait becomes
    the extended one, so that [getRemainingTime] gives the time left, and
    the step goes on waiting; no promise is settled and no event emitted. *)
Theorem extendTimeout_rearms (wm : WaitManager) (stepId : string) (a : nat)
    (item : WaitItem) (c : TimeoutConfig) (handle : positive)
    (additionalTime : Z) :
  waitingItems wm !! stepId = Some a ->
  objects wm !! a = Some item ->
  timeoutConfig item = Some c ->
  timeoutId item = Some handle ->
  0 < cfg_timeout c + additionalTime - (clock wm - startTime (waitingInfo item)) ->
  (extendTimeout stepId additionalTime wm).1 = true
  ∧ timers (extendTimeout stepId additionalTime wm).2
    = <[nextHandle wm :=
          {| timer_stepId := stepId; timer_item := a;
             timer_kind := Extended (cfg_timeout c + additionalTime);
             timer_delay :=
               cfg_timeout c + additionalTime
               - (clock wm - startTime (waitingInfo item)) |}]>
        (delete handle (timers wm))
  ∧ getRemainingTime stepId (extendTimeout stepId additionalTime wm).2
    = Some (cfg_timeout c + additionalTime
            - (clock wm - startTime (waitingInfo item)))
  ∧ info_timeout
    <$> getWaitingInfo stepId (extendTimeout stepId additionalTime wm).2
    = Some (Some (cfg_timeout c + additionalTime))
  ∧ isWaiting stepId (extendTimeout stepId additionalTime wm).2 = true
  ∧ promises (extendTimeout stepId additionalTime wm).2 = promises wm
  ∧ events (extendTimeout stepId additionalTime wm).2 = events wm.
Proof.
  intros Hentry Hitem Hconfig Hid Hleft.
  unfold extendTimeout, getRemainingTime, getWaitingInfo, isWaiting.
  rewrite Hentry. simpl. rewrite Hitem. simpl. rewrite Hconfig, Hid.
  rewrite decide_False by lia. simpl.
  rewrite Hentry. simpl. rewrite !lookup_insert_eq. simpl.
  repeat split; try done.
  f_equal. lia.
Qed.

(** X28: [extendTimeout] when even the extended timeout has passed: it returns
    [true] all the same, and the wait times out at once, as its strategy
    says, without a [WAIT_TIMEOUT] event; under the [ERROR] strategy the
    error carries the timeout as it was before the extension. *)
Theorem extendTimeout_expired (wm : WaitManager) (stepId : string) (a : nat)
    (item : WaitItem) (c : TimeoutConfig) (handle : positive)
    (additionalTime : Z) :
  waitingItems wm !! stepId = Some a ->
  objects wm !! a = Some item ->
  timeoutConfig item = Some c ->
  timeoutId item = Some handle ->
  promises wm !! a = None ->
  cfg_timeout c + additionalTime - (clock wm - startTime (waitingInfo item)) ≤ 0 ->
  (extendTimeout stepId additionalTime wm).1 = true
  ∧ events (extendTimeout stepId additionalTime wm).2 = events wm
  ∧ promises (extendTimeout stepId additionalTime wm).2 !! a
    = match strategy c with
      | STRATEGY_ERROR =>
          Some (Rejected (TimeoutError (timeout_message stepId) stepId
                            (cfg_timeout c)))
      | STRATEGY_DEFAULT => Some (Fulfilled (defaultValue c))
      | STRATEGY_IGNORE => None
      end
  ∧ (strategy c ≠ STRATEGY_IGNORE ->
     isWaiting stepId (extendTimeout stepId additionalTime wm).2 = false).
Proof.
  intros Hentry Hitem Hconfig Hid Hpending Hpast.
  unfold extendTimeout. rewrite Hentry. simpl. rewrite Hitem. simpl.
  rewrite Hconfig, Hid. rewrite decide_True by lia. simpl.
  split; [done|].
  unfold handleTimeout, strategy_of. simpl. rewrite Hitem. simpl.
  rewrite Hconfig. simpl.
  destruct (clearWaitItem_keeps stepId (clearTimeout handle wm))
    as (Hp & Ho & He & _).
  assert (Hgone : waitingItems (clearWaitItem stepId (clearTimeout handle wm))
                    !! stepId = None).
  { destruct (clearWaitItem_entry stepId (clearTimeout handle wm) a item)
      as [-> _]; [done|done|]. apply lookup_delete_eq. }
  destruct (strategy c).
  - split; [|split].
    + by rewrite settle_events, He.
    + apply settle_pending. by rewrite Hp.
    + intros _. unfold isWaiting. apply bool_decide_eq_false.
      rewrite (proj1 (settle_keeps _ _ _)), Hgone. by intros [? ?].
  - split; [|split].
    + by rewrite settle_events, He.
    + apply settle_pending. by rewrite Hp.
    + intros _. unfold isWaiting. apply bool_decide_eq_false.
      rewrite (proj1 (settle_keeps _ _ _)), Hgone. by intros [? ?].
  - split; [|split; [|done]].
    + by rewrite restartWaitTimer_events, He.
    + by rewrite restartWaitTimer_promises, Hp.
Qed.

Lemma extendTimeout_rearms_witness :
  (extendTimeout "s1" 500 waiting_manager).1 = true
  ∧ timers (extendTimeout "s1" 500 waiting_manager).2
    = <[nextHandle waiting_manager :=
          {| timer_stepId := "s1"; timer_item := 0%nat;
             timer_kind := Extended (1000 + 500);
             timer_delay :=
               1000 + 500
               - (clock waiting_manager - startTime (waitingInfo waiting_item)) |}]>
        (delete 1%positive (timers waiting_manager))
  ∧ getRemainingTime "s1" (extendTimeout "s1" 500 waiting_manager).2
    = Some (1000 + 500
            - (clock waiting_manager - startTime (waitingInfo waiting_item)))
  ∧ info_timeout
    <$> getWaitingInfo "s1" (extendTimeout "s1" 500 waiting_manager).2
    = Some (Some (1000 + 500))
  ∧ isWaiting "s1" (extendTimeout "s1" 500 waiting_manager).2 = true
  ∧ promises (extendTimeout "s1" 500 waiting_manager).2
    = promises waiting_manager
  ∧ events (extendTimeout "s1" 500 waiting_manager).2
    = events waiting_manager.
Proof.
  apply (extendTimeout_rearms waiting_manager "s1" 0%nat waiting_item
           {| cfg_timeout := 1000; strategy := STRATEGY_ERROR;
              defaultValue := VUndefined |} 1%positive 500);
    vm_compute; reflexivity.
Defined.

Lemma extendTimeout_expired_witness :
  (extendTimeout "s1" (-2000) waiting_manager).1 = true
  ∧ events (extendTimeout "s1" (-2000) waiting_manager).2
    = events waiting_manager
  ∧ promises (extendTimeout "s1" (-2000) waiting_manager).2 !! 0%nat
    = Some (Rejected (TimeoutError (timeout_message "s1") "s1" 1000))
  ∧ (STRATEGY_ERROR ≠ STRATEGY_IGNORE ->
     isWaiting "s1" (extendTimeout "s1" (-2000) waiting_manager).2 = false).
Proof.
  apply (extendTimeout_expired waiting_manager "s1" 0%nat waiting_item
           {| cfg_timeout := 1000; strategy := STRATEGY_ERROR;
              defaultValue := VUndefined |} 1%positive (-2000));
    vm_compute; first [reflexivity | discriminate].
Defined.

(** *** The [IGNORE] strategy *)

(** X29: When the timer of a wait fires under the [IGNORE] strategy, with a
    positive timeout, [WAIT_TIMEOUT] is handed to the bus, the timer that
    fired is spent, and the step goes on waiting on the same promise. When
    no subscriber throws on the event, a new timer is armed for the same
    timeout and recorded in the wait item, and the state of the step has
    lost its [waitingFor]. When a subscriber throws, its exception leaves
    the callback: no timer is armed any more for the wait, and the wait
    item and the state of the step are as they were. *)
Theorem ignore_keeps_waiting (wm : WaitManager) (stepId : string) (a : nat)
    (item : WaitItem) (c : TimeoutConfig) (handle : positive) (t : Timer)
    (st : StepState) :
  timers wm !! handle = Some t ->
  timer_stepId t = stepId -> timer_item t = a ->
  waitingItems wm !! stepId = Some a ->
  objects wm !! a = Some item ->
  timeoutConfig item = Some c ->
  strategy c = STRATEGY_IGNORE ->
  0 < cfg_timeout c ->
  stepStates wm !! stepId = Some st ->
  waitingItems (fire handle wm).2 !! stepId = Some a
  ∧ promises (fire handle wm).2 = promises wm
  ∧ ∃ ev,
      events (fire handle wm).2 = events wm ++ [ev]
      ∧ type ev = WAIT_TIMEOUT ∧ Events.stepId ev = Some stepId
      ∧ match raised (emit (eventEmitter wm) ev) with
        | None =>
            (fire handle wm).1 = None
            ∧ timers (fire handle wm).2 !! nextHandle wm
              = Some {| timer_stepId := stepId; timer_item := a;
                        timer_kind := Restarted;
                        timer_delay := cfg_timeout c |}
            ∧ (timeoutId <$> objects (fire handle wm).2 !! a)
              = Some (Some (nextHandle wm))
            ∧ (waitingFor <$> stepStates (fire handle wm).2 !! stepId)
              = Some None
        | Some thrown =>
            (fire handle wm).1 = Some thrown
            ∧ timers (fire handle wm).2 = delete handle (timers wm)
            ∧ objects (fire handle wm).2 = objects wm
            ∧ stepStates (fire handle wm).2 = stepStates wm
        end.
Proof.
  intros Ht Hstep Hcaptured Hentry Hitem Hconfig Hignore Hpositive Hstate.
  unfold fire. rewrite Ht.
  rewrite decide_True by (simpl; rewrite Hstep, Hentry; by eexists).
  match goal with
  | |- context [emitWaitEvent ?ty ?sid ?payload ?w] =>
      pose proof (emitWaitEvent_raised ty sid payload w) as Hraised;
      pose proof (emitWaitEvent_manager ty sid payload w) as Hmanager;
      set (emitted := emitWaitEvent ty sid payload w) in *
  end.
  change (eventEmitter (set_timers (delete handle (timers wm)) wm))
    with (eventEmitter wm) in Hraised.
  clearbody emitted.
  match type of Hmanager with
  | _ = set_events (_ ++ [?e]) _ => set (ev := e) in *
  end.
  assert (Hty : type ev = WAIT_TIMEOUT) by done.
  assert (Hsid : Events.stepId ev = Some stepId) by (by rewrite <- Hstep).
  destruct emitted.1 as [thrown|]; cbn [fst snd].
  { rewrite Hmanager. simpl. split; [done|]. split; [done|].
    exists ev. rewrite <- Hraised. repeat split; done. }
  unfold handleTimeout, strategy_of. rewrite Hstep, Hcaptured, Hmanager.
  simpl. rewrite Hitem. simpl. rewrite Hconfig. simpl. rewrite Hignore.
  match goal with
  | |- context [clearWaitItem stepId ?w] => set (fired := w)
  end.
  destruct (clearWaitItem_keeps stepId fired) as (Hp & Ho & He & Hn & _).
  assert (Hentry' : waitingItems fired !! stepId = Some a) by exact Hentry.
  assert (Hstate' : stepStates fired !! stepId = Some st) by exact Hstate.
  pose proof (clearWaitItem_state stepId fired a st Hentry' Hstate')
    as Hcleared.
  assert (Harmed : armed_config (timeoutConfig item) = Some c).
  { rewrite Hconfig. simpl. by rewrite decide_True. }
  unfold restartWaitTimer. rewrite Ho. simpl. rewrite Hitem, Harmed. simpl.
  rewrite Hn, Hp, He, Hcleared. simpl. rewrite !lookup_insert_eq. simpl.
  split; [done|]. split; [done|]. exists ev. rewrite <- Hraised.
  repeat split; done.
Qed.

Definition patient_config : TimeoutConfig :=
  {| cfg_timeout := 1000; strategy := STRATEGY_IGNORE;
     defaultValue := VUndefined |}.

(** A manager in which step [s1] waits under the [IGNORE] strategy. *)
Definition patient_manager : WaitManager :=
  (startWaitWithConfig "s1" WAIT_UI "confirm" (Some patient_config) VUndefined
     idle_manager).2.

Lemma ignore_keeps_waiting_witness :
  waitingItems (fire 1%positive patient_manager).2 !! "s1" = Some 0%nat
  ∧ promises (fire 1%positive patient_manager).2 = promises patient_manager
  ∧ ∃ ev,
      events (fire 1%positive patient_manager).2
      = events patient_manager ++ [ev]
      ∧ type ev = WAIT_TIMEOUT ∧ Events.stepId ev = Some "s1"
      ∧ match raised (emit (eventEmitter patient_manager) ev) with
        | None =>
            (fire 1%positive patient_manager).1 = None
            ∧ timers (fire 1%positive patient_manager).2
                !! nextHandle patient_manager
              = Some {| timer_stepId := "s1"; timer_item := 0%nat;
                        timer_kind := Restarted;
                        timer_delay := cfg_timeout patient_config |}
            ∧ (timeoutId
               <$> objects (fire 1%positive patient_manager).2 !! 0%nat)
              = Some (Some (nextHandle patient_manager))
            ∧ (waitingFor
               <$> stepStates (fire 1%positive patient_manager).2 !! "s1")
              = Some None
        | Some thrown =>
            (fire 1%positive patient_manager).1 = Some thrown
            ∧ timers (fire 1%positive patient_manager).2
              = delete 1%positive (timers patient_manager)
            ∧ objects (fire 1%positive patient_manager).2
              = objects patient_manager
            ∧ stepStates (fire 1%positive patient_manager).2
              = stepStates patient_manager
        end.
Proof.
  apply (ignore_keeps_waiting patient_manager "s1" 0%nat
           {| item_stepId := "s1";
              waitingInfo :=
                started_info WAIT_UI "confirm" (Some patient_config) VUndefined
                  idle_manager;
              timeoutId := Some 1%positive;
              timeoutConfig := Some patient_config |}
           patient_config 1%positive
           {| timer_stepId := "s1"; timer_item := 0%nat;
              timer_kind := Initial; timer_delay := 1000 |}
           {| state_stepId := "s1"; status := WAITING_INPUT; retryCount := 0;
              state_startTime := Some 0;
              waitingFor :=
                Some (started_info WAIT_UI "confirm" (Some patient_config)
                        VUndefined idle_manager) |});
    vm_compute; reflexivity.
Defined.

(** *** Cancelling every wait *)

(** The [for (const stepId of stepIds)] loop of [cancelAllWaits]: what a
    [cancelWait] throws ends it. *)
Fixpoint cancel_each (why : string) (stepIds : list string) (wm : WaitManager)
    : option Thrown * WaitManager :=
  match stepIds with
  | [] => (None, wm)
  | stepId :: rest =>
      let cancelled := cancelWait stepId (Some why) wm in
      match cancelled.1 with
      | Threw t => (Some t, cancelled.2)
      | Returned _ => cancel_each why rest cancelled.2
      end
  end.

(** [cancelAllWaits]: [cancelWait] for each of the step ids that were
    waiting when it was called, in the order [stepIds] of the keys of the
    map; the reason defaults to ['工作流已取消']. The first component is what
    left the call, if anything did. *)
Definition cancelAllWaits (stepIds : list string) (reason : option string)
    (wm : WaitManager) : option Thrown * WaitManager :=
  cancel_each (default "工作流已取消" reason) stepIds wm.

Lemma foldr_delete_commute (stepId : string) (ids : list string)
    (m : gmap string nat) :
  foldr delete (delete stepId m) ids = delete stepId (foldr delete m ids).
Proof.
  induction ids as [|i ids IH]; simpl; [done|].
  rewrite IH. apply delete_delete.
Qed.

Lemma lookup_foldr_delete (stepId : string) (ids : list string)
    (m : gmap string nat) :
  foldr delete m ids !! stepId
  = if decide (stepId ∈ ids) then None else m !! stepId.
Proof.
  induction ids as [|i ids IH].
  - destruct (decide (stepId ∈ [])) as [Hin|_]; [|done].
    by apply elem_of_nil in Hin.
  - change (foldr delete m (i :: ids)) with (delete i (foldr delete m ids)).
    destruct (decide (i = stepId)) as [->|Hne].
    + rewrite lookup_delete_eq.
      destruct (decide (stepId ∈ stepId :: ids)) as [_|Hout]; [done|].
      exfalso. apply Hout. by left.
    + rewrite lookup_delete_ne by done. rewrite IH.
      destruct (decide (stepId ∈ ids)) as [Hin|Hout];
        destruct (decide (stepId ∈ i :: ids)) as [Hin'|Hout']; try done.
      * exfalso. apply Hout'. by right.
      * by apply elem_of_cons in Hin' as [->|Hin'].
Qed.

(** One [cancelWait] on a step that waits: the event it hands to the bus,
    and either the exception of a subscriber, with nothing released, or
    the entry deleted. *)
Lemma cancelWait_step (stepId : string) (reason : option string)
    (wm : WaitManager) :
  is_Some (waitingItems wm !! stepId) ->
  ∃ ev,
    type ev = WAIT_CANCEL ∧ Events.stepId ev = Some stepId
    ∧ events (cancelWait stepId reason wm).2 = events wm ++ [ev]
    ∧ eventEmitter (cancelWait stepId reason wm).2 = eventEmitter wm
    ∧ match raised (emit (eventEmitter wm) ev) with
      | Some thrown =>
          (cancelWait stepId reason wm).1 = Threw thrown
          ∧ waitingItems (cancelWait stepId reason wm).2 = waitingItems wm
      | None =>
          (cancelWait stepId reason wm).1 = Returned true
          ∧ waitingItems (cancelWait stepId reason wm).2
            = delete stepId (waitingItems wm)
      end.
Proof.
  intros [a Hentry]. unfold cancelWait. rewrite Hentry. name_event wm.
  split; [done|]. split; [done|].
  destruct (emitWaitEvent WAIT_CANCEL _ _ _).1; [done|]. cbn [fst snd].
  match goal with
  | |- context [settle ?b ?s ?w] =>
      destruct (settle_frame b s w) as (-> & _ & _ & _ & -> & _ & ->)
  end.
  match goal with
  | |- context [clearWaitItem stepId ?w] =>
      destruct (clearWaitItem_keeps stepId w) as (_ & _ & -> & _ & ->)
  end.
  repeat split; try done.
  unfold clearWaitItem. simpl. rewrite Hentry.
  destruct (objects wm !! a ≫= timeoutId); simpl;
    destruct (stepStates wm !! stepId); done.
Qed.

Lemma cancel_each_run (why : string) (stepIds : list string)
    (wm : WaitManager) :
  NoDup stepIds ->
  (∀ stepId, stepId ∈ stepIds -> is_Some (waitingItems wm !! stepId)) ->
  ∃ cancelled,
    Forall (fun ev => type ev = WAIT_CANCEL
                      ∧ raised (emit (eventEmitter wm) ev) = None) cancelled
    ∧ map Events.stepId cancelled
      = map Some (take (length cancelled) stepIds)
    ∧ waitingItems (cancel_each why stepIds wm).2
      = foldr delete (waitingItems wm) (take (length cancelled) stepIds)
    ∧ match (cancel_each why stepIds wm).1 with
      | None =>
          events (cancel_each why stepIds wm).2 = events wm ++ cancelled
          ∧ length cancelled = length stepIds
      | Some thrown =>
          ∃ ev,
            events (cancel_each why stepIds wm).2
            = events wm ++ cancelled ++ [ev]
            ∧ type ev = WAIT_CANCEL
            ∧ Events.stepId ev = stepIds !! length cancelled
            ∧ is_Some (stepIds !! length cancelled)
            ∧ raised (emit (eventEmitter wm) ev) = Some thrown
      end.
Proof.
  revert wm. induction stepIds as [|stepId rest IH]; intros wm Hnd Hwaiting.
  - exists []. simpl. rewrite app_nil_r. repeat split; done.
  - apply NoDup_cons in Hnd as [Hnew Hnd]. simpl.
    destruct (cancelWait_step stepId (Some why) wm)
      as (ev & Hty & Hsid & Hevents & Hbus & Hstep);
      [apply Hwaiting; by left|].
    destruct (raised (emit (eventEmitter wm) ev)) as [thrown|] eqn:Hraised.
    + destruct Hstep as [-> Hsame]. exists []. simpl.
      split; [constructor|]. split; [done|]. split; [done|].
      exists ev. rewrite Hevents. repeat split; done.
    + destruct Hstep as [-> Hdeleted].
      destruct (IH (cancelWait stepId (Some why) wm).2 Hnd)
        as (cancelled & Hall & Hsteps & Hentries & Hend).
      { intros other Hother. rewrite Hdeleted.
        rewrite lookup_delete_ne by (intros ->; done).
        apply Hwaiting. by right. }
      exists (ev :: cancelled). simpl.
      split; [|split; [|split]].
      * constructor; [done|]. by rewrite <- Hbus.
      * by rewrite Hsid, Hsteps.
      * by rewrite Hentries, Hdeleted, foldr_delete_commute.
      * destruct (cancel_each why rest _).1 as [thrown|].
        -- destruct Hend as (last & Hlog & Hlast & Hlastid & Hsome & Hthrown).
           exists last. rewrite Hlog, Hevents, <- app_assoc.
           rewrite <- Hbus. done.
        -- destruct Hend as [-> ->]. by rewrite Hevents, <- app_assoc.
Qed.

(** X30: [cancelAllWaits], called with the step ids that wait, in any order,
    cancels them one after the other until a subscriber throws on a
    [WAIT_CANCEL] event: the steps cancelled so far no longer wait, and each
    has had its [WAIT_CANCEL] event; the others still wait. When no
    subscriber threw, every step was cancelled and the map is empty. When
    one threw, its exception leaves [cancelAllWaits], the event it threw on
    is that of the first step that still waits, and it is the last event. *)
Theorem cancelAllWaits_clears (stepIds : list string) (reason : option string)
    (wm : WaitManager) :
  (∀ stepId, is_Some (waitingItems wm !! stepId) -> stepId ∈ stepIds) ->
  (∀ stepId, stepId ∈ stepIds -> is_Some (waitingItems wm !! stepId)) ->
  NoDup stepIds ->
  ∃ cancelled,
    Forall (fun ev => type ev = WAIT_CANCEL
                      ∧ raised (emit (eventEmitter wm) ev) = None) cancelled
    ∧ map Events.stepId cancelled
      = map Some (take (length cancelled) stepIds)
    ∧ (∀ stepId,
         isWaiting stepId (cancelAllWaits stepIds reason wm).2
         = bool_decide (stepId ∈ drop (length cancelled) stepIds))
    ∧ match (cancelAllWaits stepIds reason wm).1 with
      | None =>
          events (cancelAllWaits stepIds reason wm).2
          = events wm ++ cancelled
          ∧ map Events.stepId cancelled = map Some stepIds
          ∧ waitingItems (cancelAllWaits stepIds reason wm).2 = ∅
          ∧ getWaitingCount (cancelAllWaits stepIds reason wm).2 = 0%nat
      | Some thrown =>
          ∃ ev,
            events (cancelAllWaits stepIds reason wm).2
            = events wm ++ cancelled ++ [ev]
            ∧ type ev = WAIT_CANCEL
            ∧ Events.stepId ev = stepIds !! length cancelled
            ∧ is_Some (stepIds !! length cancelled)
            ∧ raised (emit (eventEmitter wm) ev) = Some thrown
      end.
Proof.
  intros Hall Honly Hnd. unfold cancelAllWaits.
  destruct (cancel_each_run (default "工作流已取消" reason) stepIds wm Hnd Honly)
    as (cancelled & Htypes & Hsteps & Hentries & Hend).
  exists cancelled. split; [done|]. split; [done|].
  assert (Hwaiting : ∀ stepId,
            isWaiting stepId
              (cancel_each (default "工作流已取消" reason) stepIds wm).2
            = bool_decide (stepId ∈ drop (length cancelled) stepIds)).
  { intros stepId. unfold isWaiting. rewrite Hentries, lookup_foldr_delete.
    apply bool_decide_ext.
    pose proof (take_drop (length cancelled) stepIds) as Hsplit.
    rewrite <- Hsplit in Hnd. apply NoDup_app in Hnd as (_ & Hapart & _).
    destruct (decide (stepId ∈ take (length cancelled) stepIds))
      as [Hin|Hout].
    - split; [by intros [? ?]|]. intros Hlater. by destruct (Hapart stepId).
    - split.
      + intros Hentry. apply Hall in Hentry. rewrite <- Hsplit in Hentry.
        by apply elem_of_app in Hentry as [?|?].
      + intros Hlater. apply Honly. rewrite <- Hsplit.
        apply elem_of_app. by right. }
  split; [exact Hwaiting|].
  destruct (cancel_each _ stepIds wm).1 as [thrown|].
  - destruct Hend as (ev & Hlog & Hty & Hsid & Hsome & Hthrown).
    exists ev. repeat split; done.
  - destruct Hend as [Hlog Hlen].
    assert (Hfull : take (length cancelled) stepIds = stepIds)
      by (rewrite Hlen; apply firstn_all).
    rewrite Hfull in Hsteps, Hentries.
    assert (Hempty : waitingItems
                       (cancel_each (default "工作流已取消" reason) stepIds wm).2
                     = ∅).
    { apply map_eq. intros stepId. rewrite Hentries, lookup_foldr_delete.
      rewrite lookup_empty. destruct (decide (stepId ∈ stepIds)); [done|].
      destruct (waitingItems wm !! stepId) eqn:Hentry; [|done].
      exfalso. apply n, Hall. by eexists. }
    repeat split; try done.
    unfold getWaitingCount. by rewrite Hempty, map_size_empty.
Qed.

Lemma cancelAllWaits_clears_witness :
  ∃ cancelled,
    Forall (fun ev => type ev = WAIT_CANCEL
                      ∧ raised (emit (eventEmitter waiting_manager) ev) = None)
      cancelled
    ∧ map Events.stepId cancelled
      = map Some (take (length cancelled) ["s1"])
    ∧ (∀ stepId,
         isWaiting stepId (cancelAllWaits ["s1"] None waiting_manager).2
         = bool_decide (stepId ∈ drop (length cancelled) ["s1"]))
    ∧ match (cancelAllWaits ["s1"] None waiting_manager).1 with
      | None =>
          events (cancelAllWaits ["s1"] None waiting_manager).2
          = events waiting_manager ++ cancelled
          ∧ map Events.stepId cancelled = map Some ["s1"]
          ∧ waitingItems (cancelAllWaits ["s1"] None waiting_manager).2 = ∅
          ∧ getWaitingCount (cancelAllWaits ["s1"] None waiting_manager).2
            = 0%nat
      | Some thrown =>
          ∃ ev,
            events (cancelAllWaits ["s1"] None waiting_manager).2
            = events waiting_manager ++ cancelled ++ [ev]
            ∧ type ev = WAIT_CANCEL
            ∧ Events.stepId ev = ["s1"] !! length cancelled
            ∧ is_Some (["s1"] !! length cancelled)
            ∧ raised (emit (eventEmitter waiting_manager) ev) = Some thrown
      end.
Proof.
  apply (cancelAllWaits_clears ["s1"] None waiting_manager).
  - intros stepId [a Ha].
    destruct (decide (stepId = "s1")) as [->|Hne]; [left|].
    exfalso.
    assert (Hkeys : waitingItems waiting_manager = {["s1" := 0%nat]})
      by (vm_compute; reflexivity).
    rewrite Hkeys, lookup_singleton_ne in Ha by done. discriminate.
  - intros stepId Hin. apply list_elem_of_singleton in Hin as ->.
    by eexists.
  - apply NoDup_singleton.
Defined.

End Async.
